(** * posixmqcontrol: a shallow embedding of [posixmqcontrol.c]

    The program is a command-line front end to POSIX message queues.  The
    embedding keeps the layout of the C file: libc helpers, the [Creation]
    record and the two element lists, the option parsers and validators, the
    table-driven engine ([parse_options], [validate_options]), the five
    subcommands and [main].

    - C integers are [Z]; conversions between C types are written out
      ([to_int], [to_unsigned]).
    - A C string is the Rocq [string] of its bytes before the terminator.
    - The process state (the globals of the C file, [errno], the two output
      streams) is threaded through a small state monad [M].
    - The message-queue service is an interface ([MqService]); every call on
      it is recorded in a trace, so that theorems can speak about which
      calls were issued. *)

From Stdlib Require Import ZArith List String Ascii Bool Arith Lia.
From Equations Require Import Equations.
Import ListNotations.

Local Open Scope string_scope.
Local Open Scope Z_scope.

(** ** C types and constants *)

Module C.

Definition INT_MAX : Z := 2 ^ 31 - 1.
Definition LONG_MAX : Z := 2 ^ 63 - 1.
Definition LONG_MIN : Z := - 2 ^ 63.
Definition ULONG_MAX : Z := 2 ^ 64 - 1.

(** Conversion to [int] (32 bits, two's complement). *)
Definition to_int (z : Z) : Z := (z + 2 ^ 31) mod 2 ^ 32 - 2 ^ 31.

(** Conversion to [unsigned] (32 bits). *)
Definition to_unsigned (z : Z) : Z := z mod 2 ^ 32.

(** <limits.h>, <mqueue.h>, <errno.h>, <fcntl.h>, <sys/stat.h> as on
    FreeBSD, the platform the program is written for. *)
Definition PATH_MAX : nat := 1024.
Definition MQ_PRIO_MAX : Z := 64.
Definition ENOENT : Z := 2.
Definition EBADF : Z := 9.
Definition EINVAL : Z := 22.
Definition EAGAIN : Z := 35.
Definition EMSGSIZE : Z := 40.
Definition O_RDONLY : Z := 0.
Definition O_WRONLY : Z := 1.
Definition O_RDWR : Z := 2.
Definition O_NONBLOCK : Z := 4.
Definition O_CREAT : Z := 512.
Definition S_IFIFO : Z := 4096.


End C.
Import C.

(** ** libc: [isspace], [strtol], [strtoul] (ISO C, 7.22.1.4)

    The subject of a conversion is: optional white space, one optional sign,
    then the longest run of digits of the base.  Only bases 8 and 10 are used
    by the program, so no [0x] prefix has to be recognised.  The functions
    return the converted value together with the truth of [cursor > text],
    which holds exactly when at least one digit was converted.  The program
    reads [errno] only right after a call on the service has failed, never
    after a conversion: the [ERANGE] a conversion stores on overflow is left
    out of the model. *)

Module Libc.

Definition isspace (c : ascii) : bool :=
  let n := nat_of_ascii c in
  ((9 <=? n) && (n <=? 13))%nat || (n =? 32)%nat.

(** Value of [c] as a digit, for any base up to 36. *)
Definition digit_of (c : ascii) : option Z :=
  let n := Z.of_nat (nat_of_ascii c) in
  if (48 <=? n) && (n <=? 57) then Some (n - 48)
  else if (65 <=? n) && (n <=? 90) then Some (n - 65 + 10)
  else if (97 <=? n) && (n <=? 122) then Some (n - 97 + 10)
  else None.

Definition digit_in (base : Z) (c : ascii) : option Z :=
  match digit_of c with
  | Some d => if d <? base then Some d else None
  | None => None
  end.

Fixpoint skip_space (s : string) : string :=
  match s with
  | String c rest => if isspace c then skip_space rest else s
  | EmptyString => s
  end.

(** The sign, if there is one, and what follows it. *)
Definition skip_sign (s : string) : bool * string :=
  match s with
  | String "-" rest => (true, rest)
  | String "+" rest => (false, rest)
  | _ => (false, s)
  end.

(** Horner accumulation over the leading run of digits. *)
Fixpoint accumulate (base : Z) (s : string) (acc : Z) : Z :=
  match s with
  | String c rest =>
      match digit_in base c with
      | Some d => accumulate base rest (acc * base + d)
      | None => acc
      end
  | EmptyString => acc
  end.

Definition starts_with_digit (base : Z) (s : string) : bool :=
  match s with
  | String c _ => match digit_in base c with Some _ => true | None => false end
  | EmptyString => false
  end.

(** [strtol text &cursor base]: the value, and whether [cursor > text]. *)
Definition strtol (text : string) (base : Z) : Z * bool :=
  let '(neg, body) := skip_sign (skip_space text) in
  if starts_with_digit base body then
    let m := accumulate base body 0 in
    ((if neg then (if 2 ^ 63 <? m then LONG_MIN else - m)
      else (if LONG_MAX <? m then LONG_MAX else m)), true)
  else (0, false).

(** [strtoul text &cursor base]: on overflow [ULONG_MAX]; otherwise a
    leading minus sign negates the value in [unsigned long]. *)
Definition strtoul (text : string) (base : Z) : Z * bool :=
  let '(neg, body) := skip_sign (skip_space text) in
  if starts_with_digit base body then
    let m := accumulate base body 0 in
    ((if ULONG_MAX <? m then ULONG_MAX
      else if neg then (- m) mod 2 ^ 64 else m), true)
  else (0, false).

(** [strcmp a b == 0]. *)
Definition streq (a b : string) : bool := String.eqb a b.

Definition strlen (s : string) : Z := Z.of_nat (String.length s).

(** The leading run of digits of [s], as values, and its Horner value:
    the reading of a conversion that the statements use. *)
Fixpoint leading_digits (base : Z) (s : string) : list Z :=
  match s with
  | String c rest =>
      match digit_in base c with
      | Some d => d :: leading_digits base rest
      | None => []
      end
  | EmptyString => []
  end.

Definition horner (base : Z) (ds : list Z) : Z :=
  fold_left (fun acc d => acc * base + d) ds 0.

End Libc.
Import Libc.

(** ** Data model *)

(** [struct Creation].  The field [exists] is spelled [exists_]. *)
Record Creation := mkCreation {
  exists_ : bool;
  set_mode : bool;
  mode : Z;
  depth : Z;
  size : Z;
  block : bool;
  set_group : bool;
  group : Z;
  set_user : bool;
  user : Z
}.

Definition with_exists (c : Creation) (v : bool) : Creation :=
  mkCreation v (set_mode c) (mode c) (depth c) (size c) (block c)
             (set_group c) (group c) (set_user c) (user c).
Definition with_set_mode (c : Creation) (v : bool) : Creation :=
  mkCreation (exists_ c) v (mode c) (depth c) (size c) (block c)
             (set_group c) (group c) (set_user c) (user c).
Definition with_mode (c : Creation) (v : Z) : Creation :=
  mkCreation (exists_ c) (set_mode c) v (depth c) (size c) (block c)
             (set_group c) (group c) (set_user c) (user c).
Definition with_depth (c : Creation) (v : Z) : Creation :=
  mkCreation (exists_ c) (set_mode c) (mode c) v (size c) (block c)
             (set_group c) (group c) (set_user c) (user c).
Definition with_size (c : Creation) (v : Z) : Creation :=
  mkCreation (exists_ c) (set_mode c) (mode c) (depth c) v (block c)
             (set_group c) (group c) (set_user c) (user c).
Definition with_block (c : Creation) (v : bool) : Creation :=
  mkCreation (exists_ c) (set_mode c) (mode c) (depth c) (size c) v
             (set_group c) (group c) (set_user c) (user c).
Definition with_set_group (c : Creation) (v : bool) : Creation :=
  mkCreation (exists_ c) (set_mode c) (mode c) (depth c) (size c) (block c)
             v (group c) (set_user c) (user c).
Definition with_group (c : Creation) (v : Z) : Creation :=
  mkCreation (exists_ c) (set_mode c) (mode c) (depth c) (size c) (block c)
             (set_group c) v (set_user c) (user c).
Definition with_set_user (c : Creation) (v : bool) : Creation :=
  mkCreation (exists_ c) (set_mode c) (mode c) (depth c) (size c) (block c)
             (set_group c) (group c) v (user c).
Definition with_user (c : Creation) (v : Z) : Creation :=
  mkCreation (exists_ c) (set_mode c) (mode c) (depth c) (size c) (block c)
             (set_group c) (group c) (set_user c) v.

(** The initialiser of the global [creation]; 0755 is 493. *)
Definition creation_default : Creation :=
  mkCreation false false 493 (-1) (-1) true false 0 false 0.

(** [struct mq_attr] and the fields of [struct stat] the program reads. *)
Record mq_attr := mkAttr {
  mq_flags : Z;
  mq_maxmsg : Z;
  mq_msgsize : Z;
  mq_curmsgs : Z
}.

Record stat := mkStat {
  st_uid : Z;
  st_gid : Z;
  st_mode : Z
}.

(** [(mqd_t)-1]. *)
Definition fail : Z := -1.

(** What the program writes to the error stream, one constructor per
    [fprintf(stderr, ...)] of the source, and [perror]. *)
Inductive Diag :=
| ErrLongFormat (knob name text : string)
| WarnUnsignedFormat (knob name text : string)
| ErrQueueStart (text : string)
| ErrQueueSlash (text : string)
| ErrQueueLong (text : string)
| WarnBlockFormat (text : string)
| WarnModeValue (text : string)
| WarnPriorityRange (text : string)
| WarnPriorityFormat (text : string)
| WarnExtraQueue (queue : string)
| ErrNoContent
| ErrDepthMissing
| ErrQueueMissing
| ErrOneQueue
| ErrSizeMissing
| WarnSkipping (arg : string)
| WarnTruncating (msgsize : Z)
| ErrUnknownVerb (verb : string)
| Perror (what : string) (code : Z).

(** What the program writes to the output stream. *)
Inductive Out :=
| OutInfo (queue : string) (qsize msgsize maxmsg curmsgs flags : Z)
| OutStat (uid gid mode : Z)
| OutRecvError (what : Z)
| OutMessage (priority : Z) (length : Z) (text : string)
| OutUsage.

(** The calls on the message-queue service, as the trace records them. *)
Inductive Call :=
| MqOpen (name : string) (flags : Z) (creat : option (Z * mq_attr))
| MqClose (handle : Z)
| MqUnlink (name : string)
| MqGetattr (handle : Z)
| MqSend (handle : Z) (text : string) (len : Z) (prio : Z)
| MqReceive (handle : Z) (len : Z)
| MqGetfd (handle : Z)
| Fstat (fd : Z)
| Fchown (fd uid gid : Z)
| Fchmod (fd mode : Z).

(** ** The platform: the queue service, the account databases and the
    [__BSD_VISIBLE] switch

    A failing call answers [Err e] with the value left in [errno]; handles
    and descriptors of successful calls are natural numbers. *)

Inductive Reply (A : Type) :=
| Ok (a : A)
| Err (e : Z).
Arguments Ok {A} a.
Arguments Err {A} e.

Class MqService := {
  World : Type;
  BSD_VISIBLE : bool;
  getgrnam : string -> option Z;
  getpwnam : string -> option Z;
  os_mq_open : string -> Z -> option (Z * mq_attr) -> World -> Reply nat * World;
  os_mq_close : Z -> World -> Reply unit * World;
  os_mq_unlink : string -> World -> Reply unit * World;
  os_mq_getattr : Z -> World -> Reply mq_attr * World;
  os_mq_send : Z -> string -> Z -> Z -> World -> Reply unit * World;
  os_mq_receive : Z -> Z -> World -> Reply (string * Z) * World;
  os_mq_getfd_np : Z -> World -> Reply nat * World;
  os_fstat : Z -> World -> Reply stat * World;
  os_fchown : Z -> Z -> Z -> World -> Reply unit * World;
  os_fchmod : Z -> Z -> World -> Reply unit * World
}.

(** ** The state monad *)

Definition State (S A : Type) : Type := S -> A * S.

Definition ret {S A : Type} (a : A) : State S A := fun st => (a, st).

Definition bind {S A B : Type} (m : State S A) (k : A -> State S B) : State S B :=
  fun st => let (a, st') := m st in k a st'.

Notation "x <- m ;; k" := (bind m (fun x => k))
  (at level 61, m at next level, right associativity, only parsing).
Notation "' p <- m ;; k" := (bind m (fun x => let 'p := x in k))
  (at level 61, p pattern, m at next level, right associativity, only parsing).
Notation "m ;;; k" := (bind m (fun _ => k))
  (at level 61, right associativity, only parsing).

Section Program.

Context {OS : MqService}.

(** ** The process state: the globals of the C file and the outside world *)

Record Proc := mkProc {
  creation : Creation;
  queues : list string;
  contents : list string;
  priority : Z;
  errno : Z;
  stderr : list Diag;
  stdout : list Out;
  trace : list Call;
  world : World
}.

Definition M (A : Type) : Type := State Proc A.

(** The state at the entry of [main]: the static initialisers. *)
Definition initial (w : World) : Proc :=
  mkProc creation_default [] [] (MQ_PRIO_MAX / 2) 0 [] [] [] w.

Definition upd_creation (f : Creation -> Creation) : M unit :=
  fun st => (tt, mkProc (f (creation st)) (queues st) (contents st) (priority st)
                        (errno st) (stderr st) (stdout st) (trace st) (world st)).

Definition set_queues (l : list string) : M unit :=
  fun st => (tt, mkProc (creation st) l (contents st) (priority st)
                        (errno st) (stderr st) (stdout st) (trace st) (world st)).

Definition set_contents (l : list string) : M unit :=
  fun st => (tt, mkProc (creation st) (queues st) l (priority st)
                        (errno st) (stderr st) (stdout st) (trace st) (world st)).

Definition set_priority (p : Z) : M unit :=
  fun st => (tt, mkProc (creation st) (queues st) (contents st) p
                        (errno st) (stderr st) (stdout st) (trace st) (world st)).

Definition get {A : Type} (f : Proc -> A) : M A := fun st => (f st, st).

(** [fprintf(stderr, ...)] and [fprintf(stdout, ...)]. *)
Definition eprintf (d : Diag) : M unit :=
  fun st => (tt, mkProc (creation st) (queues st) (contents st) (priority st)
                        (errno st) (stderr st ++ [d]) (stdout st) (trace st) (world st)).

Definition printf (o : Out) : M unit :=
  fun st => (tt, mkProc (creation st) (queues st) (contents st) (priority st)
                        (errno st) (stderr st) (stdout st ++ [o]) (trace st) (world st)).

(** [perror(what)]: the message of the current [errno]. *)
Definition perror (what : string) : M unit :=
  fun st => eprintf (Perror what (errno st)) st.

(** One call on the service: it is appended to the trace, the world moves
    on, and a failure leaves its code in [errno]. *)
Definition syscall {A : Type} (c : Call) (os : World -> Reply A * World) : M (Reply A) :=
  fun st =>
    let (r, w) := os (world st) in
    (r, mkProc (creation st) (queues st) (contents st) (priority st)
               (match r with Ok _ => errno st | Err e => e end)
               (stderr st) (stdout st) (trace st ++ [c]) w).

Definition status {A : Type} (r : Reply A) : Z :=
  match r with Ok _ => 0 | Err _ => -1 end.

Definition mq_open (name : string) (flags : Z) (creat : option (Z * mq_attr)) : M Z :=
  r <- syscall (MqOpen name flags creat) (os_mq_open name flags creat) ;;
  ret (match r with Ok n => Z.of_nat n | Err _ => fail end).

Definition mq_close (handle : Z) : M Z :=
  r <- syscall (MqClose handle) (os_mq_close handle) ;; ret (status r).

Definition mq_unlink (name : string) : M Z :=
  r <- syscall (MqUnlink name) (os_mq_unlink name) ;; ret (status r).

(** [mq_getattr(handle, &actual)]: [actual] keeps its old value on failure. *)
Definition mq_getattr (handle : Z) (actual : mq_attr) : M (Z * mq_attr) :=
  r <- syscall (MqGetattr handle) (os_mq_getattr handle) ;;
  ret (status r, match r with Ok a => a | Err _ => actual end).

Definition mq_send (handle : Z) (text : string) (len : Z) (prio : Z) : M Z :=
  r <- syscall (MqSend handle text len prio) (os_mq_send handle text len prio) ;;
  ret (status r).

(** [mq_receive(handle, text, len, &priority)]: the length received, the
    buffer and the priority; the zeroed buffer and [priority] stay on failure. *)
Definition mq_receive (handle : Z) (len : Z) (prio : Z) : M (Z * string * Z) :=
  r <- syscall (MqReceive handle len) (os_mq_receive handle len) ;;
  ret (match r with
       | Ok (text, p) => (strlen text, text, p)
       | Err _ => (-1, "", prio)
       end).

Definition mq_getfd_np (handle : Z) : M Z :=
  r <- syscall (MqGetfd handle) (os_mq_getfd_np handle) ;;
  ret (match r with Ok n => Z.of_nat n | Err _ => -1 end).

Definition fstat (fd : Z) (st0 : stat) : M (Z * stat) :=
  r <- syscall (Fstat fd) (os_fstat fd) ;;
  ret (status r, match r with Ok s => s | Err _ => st0 end).

Definition fchown (fd uid gid : Z) : M Z :=
  r <- syscall (Fchown fd uid gid) (os_fchown fd uid gid) ;; ret (status r).

Definition fchmod (fd m : Z) : M Z :=
  r <- syscall (Fchmod fd m) (os_fchmod fd m) ;; ret (status r).

(** ** OPTIONS parsing utilitarian *)

(** [capture] stands for the pointer the C function writes through. *)
Definition parse_long (text : string) (capture : Z -> Creation -> Creation)
           (knob name : string) : M unit :=
  let '(value, moved) := strtol text 10 in
  if moved then upd_creation (capture value)
  else eprintf (ErrLongFormat knob name text).

Definition parse_unsigned (text : string) (set : bool -> Creation -> Creation)
           (capture : Z -> Creation -> Creation) (knob name : string) : M unit :=
  let '(v, moved) := strtoul text 8 in
  let value := to_unsigned v in
  if moved then upd_creation (set true) ;;; upd_creation (capture value)
  else eprintf (WarnUnsignedFormat knob name text).

(** The outcome of the scan of [sane_queue]. *)
Inductive Sanity := Sane | NoLeadingSlash | SecondSlash | TooLong.

(** The [while] loop of [sane_queue] and the test after it; [queue] is the
    text from the cursor on, [size] the number of bytes before it. *)
Fixpoint sane_queue_scan (queue : string) (size : nat) : Sanity :=
  match queue with
  | String c rest =>
      if (size <? PATH_MAX)%nat then
        if Ascii.eqb c "/" then SecondSlash else sane_queue_scan rest (S size)
      else if (size =? PATH_MAX)%nat then TooLong else Sane
  | EmptyString => Sane
  end.

Definition sane_queue_check (text : string) : Sanity :=
  match text with
  | String c rest => if Ascii.eqb c "/" then sane_queue_scan rest 1 else NoLeadingSlash
  | EmptyString => NoLeadingSlash
  end.

Definition sane_queue (text : string) : M bool :=
  match sane_queue_check text with
  | Sane => ret true
  | NoLeadingSlash => eprintf (ErrQueueStart text) ;;; ret false
  | SecondSlash => eprintf (ErrQueueSlash text) ;;; ret false
  | TooLong => eprintf (ErrQueueLong text) ;;; ret false
  end.

(** ** OPTIONS parsers *)

Definition parse_block (text : string) : M unit :=
  if streq text "true" || streq text "yes" then
    upd_creation (fun c => with_block c true)
  else if streq text "false" || streq text "no" then
    upd_creation (fun c => with_block c false)
  else
    let '(value, moved) := strtol text 10 in
    if moved then upd_creation (fun c => with_block c (negb (value =? 0)))
    else eprintf (WarnBlockFormat text).

Definition parse_content (content : string) : M unit :=
  l <- get contents ;; set_contents (l ++ [content]).

Definition parse_depth (text : string) : M unit :=
  parse_long text (fun v c => with_depth c v) "-d" "depth".

Definition parse_group (text : string) : M unit :=
  match getgrnam text with
  | None =>
      parse_unsigned text (fun b c => with_set_group c b) (fun v c => with_group c v)
                     "-g" "group"
  | Some gr_gid =>
      upd_creation (fun c => with_set_group c true) ;;;
      upd_creation (fun c => with_group c (to_unsigned gr_gid))
  end.

Definition parse_mode (text : string) : M unit :=
  let '(value, moved) := strtol text 8 in
  if moved && (0 <? value) && (value <? 4096) then
    upd_creation (fun c => with_set_mode c true) ;;;
    upd_creation (fun c => with_mode c value)
  else eprintf (WarnModeValue text).

Definition parse_priority (text : string) : M unit :=
  let '(value, moved) := strtol text 10 in
  if moved then
    if (0 <=? value) && (value <? MQ_PRIO_MAX) then set_priority value
    else eprintf (WarnPriorityRange text)
  else eprintf (WarnPriorityFormat text).

Definition parse_queue (queue : string) : M unit :=
  ok <- sane_queue queue ;;
  if ok then l <- get queues ;; set_queues (l ++ [queue])
  else ret tt.

Definition parse_single_queue (queue : string) : M unit :=
  ok <- sane_queue queue ;;
  if ok then
    l <- get queues ;;
    match l with
    | [] => set_queues (l ++ [queue])
    | _ :: _ => eprintf (WarnExtraQueue queue)
    end
  else ret tt.

Definition parse_size (text : string) : M unit :=
  parse_long text (fun v c => with_size c v) "-s" "size".

Definition parse_user (text : string) : M unit :=
  match getpwnam text with
  | None =>
      parse_unsigned text (fun b c => with_set_user c b) (fun v c => with_user c v)
                     "-u" "user"
  | Some pw_uid =>
      upd_creation (fun c => with_set_user c true) ;;;
      upd_creation (fun c => with_user c (to_unsigned pw_uid))
  end.

(** ** OPTIONS validators *)

Definition validate_always_true : M bool := ret true.

Definition validate_content : M bool :=
  l <- get contents ;;
  let valid := match l with [] => false | _ :: _ => true end in
  (if valid then ret tt else eprintf ErrNoContent) ;;; ret valid.

Definition validate_depth : M bool :=
  c <- get creation ;;
  let valid := exists_ c || (0 <? depth c) in
  (if valid then ret tt else eprintf ErrDepthMissing) ;;; ret valid.

Definition validate_mode : M bool :=
  c <- get creation ;; ret (0 <? mode c).

Definition validate_queue : M bool :=
  l <- get queues ;;
  let valid := match l with [] => false | _ :: _ => true end in
  (if valid then ret tt else eprintf ErrQueueMissing) ;;; ret valid.

Definition validate_single_queue : M bool :=
  l <- get queues ;;
  let valid := match l with [_] => true | _ => false end in
  (if valid then ret tt else eprintf ErrOneQueue) ;;; ret valid.

Definition validate_size : M bool :=
  c <- get creation ;;
  let valid := exists_ c || (0 <? size c) in
  (if valid then ret tt else eprintf ErrSizeMissing) ;;; ret valid.

(** ** OPTIONS table handling *)

Record Option := mkOption {
  pattern : list string;
  parse : string -> M unit;
  validate : M bool
}.

(** The innermost loop of [parse_options]: does a spelling of [pattern]
    equal [arg]? *)
Fixpoint match_pattern (pattern : list string) (arg : string) : bool :=
  match pattern with
  | knob :: rest => if streq knob arg then true else match_pattern rest arg
  | [] => false
  end.

(** The middle loop: the first option of the table with a matching
    spelling. *)
Fixpoint find_option (cursor : list Option) (arg : string) : option Option :=
  match cursor with
  | option :: rest =>
      if match_pattern (pattern option) arg then Some option
      else find_option rest arg
  | [] => None
  end.

(** [argv[i]]. *)
Definition argv_at (argv : list string) (i : nat) : string := nth i argv "".

(** The outer loop, from [index]; [argc] is the length of [argv]. *)
Equations? parse_options (index : nat) (argv : list string) (options : list Option)
  (st : Proc) : unit * Proc by wf (List.length argv - index)%nat lt :=
  parse_options index argv options st with lt_dec (index + 1) (List.length argv) => {
    | left _ with find_option options (argv_at argv index) => {
        | Some option =>
            parse_options (index + 2) argv options
                          (snd (parse option (argv_at argv (index + 1)) st))
        | None =>
            parse_options (index + 1) argv options
                          (snd (eprintf (WarnSkipping (argv_at argv index)) st)) }
    | right _ =>
        if (index <? List.length argv)%nat
        then eprintf (WarnSkipping (argv_at argv index)) st
        else (tt, st) }.
Proof. all: lia. Qed.

(** The verdict is the conjunction; no validator is skipped. *)
Fixpoint validate_loop (options : list Option) (valid : bool) : M bool :=
  match options with
  | option :: rest =>
      ok <- validate option ;;
      validate_loop rest (if ok then valid else false)
  | [] => ret valid
  end.

Definition validate_options (options : list Option) : M bool :=
  validate_loop options true.

(** ** SUBCOMMANDS *)

(** The common failure exit: [what = errno; perror(...); return what],
    with [mq_close(handle)] in between where the source has it. *)
Definition abandon (where_ : string) (handle : option Z) : M Z :=
  what <- get errno ;;
  perror where_ ;;;
  match handle with
  | Some h => mq_close h ;;; ret what
  | None => ret what
  end.

(** The last step of [create] under [__BSD_VISIBLE]: the mode of an existing
    queue.  The mask is the literal of the source, [0x06777]. *)
Definition create_mode (handle fd : Z) (q_creation : Creation) (status : stat) : M Z :=
  if exists_ q_creation && set_mode q_creation
     && negb (mode q_creation =? Z.land (st_mode status) 0x6777) then
    result <- fchmod fd (mode q_creation) ;;
    if negb (result =? 0) then abandon "fchmod(create)" (Some handle)
    else mq_close handle
  else mq_close handle.

(** The [#if __BSD_VISIBLE] part of [create]. *)
Definition create_owner (handle : Z) (q_creation : Creation) : M Z :=
  fd <- mq_getfd_np handle ;;
  if fd <? 0 then abandon "mq_getfd_np(create)" (Some handle)
  else
    '(result, status) <- fstat fd (mkStat 0 0 0) ;;
    if negb (result =? 0) then abandon "fstat(create)" (Some handle)
    else if set_group q_creation || set_user q_creation then
      let q_creation :=
        with_user q_creation
          (if set_user q_creation then user q_creation else st_uid status) in
      let q_creation :=
        with_group q_creation
          (if set_group q_creation then group q_creation else st_gid status) in
      result <- fchown fd (user q_creation) (group q_creation) ;;
      if negb (result =? 0) then abandon "fchown(create)" (Some handle)
      else create_mode handle fd q_creation status
    else create_mode handle fd q_creation status.

(** [create(queue, q_creation)]: [q_creation] is the by-value copy; the
    validators read the global [creation]. *)
Definition create (queue : string) (q_creation : Creation) : M Z :=
  let flags := O_RDWR in
  let stuff := mkAttr 0 (depth q_creation) (size q_creation) 0 in
  let flags := if block q_creation then flags else Z.lor flags O_NONBLOCK in
  let stuff :=
    if block q_creation then stuff
    else mkAttr (Z.lor (mq_flags stuff) O_NONBLOCK) (mq_maxmsg stuff)
                (mq_msgsize stuff) (mq_curmsgs stuff) in
  handle <- mq_open queue flags None ;;
  let q_creation := with_exists q_creation (negb (handle =? fail)) in
  '(handle, q_creation) <-
    (if negb (exists_ q_creation) then
       size_ok <- validate_size ;;
       depth_ok <- (if size_ok then validate_depth else ret false) ;;
       if size_ok && depth_ok then
         let q_creation := with_set_mode q_creation false in
         let flags := Z.lor flags O_CREAT in
         handle <- mq_open queue flags (Some (mode q_creation, stuff)) ;;
         ret (handle, q_creation)
       else ret (handle, q_creation)
     else ret (handle, q_creation)) ;;
  if handle =? fail then abandon "mq_open(create)" None
  else if BSD_VISIBLE then create_owner handle q_creation
  else mq_close handle.

Definition rm (queue : string) : M Z :=
  result <- mq_unlink queue ;;
  if negb (result =? 0) then abandon "mq_unlink" None
  else ret result.

Definition info (queue : string) : M Z :=
  handle <- mq_open queue O_RDONLY None ;;
  if handle =? fail then abandon "mq_open(info)" None
  else
    '(result, actual) <- mq_getattr handle (mkAttr 0 0 0 0) ;;
    if negb (result =? 0) then abandon "mq_getattr(info)" None
    else
      printf (OutInfo queue ((mq_msgsize actual * mq_curmsgs actual) mod 2 ^ 64)
                      (mq_msgsize actual) (mq_maxmsg actual) (mq_curmsgs actual)
                      (mq_flags actual)) ;;;
      (if BSD_VISIBLE then
         fd <- mq_getfd_np handle ;;
         '(result, status) <- fstat fd (mkStat 0 0 0) ;;
         if negb (result =? 0) then perror "fstat(info)"
         else printf (OutStat (st_uid status) (st_gid status) (st_mode status))
       else ret tt) ;;;
      mq_close handle.

Definition recv (queue : string) : M Z :=
  handle <- mq_open queue O_RDONLY None ;;
  if handle =? fail then
    what <- get errno ;;
    perror "mq_open(recv)" ;;;
    printf (OutRecvError what) ;;;
    ret what
  else
    '(result, actual) <- mq_getattr handle (mkAttr 0 0 0 0) ;;
    if negb (result =? 0) then abandon "mq_attr(recv)" (Some handle)
    else
      '(received, text, priority) <- mq_receive handle (mq_msgsize actual) 0 ;;
      let result := to_int received in
      if result <? 0 then abandon "mq_receive" (Some handle)
      else
        printf (OutMessage priority result text) ;;;
        mq_close handle.

Definition send (queue text : string) (q_priority : Z) : M Z :=
  handle <- mq_open queue O_WRONLY None ;;
  if handle =? fail then abandon "mq_open(send)" None
  else
    '(result, actual) <- mq_getattr handle (mkAttr 0 0 0 0) ;;
    if negb (result =? 0) then abandon "mq_attr(send)" (Some handle)
    else
      let size := to_int (strlen text) in
      size <- (if mq_msgsize actual <? size then
                 eprintf (WarnTruncating (mq_msgsize actual)) ;;;
                 ret (to_int (mq_msgsize actual))
               else ret size) ;;
      result <- mq_send handle text size q_priority ;;
      if negb (result =? 0) then abandon "mq_send" (Some handle)
      else mq_close handle.

Definition usage : M unit := printf OutUsage.

(** ** OPTIONS tables *)

Definition names_queue : list string := ["-q"; "--queue"; "-t"; "--topic"].
Definition option_queue : Option := mkOption names_queue parse_queue validate_queue.
Definition option_single_queue : Option :=
  mkOption names_queue parse_single_queue validate_single_queue.
Definition names_depth : list string := ["-d"; "--depth"; "--maxmsg"].
Definition option_depth : Option := mkOption names_depth parse_depth validate_always_true.
Definition names_size : list string := ["-s"; "--size"; "--msgsize"].
Definition option_size : Option := mkOption names_size parse_size validate_always_true.
Definition names_block : list string := ["-b"; "--block"].
Definition option_block : Option := mkOption names_block parse_block validate_always_true.
Definition names_content : list string := ["-c"; "--content"; "--data"; "--message"].
Definition option_content : Option := mkOption names_content parse_content validate_content.
Definition names_priority : list string := ["-p"; "--priority"].
Definition option_priority : Option :=
  mkOption names_priority parse_priority validate_always_true.
Definition names_mode : list string := ["-m"; "--mode"].
Definition option_mode : Option := mkOption names_mode parse_mode validate_mode.
Definition names_group : list string := ["-g"; "--gid"].
Definition option_group : Option := mkOption names_group parse_group validate_always_true.
Definition names_user : list string := ["-u"; "--uid"].
Definition option_user : Option := mkOption names_user parse_user validate_always_true.

Definition create_options : list Option :=
  if BSD_VISIBLE then
    [option_queue; option_depth; option_size; option_block; option_mode;
     option_group; option_user]
  else
    [option_queue; option_depth; option_size; option_block; option_mode].
Definition info_options : list Option := [option_queue].
Definition unlink_options : list Option := [option_queue].
Definition recv_options : list Option := [option_single_queue].
Definition send_options : list Option := [option_queue; option_content; option_priority].

(** ** [main] *)

(** [STAILQ_FOREACH(it, head, links) body], with the running [worst]. *)
Fixpoint foreach {A : Type} (body : A -> Z -> M Z) (it : list A) (worst : Z) : M Z :=
  match it with
  | x :: next => worst <- body x worst ;; foreach body next worst
  | [] => ret worst
  end.

(** [int result = op; if (result != 0) worst = result;] *)
Definition track (op : M Z) (worst : Z) : M Z :=
  result <- op ;;
  ret (if negb (result =? 0) then result else worst).

(** The loops of the four batch verbs.  The subcommands never write the two
    lists, so the loop runs over the list as it is on entry; the globals
    [creation] and [priority] are read at each call, as in the source. *)
Definition create_all : M Z :=
  it <- get queues ;;
  foreach (fun queue => track (c <- get creation ;; create queue c)) it 0.

Definition info_all : M Z :=
  it <- get queues ;;
  foreach (fun queue => track (info queue)) it 0.

Definition send_all : M Z :=
  itq <- get queues ;;
  foreach (fun queue worst =>
             itc <- get contents ;;
             foreach (fun content =>
                        track (p <- get priority ;;
                               send queue content (to_unsigned p)))
                     itc worst)
          itq 0.

Definition rm_all : M Z :=
  it <- get queues ;;
  foreach (fun queue => track (rm queue)) it 0.

Definition recv_first : M Z :=
  l <- get queues ;; recv (hd "" l).

(** [parse_options(index, argc, argv, options); if (validate_options(options))
    body; return EINVAL;] *)
Definition run_verb (argv : list string) (options : list Option) (body : M Z) : M Z :=
  parse_options 2 argv options ;;;
  valid <- validate_options options ;;
  if valid then body else ret EINVAL.

Definition main (argv : list string) : M Z :=
  set_queues [] ;;;
  set_contents [] ;;;
  if (1 <? List.length argv)%nat then
    let verb := argv_at argv 1 in
    if streq "create" verb || streq "attr" verb then
      run_verb argv create_options create_all
    else if streq "info" verb || streq "cat" verb then
      run_verb argv info_options info_all
    else if streq "send" verb then
      run_verb argv send_options send_all
    else if streq "recv" verb || streq "receive" verb then
      run_verb argv recv_options recv_first
    else if streq "unlink" verb || streq "rm" verb then
      run_verb argv unlink_options rm_all
    else if streq "help" verb then
      usage ;;; ret 0
    else
      eprintf (ErrUnknownVerb verb) ;;; ret EINVAL
  else
    usage ;;; ret 0.

End Program.

Arguments Proc {OS}.
Arguments M {OS} A.
Arguments Option {OS}.

(** ** An in-memory queue service

    A small file system of queues, used to run the program on concrete
    command lines.  Handles and descriptors are positions in the list of
    opened names; [fstat] reports the node's mode with the FIFO type bit. *)

Module Mqfs.

Record Node := mkNode {
  n_name : string;
  n_uid : Z;
  n_gid : Z;
  n_mode : Z;
  n_maxmsg : Z;
  n_msgsize : Z;
  n_msgs : list (string * Z)
}.

Record Fs := mkFs {
  nodes : list Node;
  opened : list string
}.

Definition named (name : string) (n : Node) : bool := String.eqb (n_name n) name.

Definition lookup (name : string) (fs : Fs) : option Node :=
  find (named name) (nodes fs).

Definition update (name : string) (f : Node -> Node) (fs : Fs) : Fs :=
  mkFs (map (fun n => if named name n then f n else n) (nodes fs)) (opened fs).

Definition name_of (h : Z) (fs : Fs) : option string :=
  if h <? 0 then None else nth_error (opened fs) (Z.to_nat h).

Definition node_of (h : Z) (fs : Fs) : option Node :=
  match name_of h fs with
  | Some name => lookup name fs
  | None => None
  end.

Definition on_node {A : Type} (h : Z) (fs : Fs)
           (k : Node -> Reply A * Fs) : Reply A * Fs :=
  match node_of h fs with
  | Some n => k n
  | None => (Err EBADF, fs)
  end.

(** The file mode creation mask of the process, 022. *)
Definition umask : Z := 18.

(** A new queue gets the requested mode less the bits of the mask. *)
Definition open_ (name : string) (flags : Z) (creat : option (Z * mq_attr))
           (fs : Fs) : Reply nat * Fs :=
  match lookup name fs, creat with
  | Some _, _ => (Ok (List.length (opened fs)), mkFs (nodes fs) (opened fs ++ [name]))
  | None, Some (m, attr) =>
      if (0 <? mq_maxmsg attr) && (0 <? mq_msgsize attr) then
        (Ok (List.length (opened fs)),
         mkFs (nodes fs ++ [mkNode name 0 0 (Z.ldiff m umask) (mq_maxmsg attr)
                                   (mq_msgsize attr) []])
              (opened fs ++ [name]))
      else (Err EINVAL, fs)
  | None, None => (Err ENOENT, fs)
  end.

Definition close (h : Z) (fs : Fs) : Reply unit * Fs :=
  match name_of h fs with
  | Some _ => (Ok tt, fs)
  | None => (Err EBADF, fs)
  end.

Definition unlink (name : string) (fs : Fs) : Reply unit * Fs :=
  match lookup name fs with
  | Some _ => (Ok tt, mkFs (filter (fun n => negb (named name n)) (nodes fs)) (opened fs))
  | None => (Err ENOENT, fs)
  end.

Definition getattr (h : Z) (fs : Fs) : Reply mq_attr * Fs :=
  on_node h fs (fun n =>
    (Ok (mkAttr 0 (n_maxmsg n) (n_msgsize n) (Z.of_nat (List.length (n_msgs n)))), fs)).

Definition put (text : string) (prio : Z) (n : Node) : Node :=
  mkNode (n_name n) (n_uid n) (n_gid n) (n_mode n) (n_maxmsg n) (n_msgsize n)
         (n_msgs n ++ [(text, prio)]).

Definition send_ (h : Z) (text : string) (len prio : Z) (fs : Fs) : Reply unit * Fs :=
  on_node h fs (fun n =>
    if (len <? 0) || (n_msgsize n <? len) then (Err EMSGSIZE, fs)
    else if n_maxmsg n <=? Z.of_nat (List.length (n_msgs n)) then (Err EAGAIN, fs)
    else (Ok tt, update (n_name n) (put (substring 0 (Z.to_nat len) text) prio) fs)).

(** The oldest message of the highest priority, and the others. *)
Fixpoint take (prio : Z) (l : list (string * Z)) : option (string * Z) * list (string * Z) :=
  match l with
  | m :: rest =>
      if snd m =? prio then (Some m, rest)
      else let (r, rest') := take prio rest in (r, m :: rest')
  | [] => (None, [])
  end.

Definition top (l : list (string * Z)) : Z :=
  fold_right (fun m acc => Z.max (snd m) acc) 0 l.

(** An empty queue answers [EAGAIN], as it does on a descriptor opened with
    [O_NONBLOCK]; a blocking receive on an empty queue does not return, and
    no run below receives from an empty queue. *)
Definition receive_ (h : Z) (len : Z) (fs : Fs) : Reply (string * Z) * Fs :=
  on_node h fs (fun n =>
    if len <? n_msgsize n then (Err EMSGSIZE, fs)
    else match take (top (n_msgs n)) (n_msgs n) with
         | (Some m, rest) =>
             (Ok m, update (n_name n)
                           (fun n => mkNode (n_name n) (n_uid n) (n_gid n) (n_mode n)
                                            (n_maxmsg n) (n_msgsize n) rest) fs)
         | (None, _) => (Err EAGAIN, fs)
         end).

Definition getfd (h : Z) (fs : Fs) : Reply nat * Fs :=
  match name_of h fs with
  | Some _ => (Ok (Z.to_nat h), fs)
  | None => (Err EBADF, fs)
  end.

Definition fstat_ (fd : Z) (fs : Fs) : Reply stat * Fs :=
  on_node fd fs (fun n => (Ok (mkStat (n_uid n) (n_gid n) (Z.lor S_IFIFO (n_mode n))), fs)).

Definition fchown_ (fd uid gid : Z) (fs : Fs) : Reply unit * Fs :=
  on_node fd fs (fun n =>
    (Ok tt, update (n_name n)
                   (fun n => mkNode (n_name n) uid gid (n_mode n) (n_maxmsg n)
                                    (n_msgsize n) (n_msgs n)) fs)).

Definition fchmod_ (fd m : Z) (fs : Fs) : Reply unit * Fs :=
  on_node fd fs (fun n =>
    (Ok tt, update (n_name n)
                   (fun n => mkNode (n_name n) (n_uid n) (n_gid n) (Z.land m 4095)
                                    (n_maxmsg n) (n_msgsize n) (n_msgs n)) fs)).

Definition groups (name : string) : option Z :=
  if String.eqb name "wheel" then Some 0
  else if String.eqb name "operator" then Some 5
  else None.

Definition users (name : string) : option Z :=
  if String.eqb name "root" then Some 0
  else if String.eqb name "daemon" then Some 1
  else None.

#[export] Instance service : MqService := {
  World := Fs;
  BSD_VISIBLE := true;
  getgrnam := groups;
  getpwnam := users;
  os_mq_open := open_;
  os_mq_close := close;
  os_mq_unlink := unlink;
  os_mq_getattr := getattr;
  os_mq_send := send_;
  os_mq_receive := receive_;
  os_mq_getfd_np := getfd;
  os_fstat := fstat_;
  os_fchown := fchown_;
  os_fchmod := fchmod_
}.

(** No queue at all; and one queue [/app] of mode 0644 (420), owner 1001,
    holding messages of up to 100 bytes. *)
Definition empty : Fs := mkFs [] [].
Definition app : Fs := mkFs [mkNode "/app" 1001 1001 420 10 100 []] [].

(** The queue [/app] holding one message of priority 5. *)
Definition holding : Fs := mkFs [mkNode "/app" 1001 1001 420 10 100 [("hello", 5)]] [].

(** One queue [/tiny] whose messages hold at most 4 bytes. *)
Definition tiny : Fs := mkFs [mkNode "/tiny" 0 0 420 10 4 []] [].

(** The same file system behind a service that refuses attribute queries
    and changes of owner. *)
Definition EPERM : Z := 1.

Definition faulty : MqService := {|
  World := Fs;
  BSD_VISIBLE := true;
  getgrnam := groups;
  getpwnam := users;
  os_mq_open := open_;
  os_mq_close := close;
  os_mq_unlink := unlink;
  os_mq_getattr := fun _ fs => (Err EBADF, fs);
  os_mq_send := send_;
  os_mq_receive := receive_;
  os_mq_getfd_np := getfd;
  os_fstat := fstat_;
  os_fchown := fun _ _ _ fs => (Err EPERM, fs);
  os_fchmod := fchmod_
|}.

End Mqfs.

(** ** Vocabulary of the statements *)

Section Vocabulary.

Context {OS : MqService}.

(** [m] leaves the observation [f] of the state as it found it. *)
Definition preserves {A B : Type} (f : Proc -> B) (m : M A) : Prop :=
  forall st, f (snd (m st)) = f st.

(** The globals the parsers write and the subcommands read. *)
Definition globals (st : Proc) : Creation * list string * list string * Z :=
  (creation st, queues st, contents st, priority st).

(** What only a call on the service changes. *)
Definition outside (st : Proc) : list Call * World * Z :=
  (trace st, world st, errno st).

(** [m] only ever appends to the trace. *)
Definition extends_trace {A : Type} (m : M A) : Prop :=
  forall st, exists calls, trace (snd (m st)) = (trace st ++ calls)%list.

(** An option whose two operations never call the service. *)
Definition quiet (o : Option) : Prop :=
  (forall text, preserves outside (parse o text)) /\ preserves outside (validate o).

(** No byte of [s] is the separator. *)
Definition no_slash (s : string) : Prop := ~ In "/"%char (list_ascii_of_string s).

(** Every collected queue name passed [sane_queue]. *)
Definition all_sane (st : Proc) : Prop :=
  Forall (fun q => sane_queue_check q = Sane) (queues st).

(** The flags and the attributes [create] opens a queue with. *)
Definition open_flags (c : Creation) : Z :=
  if block c then O_RDWR else Z.lor O_RDWR O_NONBLOCK.

Definition open_attr (c : Creation) : mq_attr :=
  if block c then mkAttr 0 (depth c) (size c) 0
  else mkAttr (Z.lor 0 O_NONBLOCK) (depth c) (size c) 0.

(** What is left of [create] once a handle is held. *)
Definition reconcile (handle : Z) (q_creation : Creation) : M Z :=
  if BSD_VISIBLE then create_owner handle q_creation else mq_close handle.

(** The target a call probes: [mq_open] without [O_CREAT] and [mq_unlink]
    are the first call of every per-target operation. *)
Definition probed (c : Call) : option string :=
  match c with
  | MqOpen name _ None => Some name
  | MqUnlink name => Some name
  | _ => None
  end.

Fixpoint probes (calls : list Call) : list string :=
  match calls with
  | c :: rest =>
      match probed c with
      | Some name => name :: probes rest
      | None => probes rest
      end
  | [] => []
  end.

(** [m] appends calls to the trace, and [names] are the targets they probe. *)
Definition probing {A : Type} (names : list string) (m : M A) : Prop :=
  forall st, exists calls,
    trace (snd (m st)) = (trace st ++ calls)%list /\ probes calls = names.

(** The four batch verbs: the loop of [main], the targets it runs over (a
    queue name, and for send a payload) and what it does to one target. *)
Inductive BatchVerb := VCreate | VInfo | VSend | VUnlink.

Definition batch (v : BatchVerb) : M Z :=
  match v with
  | VCreate => create_all
  | VInfo => info_all
  | VSend => send_all
  | VUnlink => rm_all
  end.

Definition targets (v : BatchVerb) (st : Proc) : list (string * string) :=
  match v with
  | VSend => list_prod (queues st) (contents st)
  | _ => map (fun queue => (queue, "")) (queues st)
  end.

Definition attempt (v : BatchVerb) (t : string * string) : M Z :=
  match v with
  | VCreate => c <- get creation ;; create (fst t) c
  | VInfo => info (fst t)
  | VSend => p <- get priority ;; send (fst t) (snd t) (to_unsigned p)
  | VUnlink => rm (fst t)
  end.

(** The bytes a call of [mq_send] hands over: the first [len] of the buffer. *)
Definition payload (c : Call) : option string :=
  match c with
  | MqSend _ text len _ => Some (substring 0 (Z.to_nat len) text)
  | _ => None
  end.

(** The mode changes among the calls of a trace. *)
Definition is_fchmod (c : Call) : bool :=
  match c with Fchmod _ _ => true | _ => false end.

Definition mode_changes (calls : list Call) : list Call := filter is_fchmod calls.

(** The identifier [parse_unsigned] captures from a text that names no
    account. *)
Definition numeric_id (text : string) : Z :=
  let neg := fst (skip_sign (skip_space text)) in
  let v := horner 8 (leading_digits 8 (snd (skip_sign (skip_space text)))) in
  to_unsigned (if ULONG_MAX <? v then ULONG_MAX
               else if neg then (- v) mod 2 ^ 64 else v).

(** The batch verb a command word stands for, and its table. *)
Definition verb_batch (verb : string) : option BatchVerb :=
  if streq "create" verb || streq "attr" verb then Some VCreate
  else if streq "info" verb || streq "cat" verb then Some VInfo
  else if streq "send" verb then Some VSend
  else if streq "recv" verb || streq "receive" verb then None
  else if streq "unlink" verb || streq "rm" verb then Some VUnlink
  else None.

Definition batch_table (v : BatchVerb) : list Option :=
  match v with
  | VCreate => create_options
  | VInfo => info_options
  | VSend => send_options
  | VUnlink => unlink_options
  end.

(** [tok] is one of the spellings of [o]. *)
Definition spelled (tok : string) (o : Option) : Prop := In tok (pattern o).

(** Every validator of the table in turn, with all the verdicts. *)
Fixpoint run_validators (options : list Option) : M (list bool) :=
  match options with
  | o :: rest =>
      v <- validate o ;; vs <- run_validators rest ;; ret (v :: vs)
  | [] => ret []
  end.

(** Every target in turn, with all the results. *)
Fixpoint run_each {A : Type} (op : A -> M Z) (targets : list A) : M (list Z) :=
  match targets with
  | x :: rest => r <- op x ;; rs <- run_each op rest ;; ret (r :: rs)
  | [] => ret []
  end.

(** The running [worst] after a list of results. *)
Definition tally (worst : Z) (results : list Z) : Z :=
  last (filter (fun r => negb (r =? 0)) results) worst.

(** The last non-zero result, or zero. *)
Definition last_failure (results : list Z) : Z :=
  last (filter (fun r => negb (r =? 0)) results) 0.

(** The table [main] uses for a verb. *)
Definition verb_table (verb : string) : option (list Option) :=
  if streq "create" verb || streq "attr" verb then Some create_options
  else if streq "info" verb || streq "cat" verb then Some info_options
  else if streq "send" verb then Some send_options
  else if streq "recv" verb || streq "receive" verb then Some recv_options
  else if streq "unlink" verb || streq "rm" verb then Some unlink_options
  else None.

(** A command line [prog verb f1 q1 f2 q2 ...]. *)
Definition command (verb : string) (pairs : list (string * string)) : list string :=
  "posixmqcontrol" :: verb :: flat_map (fun p => [fst p; snd p]) pairs.

(** [m] appends calls to the trace, and each of them satisfies [P]. *)
Definition emitting {A : Type} (P : Call -> Prop) (m : M A) : Prop :=
  forall st, exists calls,
    trace (snd (m st)) = (trace st ++ calls)%list /\ Forall P calls.

Definition is_close (c : Call) : bool :=
  match c with MqClose _ => true | _ => false end.

(** [m] appends calls to the trace, the last of which closes [handle], and
    no other closes anything. *)
Definition closing {A : Type} (handle : Z) (m : M A) : Prop :=
  forall st, exists calls,
    trace (snd (m st)) = (trace st ++ calls ++ [MqClose handle])%list /\
    Forall (fun c => is_close c = false) calls.

(** The calls each subcommand may issue on a queue. *)
Definition info_call (queue : string) (c : Call) : Prop :=
  match c with
  | MqOpen name flags None => name = queue /\ flags = O_RDONLY
  | MqGetattr _ | MqGetfd _ | Fstat _ | MqClose _ => True
  | _ => False
  end.

Definition recv_call (queue : string) (c : Call) : Prop :=
  match c with
  | MqOpen name flags None => name = queue /\ flags = O_RDONLY
  | MqGetattr _ | MqReceive _ _ | MqClose _ => True
  | _ => False
  end.

Definition send_call (queue text : string) (prio : Z) (c : Call) : Prop :=
  match c with
  | MqOpen name flags None => name = queue /\ flags = O_WRONLY
  | MqSend _ t _ p => t = text /\ p = prio
  | MqGetattr _ | MqClose _ => True
  | _ => False
  end.

Definition create_call (queue : string) (q : Creation) (c : Call) : Prop :=
  match c with
  | MqOpen name flags None => name = queue /\ flags = open_flags q
  | MqOpen name flags (Some (m, attr)) =>
      name = queue /\ flags = Z.lor (open_flags q) O_CREAT /\
      m = mode q /\ attr = open_attr q
  | Fchown _ uid gid =>
      set_group q || set_user q = true /\
      (set_user q = true -> uid = user q) /\
      (set_group q = true -> gid = group q)
  | Fchmod _ m => set_mode q = true /\ m = mode q
  | MqGetfd _ | Fstat _ | MqClose _ => True
  | _ => False
  end.

Definition is_fchown (c : Call) : bool :=
  match c with Fchown _ _ _ => true | _ => false end.

(** The priority of a send call is one the service accepts. *)
Definition prio_ok (c : Call) : Prop :=
  match c with
  | MqSend _ _ _ p => 0 <= p < MQ_PRIO_MAX
  | _ => True
  end.

(** What the parsers keep true of the configuration. *)
Definition well_formed (st : Proc) : Prop :=
  exists_ (creation st) = false /\
  0 < mode (creation st) < 4096 /\
  (set_mode (creation st) = false -> mode (creation st) = 493) /\
  0 <= priority st < MQ_PRIO_MAX.

(** The loop [main] runs for a verb. *)
Definition verb_body (verb : string) : option (M Z) :=
  if streq "create" verb || streq "attr" verb then Some create_all
  else if streq "info" verb || streq "cat" verb then Some info_all
  else if streq "send" verb then Some send_all
  else if streq "recv" verb || streq "receive" verb then Some recv_first
  else if streq "unlink" verb || streq "rm" verb then Some rm_all
  else None.

(** One option and its value, as the scan applies them. *)
Definition apply_pair (options : list Option) (st : Proc) (p : string * string) : Proc :=
  match find_option options (fst p) with
  | Some o => snd (parse o (snd p) st)
  | None => st
  end.

(** [st'] differs from [st] at most in the configuration record, in the
    two streams and in [errno]. *)
Definition same_but_creation (st st' : Proc) : Prop :=
  queues st' = queues st /\ contents st' = contents st /\
  priority st' = priority st /\ trace st' = trace st /\ world st' = world st.

Definition is_send (c : Call) : bool :=
  match c with MqSend _ _ _ _ => true | _ => false end.

(** [st'] is [st] but for the global configuration. *)
Definition same_but_global (st st' : Proc) : Prop :=
  queues st' = queues st /\ contents st' = contents st /\
  priority st' = priority st /\ errno st' = errno st /\
  stderr st' = stderr st /\ stdout st' = stdout st /\
  trace st' = trace st /\ world st' = world st.

(** [m] neither reads nor writes the global configuration. *)
Definition blind {A : Type} (m : M A) : Prop :=
  forall st st', same_but_global st st' ->
    fst (m st') = fst (m st) /\ same_but_global (snd (m st)) (snd (m st')).

End Vocabulary.

(** * Properties *)

Section Engine.

Context {OS : MqService}.

Lemma match_pattern_In pattern tok :
  match_pattern pattern tok = true <-> In tok pattern.
Proof.
  induction pattern as [|knob rest IH]; simpl.
  - split; [discriminate | tauto].
  - unfold streq. destruct (String.eqb_spec knob tok) as [E|E].
    + split; auto.
    + rewrite IH. split; [auto | intros [H|H]; [contradiction | exact H]].
Qed.

(** [find_option] answers the first option of the table that spells [tok]. *)
Lemma find_option_first options tok o :
  find_option options tok = Some o <->
  exists before after,
    options = (before ++ o :: after)%list /\ spelled tok o /\
    Forall (fun p => ~ spelled tok p) before.
Proof.
  unfold spelled. induction options as [|p rest IH]; simpl.
  - split; [discriminate | intros (b & a & E & _)]. now destruct b.
  - destruct (match_pattern (pattern p) tok) eqn:Hm.
    + apply match_pattern_In in Hm. split.
      * intros [= <-]. now exists [], rest.
      * intros (b & a & E & Ho & Hb). destruct b as [|p' b]; simpl in E.
        -- now injection E as ->.
        -- injection E as <- _. inversion Hb; contradiction.
    + assert (Hp : ~ In tok (pattern p)).
      { rewrite <- match_pattern_In, Hm. discriminate. }
      rewrite IH. split.
      * intros (b & a & -> & Ho & Hb). exists (p :: b), a. auto.
      * intros (b & a & E & Ho & Hb). destruct b as [|p' b]; simpl in E.
        -- injection E as -> _. contradiction.
        -- injection E as <- ->. inversion Hb; subst. now exists b, a.
Qed.

Lemma find_option_none options tok :
  find_option options tok = None <-> Forall (fun p => ~ spelled tok p) options.
Proof.
  unfold spelled. induction options as [|p rest IH]; simpl.
  - split; auto.
  - destruct (match_pattern (pattern p) tok) eqn:Hm.
    + apply match_pattern_In in Hm. split; [discriminate|].
      intros H. inversion H; contradiction.
    + rewrite IH. split.
      * intros H. constructor; [|exact H].
        rewrite <- match_pattern_In, Hm. discriminate.
      * intros H. now inversion H.
Qed.

(** The four cases of one turn of the outer loop. *)
Lemma parse_options_match index argv options st o :
  (index + 1 < List.length argv)%nat ->
  find_option options (argv_at argv index) = Some o ->
  parse_options index argv options st =
  parse_options (index + 2) argv options (snd (parse o (argv_at argv (index + 1)) st)).
Proof.
  intros Hlt Hf. rewrite parse_options_equation_1.
  destruct (lt_dec (index + 1) (List.length argv)); [|lia].
  simpl. now rewrite Hf.
Qed.

Lemma parse_options_skip index argv options st :
  (index + 1 < List.length argv)%nat ->
  find_option options (argv_at argv index) = None ->
  parse_options index argv options st =
  parse_options (index + 1) argv options
                (snd (eprintf (WarnSkipping (argv_at argv index)) st)).
Proof.
  intros Hlt Hf. rewrite parse_options_equation_1.
  destruct (lt_dec (index + 1) (List.length argv)); [|lia].
  simpl. now rewrite Hf.
Qed.

Lemma parse_options_last index argv options st :
  (index + 1 = List.length argv)%nat ->
  parse_options index argv options st = eprintf (WarnSkipping (argv_at argv index)) st.
Proof.
  intros He. rewrite parse_options_equation_1.
  destruct (lt_dec (index + 1) (List.length argv)); [lia|].
  simpl. destruct (Nat.ltb_spec index (List.length argv)); [reflexivity | lia].
Qed.

Lemma parse_options_done index argv options st :
  (List.length argv <= index)%nat ->
  parse_options index argv options st = (tt, st).
Proof.
  intros He. rewrite parse_options_equation_1.
  destruct (lt_dec (index + 1) (List.length argv)); [lia|].
  simpl. destruct (Nat.ltb_spec index (List.length argv)); [lia | reflexivity].
Qed.

(** An invariant of the warnings and of the parsers of the table is an
    invariant of the whole scan. *)
Lemma parse_options_invariant (I : Proc -> Prop) argv options :
  (forall d st, I st -> I (snd (eprintf d st))) ->
  (forall o text st, In o options -> I st -> I (snd (parse o text st))) ->
  forall index st, I st -> I (snd (parse_options index argv options st)).
Proof.
  intros Hwarn Hparse index.
  remember (List.length argv - index)%nat as n eqn:Hn.
  revert index Hn. induction n as [n IH] using lt_wf_ind. intros index Hn st HI.
  destruct (lt_dec (index + 1) (List.length argv)) as [Hlt|Hge].
  - destruct (find_option options (argv_at argv index)) as [o|] eqn:Hf.
    + rewrite (parse_options_match _ _ _ _ o Hlt Hf).
      apply (IH (List.length argv - (index + 2))%nat); [lia | reflexivity |].
      apply Hparse; [|exact HI].
      apply find_option_first in Hf. destruct Hf as (b & a & -> & _).
      apply in_or_app. right. now left.
    + rewrite (parse_options_skip _ _ _ _ Hlt Hf).
      apply (IH (List.length argv - (index + 1))%nat); [lia | reflexivity |].
      now apply Hwarn.
  - destruct (Nat.eq_dec (index + 1) (List.length argv)) as [He|Hne].
    + rewrite (parse_options_last _ _ _ _ He). now apply Hwarn.
    + rewrite parse_options_done by lia. exact HI.
Qed.

(** C3: a token spelled by a descriptor is consumed with the token after it,
    which goes to the parse operation of the first such descriptor; a token no
    descriptor spells is skipped with a warning: the scan goes on one position
    further from the state in which the warning naming the token has been
    appended to the error stream and nothing else has changed; a last token
    without a successor gets the same warning and the scan ends there; past
    the end nothing happens.  The scan is a total function of the command
    line and the table. *)
Theorem parse_options_dispatch index argv options st :
  let warned :=
    mkProc (creation st) (queues st) (contents st) (priority st) (errno st)
           (stderr st ++ [WarnSkipping (argv_at argv index)]) (stdout st)
           (trace st) (world st) in
  (forall before o after,
      (index + 1 < List.length argv)%nat ->
      options = (before ++ o :: after)%list ->
      spelled (argv_at argv index) o ->
      Forall (fun p => ~ spelled (argv_at argv index) p) before ->
      parse_options index argv options st =
      parse_options (index + 2) argv options
                    (snd (parse o (argv_at argv (index + 1)) st))) /\
  ((index + 1 < List.length argv)%nat ->
   Forall (fun p => ~ spelled (argv_at argv index) p) options ->
   parse_options index argv options st =
   parse_options (index + 1) argv options warned) /\
  ((index + 1 = List.length argv)%nat ->
   parse_options index argv options st = (tt, warned)) /\
  ((List.length argv <= index)%nat ->
   parse_options index argv options st = (tt, st)).
Proof.
  intros warned. repeat split.
  - intros before o after Hlt Ho Hs Hb.
    apply parse_options_match; [exact Hlt|].
    apply find_option_first. now exists before, after.
  - intros Hlt Hn.
    rewrite parse_options_skip; [reflexivity | exact Hlt |].
    now apply find_option_none.
  - intros He. rewrite parse_options_last by exact He. reflexivity.
  - apply parse_options_done.
Qed.

End Engine.

(** ** Frame properties: who writes what *)

Section Frames.

Context {OS : MqService}.

Lemma preserves_ret {A B : Type} (f : Proc -> B) (a : A) : preserves f (ret a).
Proof. intros st. reflexivity. Qed.

Lemma preserves_bind {A A' B : Type} (f : Proc -> B) (m : M A) (k : A -> M A') :
  preserves f m -> (forall a, preserves f (k a)) -> preserves f (bind m k).
Proof.
  intros Hm Hk st. unfold bind. specialize (Hm st).
  destruct (m st) as [a st']. simpl in Hm. now rewrite Hk.
Qed.

Lemma preserves_get {A B : Type} (f : Proc -> B) (g : Proc -> A) : preserves f (get g).
Proof. intros st. reflexivity. Qed.

Lemma preserves_eprintf_globals d : preserves globals (eprintf d).
Proof. intros st. reflexivity. Qed.

Lemma preserves_printf_globals o : preserves globals (printf o).
Proof. intros st. reflexivity. Qed.

Lemma preserves_perror_globals what : preserves globals (perror what).
Proof. intros st. reflexivity. Qed.

Lemma preserves_syscall_globals {A : Type} c (os : World -> Reply A * World) :
  preserves globals (syscall c os).
Proof. intros st. unfold syscall. now destruct (os (world st)). Qed.

Lemma preserves_eprintf_outside d : preserves outside (eprintf d).
Proof. intros st. reflexivity. Qed.

Lemma preserves_upd_creation_outside f : preserves outside (upd_creation f).
Proof. intros st. reflexivity. Qed.

Lemma preserves_set_queues_outside l : preserves outside (set_queues l).
Proof. intros st. reflexivity. Qed.

Lemma preserves_set_contents_outside l : preserves outside (set_contents l).
Proof. intros st. reflexivity. Qed.

Lemma preserves_set_priority_outside p : preserves outside (set_priority p).
Proof. intros st. reflexivity. Qed.

End Frames.

Create HintDb frame.
#[export] Hint Resolve preserves_ret preserves_get preserves_eprintf_globals
  preserves_printf_globals preserves_perror_globals preserves_syscall_globals
  preserves_eprintf_outside preserves_upd_creation_outside
  preserves_set_queues_outside preserves_set_contents_outside
  preserves_set_priority_outside : frame.

(** Walks a monadic term down to the primitives. *)
Ltac frame :=
  repeat first
    [ solve [auto with frame]
    | apply preserves_bind; [|intros]
    | match goal with
      | |- preserves _ (if ?b then _ else _) => destruct b
      | |- preserves _ (match ?x with _ => _ end) => destruct x
      end ].

Section Subcommands.

Context {OS : MqService}.

Lemma mq_open_globals name flags creat : preserves globals (mq_open name flags creat).
Proof. unfold mq_open. frame. Qed.

Lemma mq_close_globals h : preserves globals (mq_close h).
Proof. unfold mq_close. frame. Qed.

Lemma abandon_globals what h : preserves globals (abandon what h).
Proof. unfold abandon. pose proof mq_close_globals. frame. Qed.

#[local] Hint Resolve mq_open_globals mq_close_globals abandon_globals : frame.

Lemma validate_size_globals : preserves globals validate_size.
Proof. unfold validate_size. frame. Qed.

Lemma validate_depth_globals : preserves globals validate_depth.
Proof. unfold validate_depth. frame. Qed.

#[local] Hint Resolve validate_size_globals validate_depth_globals : frame.

Lemma create_mode_globals h fd c s : preserves globals (create_mode h fd c s).
Proof. unfold create_mode, fchmod. frame. Qed.

#[local] Hint Resolve create_mode_globals : frame.

Lemma create_owner_globals h c : preserves globals (create_owner h c).
Proof. unfold create_owner, mq_getfd_np, fstat, fchown. frame. Qed.

#[local] Hint Resolve create_owner_globals : frame.

Lemma create_globals queue c : preserves globals (create queue c).
Proof. unfold create. cbv zeta. frame. Qed.

Lemma rm_globals queue : preserves globals (rm queue).
Proof. unfold rm, mq_unlink. frame. Qed.

Lemma info_globals queue : preserves globals (info queue).
Proof. unfold info, mq_getattr, mq_getfd_np, fstat. frame. Qed.

Lemma send_globals queue text p : preserves globals (send queue text p).
Proof. unfold send, mq_getattr, mq_send. cbv zeta. frame. Qed.

Lemma recv_globals queue : preserves globals (recv queue).
Proof. unfold recv, mq_getattr, mq_receive. frame. Qed.

(** The creation loop of [main] with the configuration read once. *)
Lemma create_loop_fixed c its : forall worst st,
  creation st = c ->
  foreach (fun queue => track (c' <- get creation ;; create queue c')) its worst st =
  foreach (fun queue => track (create queue c)) its worst st.
Proof.
  induction its as [|queue next IH]; intros worst st Hc; simpl; [reflexivity|].
  cbv [bind track get ret] in *. rewrite Hc.
  pose proof (create_globals queue c st) as Hg.
  destruct (create queue c st) as [result st']. simpl in Hg.
  apply IH. unfold globals in Hg. congruence.
Qed.

(** C10: [create] works on its own copy of the configuration: whatever it
    does to a target, the shared configuration, the two element lists and the
    priority are afterwards what they were, so in a create/attr batch every
    target is reconciled against the configuration the batch started with;
    the [exists] and [set_mode] a target's reconciliation computes never
    reach a later target. *)
Theorem create_by_value queue c st :
  creation (snd (create queue c st)) = creation st /\
  queues (snd (create queue c st)) = queues st /\
  contents (snd (create queue c st)) = contents st /\
  priority (snd (create queue c st)) = priority st /\
  create_all st =
  foreach (fun queue => track (create queue (creation st))) (queues st) 0 st.
Proof.
  pose proof (create_globals queue c st) as Hg. unfold globals in Hg.
  injection Hg as H1 H2 H3 H4. repeat split; try assumption.
  unfold create_all, bind, get. now apply create_loop_fixed.
Qed.

End Subcommands.

(** ** The validation pass of [main] *)

Section Validation.

Context {OS : MqService}.

Lemma sane_queue_outside text : preserves outside (sane_queue text).
Proof. unfold sane_queue. frame. Qed.

Lemma parse_long_outside text capture knob name :
  preserves outside (parse_long text capture knob name).
Proof. unfold parse_long. frame. Qed.

Lemma parse_unsigned_outside text set capture knob name :
  preserves outside (parse_unsigned text set capture knob name).
Proof. unfold parse_unsigned. frame. Qed.

#[local] Hint Resolve sane_queue_outside parse_long_outside parse_unsigned_outside : frame.

Lemma parse_block_outside text : preserves outside (parse_block text).
Proof. unfold parse_block. frame. Qed.

Lemma parse_content_outside text : preserves outside (parse_content text).
Proof. unfold parse_content. frame. Qed.

Lemma parse_depth_outside text : preserves outside (parse_depth text).
Proof. unfold parse_depth. frame. Qed.

Lemma parse_group_outside text : preserves outside (parse_group text).
Proof. unfold parse_group. frame. Qed.

Lemma parse_mode_outside text : preserves outside (parse_mode text).
Proof. unfold parse_mode. frame. Qed.

Lemma parse_priority_outside text : preserves outside (parse_priority text).
Proof. unfold parse_priority. frame. Qed.

Lemma parse_queue_outside text : preserves outside (parse_queue text).
Proof. unfold parse_queue. frame. Qed.

Lemma parse_single_queue_outside text : preserves outside (parse_single_queue text).
Proof. unfold parse_single_queue. frame. Qed.

Lemma parse_size_outside text : preserves outside (parse_size text).
Proof. unfold parse_size. frame. Qed.

Lemma parse_user_outside text : preserves outside (parse_user text).
Proof. unfold parse_user. frame. Qed.

Lemma validate_content_outside : preserves outside validate_content.
Proof. unfold validate_content. frame. Qed.

Lemma validate_mode_outside : preserves outside validate_mode.
Proof. unfold validate_mode. frame. Qed.

Lemma validate_queue_outside : preserves outside validate_queue.
Proof. unfold validate_queue. frame. Qed.

Lemma validate_single_queue_outside : preserves outside validate_single_queue.
Proof. unfold validate_single_queue. frame. Qed.

#[local] Hint Resolve parse_block_outside parse_content_outside parse_depth_outside
  parse_group_outside parse_mode_outside parse_priority_outside parse_queue_outside
  parse_single_queue_outside parse_size_outside parse_user_outside
  validate_content_outside validate_mode_outside validate_queue_outside
  validate_single_queue_outside : frame.

Lemma verb_table_quiet verb options :
  verb_table verb = Some options -> Forall quiet options.
Proof.
  unfold verb_table, create_options, info_options, send_options, recv_options,
    unlink_options.
  intros H.
  repeat match type of H with
         | (if ?b then _ else _) = _ => destruct b
         end;
    try discriminate; injection H as <-;
    try destruct BSD_VISIBLE;
    repeat constructor; simpl; intros; unfold validate_always_true; auto with frame.
Qed.

Lemma parse_options_outside argv options index st :
  Forall quiet options ->
  outside (snd (parse_options index argv options st)) = outside st.
Proof.
  intros Hq.
  apply (parse_options_invariant (fun s => outside s = outside st)); [| |reflexivity].
  - intros d s Hs. now rewrite preserves_eprintf_outside.
  - intros o text s Ho Hs. rewrite Forall_forall in Hq.
    destruct (Hq o Ho) as [Hp _]. now rewrite Hp.
Qed.

Lemma run_validators_outside options : forall st,
  Forall quiet options ->
  outside (snd (run_validators options st)) = outside st.
Proof.
  induction options as [|o rest IH]; intros st Hq; simpl; [reflexivity|].
  inversion Hq as [|? ? [_ Hv] Hrest]; subst.
  cbv [bind ret]. specialize (Hv st).
  destruct (validate o st) as [v st1]. simpl in Hv.
  specialize (IH st1 Hrest).
  destruct (run_validators rest st1) as [vs st2]. simpl in *. congruence.
Qed.

(** The loop of [validate_options] against the plain run of every
    validator. *)
Lemma validate_loop_run options : forall valid st,
  validate_loop options valid st =
  (valid && forallb id (fst (run_validators options st)),
   snd (run_validators options st)).
Proof.
  induction options as [|o rest IH]; intros valid st; simpl.
  - cbv [ret]. simpl. now rewrite andb_true_r.
  - cbv [bind ret]. destruct (validate o st) as [ok st1].
    rewrite IH. destruct (run_validators rest st1) as [vs st2]. simpl.
    unfold id at 1. now destruct ok, valid.
Qed.


(** [main] on a command line whose verb has a table. *)
Lemma main_verb argv w options :
  (1 < List.length argv)%nat ->
  verb_table (argv_at argv 1) = Some options ->
  exists body, main argv (initial w) = run_verb argv options body (initial w).
Proof.
  intros Hlen Ht.
  assert (E : forall k : M Z,
             (set_queues [] ;;; set_contents [] ;;; k) (initial w) = k (initial w))
    by reflexivity.
  unfold main. rewrite E. cbv zeta.
  destruct (Nat.ltb_spec 1 (List.length argv)) as [_|]; [|lia].
  unfold verb_table in Ht.
  repeat match type of Ht with
         | (if ?b then _ else _) = _ => destruct b
         end;
    try discriminate; injection Ht as <-; eexists; reflexivity.
Qed.


End Validation.

(** ** Queue names *)

Section Names.

Context {OS : MqService}.

Lemma PATH_MAX_pos : (0 < PATH_MAX)%nat.
Proof. unfold PATH_MAX. lia. Qed.

Lemma sane_queue_scan_spec queue : forall size,
  (1 <= size <= PATH_MAX)%nat ->
  sane_queue_scan queue size = Sane <->
  no_slash queue /\ (size + String.length queue <= PATH_MAX)%nat.
Proof.
  unfold no_slash.
  induction queue as [|c rest IH]; intros size Hsize; cbn [sane_queue_scan].
  - cbn. split; [intros _; split; [tauto | lia] | reflexivity].
  - cbn [String.length list_ascii_of_string In].
    destruct (Nat.ltb_spec size PATH_MAX) as [Hlt|Hge].
    + destruct (Ascii.eqb_spec c "/") as [->|Hc].
      * split; [discriminate | intros [H _]; exfalso; apply H; now left].
      * rewrite IH by lia. split.
        -- intros [H1 H2]. split; [|lia].
           intros [E|E]; [now apply Hc | now apply H1].
        -- intros [H1 H2]. split; [|lia]. intros E. apply H1. now right.
    + destruct (Nat.eqb_spec size PATH_MAX) as [_|Hne]; [|lia].
      split; [discriminate | intros [_ H]; lia].
Qed.

Lemma sane_queue_check_spec text :
  sane_queue_check text = Sane <->
  exists rest, text = String "/" rest /\ no_slash rest /\
               (String.length text <= PATH_MAX)%nat.
Proof.
  pose proof PATH_MAX_pos as Hpos.
  destruct text as [|c rest]; cbn [sane_queue_check].
  - split; [discriminate | intros (r & E & _); discriminate].
  - destruct (Ascii.eqb_spec c "/") as [->|Hc].
    + rewrite sane_queue_scan_spec by lia. cbn [String.length]. split.
      * intros [H1 H2]. exists rest. repeat split; [exact H1 | lia].
      * intros (r & E & H1 & H2). injection E as <-. split; [exact H1 | lia].
    + split; [discriminate | intros (r & E & _)]. now injection E.
Qed.

Lemma sane_queue_verdict text st :
  fst (sane_queue text st) = true <-> sane_queue_check text = Sane.
Proof.
  unfold sane_queue. destruct (sane_queue_check text); cbn; split;
    (reflexivity || discriminate).
Qed.

Lemma sane_queue_globals text : preserves globals (sane_queue text).
Proof. unfold sane_queue. frame. Qed.

(** A rejected name leaves the queue list alone, under both parsers. *)
Lemma rejected_not_appended text st :
  fst (sane_queue text st) = false ->
  queues (snd (parse_queue text st)) = queues st /\
  queues (snd (parse_single_queue text st)) = queues st.
Proof.
  intros Hr. pose proof (sane_queue_globals text st) as Hg.
  unfold parse_queue, parse_single_queue. cbv [bind ret].
  destruct (sane_queue text st) as [ok st1]. simpl in Hr, Hg. subst ok. simpl.
  unfold globals in Hg. split; congruence.
Qed.

Lemma parse_queue_all_sane text st :
  all_sane st -> all_sane (snd (parse_queue text st)).
Proof.
  unfold all_sane. intros Hs.
  pose proof (sane_queue_globals text st) as Hg.
  pose proof (sane_queue_verdict text st) as Hv.
  unfold parse_queue. cbv [bind ret get set_queues].
  destruct (sane_queue text st) as [ok st1]. simpl in Hg, Hv.
  assert (Hq : queues st1 = queues st) by (unfold globals in Hg; congruence).
  destruct ok; simpl; rewrite Hq; [|exact Hs].
  apply Forall_app. split; [exact Hs|]. constructor; [|constructor].
  now apply Hv.
Qed.

Lemma parse_single_queue_all_sane text st :
  all_sane st -> all_sane (snd (parse_single_queue text st)).
Proof.
  unfold all_sane. intros Hs.
  pose proof (sane_queue_globals text st) as Hg.
  pose proof (sane_queue_verdict text st) as Hv.
  unfold parse_single_queue. cbv [bind ret get set_queues eprintf].
  destruct (sane_queue text st) as [ok st1]. simpl in Hg, Hv.
  assert (Hq : queues st1 = queues st) by (unfold globals in Hg; congruence).
  destruct ok; simpl; [|now rewrite Hq].
  destruct (queues st1) as [|q l] eqn:E; simpl.
  - constructor; [|constructor]. now apply Hv.
  - rewrite E, Hq. exact Hs.
Qed.

Lemma upd_creation_queues f : preserves queues (upd_creation f).
Proof. intros st. reflexivity. Qed.

Lemma set_contents_queues l : preserves queues (set_contents l).
Proof. intros st. reflexivity. Qed.

Lemma set_priority_queues p : preserves queues (set_priority p).
Proof. intros st. reflexivity. Qed.

Lemma eprintf_queues d : preserves queues (eprintf d).
Proof. intros st. reflexivity. Qed.

#[local] Hint Resolve upd_creation_queues set_contents_queues set_priority_queues
  eprintf_queues : frame.

(** The parsers of the options that are not [-q]. *)
Lemma other_parsers_queues text :
  preserves queues (parse_depth text) /\ preserves queues (parse_size text) /\
  preserves queues (parse_block text) /\ preserves queues (parse_mode text) /\
  preserves queues (parse_group text) /\ preserves queues (parse_user text) /\
  preserves queues (parse_content text) /\ preserves queues (parse_priority text).
Proof.
  unfold parse_depth, parse_size, parse_long, parse_block, parse_mode, parse_group,
    parse_user, parse_unsigned, parse_content, parse_priority.
  repeat split; frame.
Qed.

Lemma validators_globals :
  preserves globals validate_always_true /\ preserves globals validate_content /\
  preserves globals validate_mode /\ preserves globals validate_queue /\
  preserves globals validate_single_queue.
Proof.
  unfold validate_always_true, validate_content, validate_mode, validate_queue,
    validate_single_queue.
  repeat split; frame.
Qed.

(** An option that keeps the list sane and whose validator writes nothing. *)
Lemma verb_table_sane verb options :
  verb_table verb = Some options ->
  Forall (fun o => (forall text st, all_sane st -> all_sane (snd (parse o text st))) /\
                   preserves globals (validate o)) options.
Proof.
  assert (Hother : forall (p : string -> M unit),
             (forall text, preserves queues (p text)) ->
             forall text st, all_sane st -> all_sane (snd (p text st))).
  { intros p Hp text st Hs. unfold all_sane. now rewrite Hp. }
  pose proof other_parsers_queues as Ho.
  pose proof validators_globals as (V1 & V2 & V3 & V4 & V5).
  unfold verb_table, create_options, info_options, send_options, recv_options,
    unlink_options.
  intros H.
  repeat match type of H with
         | (if ?b then _ else _) = _ => destruct b
         end;
    try discriminate; injection H as <-;
    try destruct BSD_VISIBLE;
    repeat (apply Forall_cons || apply Forall_nil || split);
    unfold option_queue, option_single_queue, option_depth, option_size,
      option_block, option_content, option_priority, option_mode, option_group,
      option_user;
    cbn [parse validate];
    first [ assumption
          | apply parse_queue_all_sane
          | apply parse_single_queue_all_sane
          | apply Hother; intros text; apply (Ho text) ].
Qed.

Lemma validate_loop_globals options : forall valid,
  Forall (fun o => preserves globals (validate o)) options ->
  preserves globals (validate_loop options valid).
Proof.
  induction options as [|o rest IH]; intros valid Hq; simpl.
  - apply preserves_ret.
  - inversion Hq; subst. apply preserves_bind; [assumption|].
    intros ok. now apply IH.
Qed.

Lemma foreach_preserves {A B : Type} (f : Proc -> B) (body : A -> Z -> M Z) it :
  (forall x worst, preserves f (body x worst)) ->
  forall worst, preserves f (foreach body it worst).
Proof.
  intros Hb. induction it as [|x next IH]; intros worst; simpl.
  - apply preserves_ret.
  - apply preserves_bind; [apply Hb | exact IH].
Qed.

Lemma track_preserves {B : Type} (f : Proc -> B) op worst :
  preserves f op -> preserves f (track op worst).
Proof. intros H. unfold track. frame. Qed.

(** The bodies of the five verbs write none of the globals. *)
Lemma bodies_globals :
  preserves globals create_all /\ preserves globals info_all /\
  preserves globals send_all /\ preserves globals recv_first /\
  preserves globals rm_all.
Proof.
  unfold create_all, info_all, send_all, recv_first, rm_all.
  repeat split; (apply preserves_bind; [apply preserves_get | intros it]).
  - apply foreach_preserves. intros. apply track_preserves.
    apply preserves_bind; [apply preserves_get | intros; apply create_globals].
  - apply foreach_preserves. intros. apply track_preserves, info_globals.
  - apply foreach_preserves. intros.
    apply preserves_bind; [apply preserves_get | intros itc].
    apply foreach_preserves. intros. apply track_preserves.
    apply preserves_bind; [apply preserves_get | intros; apply send_globals].
  - apply recv_globals.
  - apply foreach_preserves. intros. apply track_preserves, rm_globals.
Qed.

Lemma run_verb_all_sane argv options body st :
  Forall (fun o => (forall text st, all_sane st -> all_sane (snd (parse o text st))) /\
                   preserves globals (validate o)) options ->
  preserves globals body ->
  all_sane st -> all_sane (snd (run_verb argv options body st)).
Proof.
  intros Ho Hb Hs. unfold run_verb. cbv [bind].
  assert (Hp : all_sane (snd (parse_options 2 argv options st))).
  { apply parse_options_invariant; [intros; assumption | | exact Hs].
    intros o text s Hin. rewrite Forall_forall in Ho. now apply Ho. }
  destruct (parse_options 2 argv options st) as [[] st1]. simpl in Hp.
  assert (Hv : preserves globals (validate_options options)).
  { apply validate_loop_globals. eapply Forall_impl; [|exact Ho]. now intros o [_ H]. }
  specialize (Hv st1). destruct (validate_options options st1) as [valid st2].
  simpl in Hv.
  assert (H2 : all_sane st2).
  { unfold all_sane, globals in *. replace (queues st2) with (queues st1) by congruence.
    exact Hp. }
  destruct valid; [|exact H2].
  specialize (Hb st2). unfold all_sane, globals in *.
  replace (queues (snd (body st2))) with (queues st2) by congruence. exact H2.
Qed.

(** At the end of any run, the queue list holds sane names only. *)
Lemma main_all_sane argv w : all_sane (snd (main argv (initial w))).
Proof.
  assert (E : forall k : M Z,
             (set_queues [] ;;; set_contents [] ;;; k) (initial w) = k (initial w))
    by reflexivity.
  assert (H0 : all_sane (initial w)) by constructor.
  pose proof bodies_globals as (B1 & B2 & B3 & B4 & B5).
  unfold main. rewrite E. cbv zeta.
  destruct (1 <? List.length argv)%nat; [|exact H0].
  pose proof (verb_table_sane (argv_at argv 1)) as Ht. unfold verb_table in Ht.
  repeat match goal with
         | |- context [if ?b then run_verb _ _ _ else _] => destruct b
         end;
    try (apply run_verb_all_sane; [now apply Ht | assumption | exact H0]).
  destruct (streq "help" (argv_at argv 1)); exact H0.
Qed.

(** C7: [sane_queue] accepts exactly the names that start with the separator,
    hold no other separator and are at most [PATH_MAX] bytes long; a name it
    rejects is appended to the queue list by neither parser, and at the end
    of any run the list holds accepted names only. *)
Theorem sane_queue_iff text st :
  (fst (sane_queue text st) = true <->
   exists rest, text = String "/" rest /\ no_slash rest /\
                (String.length text <= PATH_MAX)%nat) /\
  (fst (sane_queue text st) = false ->
   queues (snd (parse_queue text st)) = queues st /\
   queues (snd (parse_single_queue text st)) = queues st) /\
  (forall argv w, all_sane (snd (main argv (initial w)))).
Proof.
  split; [|split].
  - rewrite sane_queue_verdict. apply sane_queue_check_spec.
  - apply rejected_not_appended.
  - apply main_all_sane.
Qed.

End Names.

(** ** Single-target verbs *)

Section Single.

Context {OS : MqService}.

Lemma parse_single_queue_first q st :
  sane_queue_check q = Sane -> queues st = [] ->
  parse_single_queue q st = set_queues [q] st.
Proof.
  intros Hs Hq. unfold parse_single_queue, sane_queue. rewrite Hs.
  cbv [bind ret get]. now rewrite Hq.
Qed.

Lemma parse_single_queue_extra q st :
  sane_queue_check q = Sane -> queues st <> [] ->
  parse_single_queue q st = eprintf (WarnExtraQueue q) st.
Proof.
  intros Hs Hq. unfold parse_single_queue, sane_queue. rewrite Hs.
  cbv [bind ret get]. now destruct (queues st).
Qed.

Lemma find_single_queue flag :
  In flag names_queue -> find_option recv_options flag = Some option_single_queue.
Proof.
  intros H. repeat (destruct H as [<-|H]; [reflexivity|]). destruct H.
Qed.

(** The scan of a command line made of [-q name] pairs only. *)
Lemma recv_scan pairs : forall pre st,
  Forall (fun p => In (fst p) names_queue /\ sane_queue_check (snd p) = Sane) pairs ->
  parse_options (List.length pre) (pre ++ flat_map (fun p => [fst p; snd p]) pairs)
                recv_options st =
  (tt, fold_left (fun s p => snd (parse_single_queue (snd p) s)) pairs st).
Proof.
  induction pairs as [|[flag q] rest IH]; intros pre st Hok.
  - simpl. rewrite parse_options_done; [reflexivity|].
    rewrite app_nil_r. lia.
  - inversion Hok as [|? ? [Hflag Hsane] Hrest]; subst. simpl in Hflag, Hsane.
    cbn [flat_map fst snd app fold_left].
    set (tail := flat_map (fun p => [fst p; snd p]) rest).
    assert (H0 : argv_at (pre ++ flag :: q :: tail) (List.length pre) = flag).
    { unfold argv_at. apply nth_middle. }
    assert (H1 : argv_at (pre ++ flag :: q :: tail) (List.length pre + 1) = q).
    { unfold argv_at.
      change (pre ++ flag :: q :: tail)%list with (pre ++ [flag] ++ q :: tail)%list.
      rewrite app_assoc.
      replace (List.length pre + 1)%nat with (List.length (pre ++ [flag]))
        by (rewrite length_app; reflexivity).
      apply nth_middle. }
    rewrite (parse_options_match _ _ _ _ option_single_queue).
    + rewrite H1. cbn [parse option_single_queue].
      change (pre ++ flag :: q :: tail)%list with (pre ++ [flag; q] ++ tail)%list.
      rewrite app_assoc.
      replace (List.length pre + 2)%nat with (List.length (pre ++ [flag; q]))
        by (rewrite length_app; reflexivity).
      now apply IH.
    + rewrite length_app. simpl. lia.
    + rewrite H0. now apply find_single_queue.
Qed.

(** What a run of [parse_single_queue] over sane names leaves behind. *)
Lemma single_queue_fold pairs : forall st,
  Forall (fun p => In (fst p) names_queue /\ sane_queue_check (snd p) = Sane) pairs ->
  let st' := fold_left (fun s p => snd (parse_single_queue (snd p) s)) pairs st in
  queues st' = match queues st with
               | [] => firstn 1 (map snd pairs)
               | l => l
               end /\
  stderr st' = (stderr st ++
                map WarnExtraQueue (match queues st with
                                    | [] => tl (map snd pairs)
                                    | _ => map snd pairs
                                    end))%list.
Proof.
  induction pairs as [|[flag q] rest IH]; intros st Hok; cbn [fold_left map snd].
  - simpl. destruct (queues st); now rewrite app_nil_r.
  - inversion Hok as [|? ? [_ Hsane] Hrest]; subst. simpl in Hsane.
    destruct (queues st) as [|q0 l] eqn:Hq.
    + rewrite (parse_single_queue_first _ _ Hsane Hq).
      set (st1 := snd (set_queues [q] st)).
      assert (Hq1 : queues st1 = [q]) by reflexivity.
      assert (He1 : stderr st1 = stderr st) by reflexivity.
      destruct (IH st1 Hrest) as [IH1 IH2].
      rewrite Hq1 in IH1, IH2. rewrite He1 in IH2. cbn [firstn tl].
      split; assumption.
    + assert (Hne : queues st <> []) by (rewrite Hq; discriminate).
      rewrite (parse_single_queue_extra _ _ Hsane Hne).
      set (st1 := snd (eprintf (WarnExtraQueue q) st)).
      assert (Hq1 : queues st1 = q0 :: l) by exact Hq.
      assert (He1 : stderr st1 = (stderr st ++ [WarnExtraQueue q])%list) by reflexivity.
      destruct (IH st1 Hrest) as [IH1 IH2].
      rewrite Hq1 in IH1, IH2. rewrite He1 in IH2. split; [exact IH1|].
      rewrite IH2, <- app_assoc. reflexivity.
Qed.

Lemma validate_single_queue_fails st :
  fst (validate_single_queue st) = false <->
  queues st = [] \/ (1 < List.length (queues st))%nat.
Proof.
  unfold validate_single_queue. cbv [bind ret get].
  destruct (queues st) as [|a [|b l]]; simpl.
  - split; auto.
  - split; [discriminate | intros [H|H]; [discriminate | lia]].
  - split; [right; lia | reflexivity].
Qed.

(** C5: under the single-queue option a sane name is appended only while
    the queue list is empty, and otherwise dropped with one warning; so on a
    recv command line made of [-q] options with sane names the scan leaves
    the first name alone in the list and warns once for each later name, in
    order.  The validator of the option fails exactly when the list is empty
    or holds more than one name. *)
Theorem recv_keeps_first_queue verb pairs w :
  (forall q st, sane_queue_check q = Sane -> queues st = [] ->
                parse_single_queue q st = set_queues [q] st) /\
  (forall q st, sane_queue_check q = Sane -> queues st <> [] ->
                parse_single_queue q st = eprintf (WarnExtraQueue q) st) /\
  (Forall (fun p => In (fst p) names_queue /\ sane_queue_check (snd p) = Sane) pairs ->
   let parsed := snd (parse_options 2 (command verb pairs) recv_options (initial w)) in
   queues parsed = firstn 1 (map snd pairs) /\
   stderr parsed = map WarnExtraQueue (tl (map snd pairs))) /\
  (forall st, fst (validate_single_queue st) = false <->
              queues st = [] \/ (1 < List.length (queues st))%nat).
Proof.
  split; [exact parse_single_queue_first|].
  split; [exact parse_single_queue_extra|].
  split; [|exact validate_single_queue_fails].
  intros Hok parsed.
  pose proof (recv_scan pairs ["posixmqcontrol"; verb] (initial w) Hok) as Hscan.
  destruct (single_queue_fold pairs (initial w) Hok) as [Hq He].
  subst parsed. unfold command.
  change ("posixmqcontrol" :: verb :: flat_map (fun p => [fst p; snd p]) pairs)
    with (["posixmqcontrol"; verb] ++ flat_map (fun p => [fst p; snd p]) pairs)%list.
  change 2%nat with (List.length ["posixmqcontrol"; verb]).
  rewrite Hscan. cbn [snd]. simpl in Hq, He. split; assumption.
Qed.

End Single.

(** ** The trace only grows *)

Section Traces.

Context {OS : MqService}.

Lemma extends_ret {A : Type} (a : A) : extends_trace (ret a).
Proof. intros st. exists []. simpl. now rewrite app_nil_r. Qed.

Lemma extends_bind {A B : Type} (m : M A) (k : A -> M B) :
  extends_trace m -> (forall a, extends_trace (k a)) -> extends_trace (bind m k).
Proof.
  intros Hm Hk st. unfold bind. destruct (Hm st) as [l1 H1].
  destruct (m st) as [a st1]. simpl in H1. destruct (Hk a st1) as [l2 H2].
  exists (l1 ++ l2)%list. now rewrite H2, H1, app_assoc.
Qed.

Lemma extends_get {A : Type} (g : Proc -> A) : extends_trace (get g).
Proof. intros st. exists []. simpl. now rewrite app_nil_r. Qed.

Lemma extends_eprintf d : extends_trace (eprintf d).
Proof. intros st. exists []. simpl. now rewrite app_nil_r. Qed.

Lemma extends_printf o : extends_trace (printf o).
Proof. intros st. exists []. simpl. now rewrite app_nil_r. Qed.

Lemma extends_perror what : extends_trace (perror what).
Proof. intros st. exists []. simpl. now rewrite app_nil_r. Qed.

Lemma extends_syscall {A : Type} c (os : World -> Reply A * World) :
  extends_trace (syscall c os).
Proof. intros st. exists [c]. unfold syscall. now destruct (os (world st)). Qed.

End Traces.

Create HintDb trace.
#[export] Hint Resolve extends_ret extends_get extends_eprintf extends_printf
  extends_perror extends_syscall : trace.

Ltac extend :=
  repeat first
    [ solve [auto with trace]
    | apply extends_bind; [|intros]
    | match goal with
      | |- extends_trace (if ?b then _ else _) => destruct b
      | |- extends_trace (match ?x with _ => _ end) => destruct x
      end ].

(** ** Reconciliation: the size and depth check of [create] *)

Section Reconcile.

Context {OS : MqService}.

Lemma mq_close_extends h : extends_trace (mq_close h).
Proof. unfold mq_close. extend. Qed.

Lemma abandon_extends what h : extends_trace (abandon what h).
Proof. unfold abandon. pose proof mq_close_extends. extend. Qed.

#[local] Hint Resolve mq_close_extends abandon_extends : trace.

Lemma create_mode_extends h fd c s : extends_trace (create_mode h fd c s).
Proof. unfold create_mode, fchmod. extend. Qed.

#[local] Hint Resolve create_mode_extends : trace.

Lemma create_owner_extends h c : extends_trace (create_owner h c).
Proof. unfold create_owner, mq_getfd_np, fstat, fchown. extend. Qed.

(** The calls of the last step of [create]: a mode change exactly when the
    queue existed, a mode was given and it differs from the observed mode
    under the mask of the source; then the closing call, in every case. *)
Lemma create_mode_trace h fd c s st :
  trace (snd (create_mode h fd c s st)) =
  (trace st ++
   (if exists_ c && set_mode c && negb (mode c =? Z.land (st_mode s) 0x6777)
    then [Fchmod fd (mode c); MqClose h]
    else [MqClose h]))%list.
Proof.
  unfold create_mode.
  destruct (exists_ c && set_mode c && negb (mode c =? Z.land (st_mode s) 0x6777)).
  - unfold fchmod, abandon, mq_close. cbv [bind syscall ret get perror eprintf].
    cbn [world trace].
    destruct (os_fchmod fd (mode c) (world st)) as [[[]|e] w1];
      cbn [status negb Z.eqb world trace];
      destruct (os_mq_close h w1) as [r w2]; cbn [snd trace];
      now rewrite <- app_assoc.
  - unfold mq_close. cbv [bind syscall ret].
    now destruct (os_mq_close h (world st)).
Qed.

Lemma handle_not_fail n : (Z.of_nat n =? fail) = false.
Proof. apply Z.eqb_neq. unfold fail. lia. Qed.

Lemma reconcile_extends h c : extends_trace (reconcile h c).
Proof. unfold reconcile. pose proof create_owner_extends. extend. Qed.

(** The queue is there: no validator is consulted. *)
Lemma create_present queue c st n w' :
  os_mq_open queue (open_flags c) None (world st) = (Ok n, w') ->
  create queue c st =
  reconcile (Z.of_nat n) (with_exists c true)
            (snd (mq_open queue (open_flags c) None st)).
Proof.
  intros Hp. unfold create. cbv zeta. fold (open_flags c).
  unfold bind at 1. unfold mq_open. cbv [bind syscall ret]. rewrite Hp.
  cbn [fst snd]. rewrite handle_not_fail. cbn [negb with_exists exists_].
  rewrite handle_not_fail. reflexivity.
Qed.

(** The queue is not there and both validators pass: the creating open
    follows the probe. *)
Lemma create_absent_valid queue st e w' :
  exists_ (creation st) = false ->
  os_mq_open queue (open_flags (creation st)) None (world st) = (Err e, w') ->
  (0 <? size (creation st)) && (0 <? depth (creation st)) = true ->
  exists rest,
    trace (snd (create queue (creation st) st)) =
    (trace st ++
     MqOpen queue (open_flags (creation st)) None ::
     MqOpen queue (Z.lor (open_flags (creation st)) O_CREAT)
            (Some (mode (creation st), open_attr (creation st))) :: rest)%list.
Proof.
  intros H0 Hp Hv. apply andb_prop in Hv. destruct Hv as [Hs Hd].
  unfold create. cbv zeta. fold (open_flags (creation st)).
  unfold bind at 1. unfold mq_open at 1. cbv [bind syscall ret]. rewrite Hp.
  cbn [fst snd]. change (fail =? fail) with true. cbn [negb with_exists exists_].
  unfold validate_size, validate_depth. cbv [bind get ret]. cbn [creation].
  rewrite H0, Hs. cbn [orb creation]. rewrite H0, Hd. cbn [orb andb].
  set (st1 := mkProc _ _ _ _ _ _ _ _ _).
  set (second := mq_open queue _ _).
  assert (Hsecond : exists h,
             second st1 =
             (h, snd (second st1)) /\
             trace (snd (second st1)) =
             (trace st ++
              [MqOpen queue (open_flags (creation st)) None;
               MqOpen queue (Z.lor (open_flags (creation st)) O_CREAT)
                      (Some (mode (creation st), open_attr (creation st)))])%list).
  { exists (fst (second st1)). split; [now destruct (second st1)|].
    subst second st1. unfold mq_open. cbv [bind syscall ret]. cbn [world trace].
    unfold open_attr, open_flags. cbn [mode with_set_mode with_exists].
    destruct (block (creation st));
      match goal with
      | |- context [os_mq_open ?a ?b ?c ?d] => destruct (os_mq_open a b c d)
      end; cbn [snd trace]; now rewrite <- app_assoc. }
  destruct Hsecond as (h & E & Ht). rewrite E.
  set (q2 := with_set_mode _ _).
  assert (Hrest : extends_trace
                    (if h =? fail then abandon "mq_open(create)" None
                     else if BSD_VISIBLE then create_owner h q2 else mq_close h)).
  { pose proof create_owner_extends. pose proof abandon_extends.
    pose proof mq_close_extends. extend. }
  destruct (Hrest (snd (second st1))) as [rest Hr].
  exists rest. etransitivity; [exact Hr|].
  rewrite Ht, <- app_assoc. reflexivity.
Qed.

(** The queue is not there and a validator fails: nothing follows the
    probe, whose error code is the result. *)
Lemma create_absent_invalid queue st e w' :
  exists_ (creation st) = false ->
  os_mq_open queue (open_flags (creation st)) None (world st) = (Err e, w') ->
  (0 <? size (creation st)) && (0 <? depth (creation st)) = false ->
  fst (create queue (creation st) st) = e /\
  trace (snd (create queue (creation st) st)) =
    (trace st ++ [MqOpen queue (open_flags (creation st)) None])%list /\
  world (snd (create queue (creation st) st)) = w' /\
  stderr (snd (create queue (creation st) st)) =
    (stderr st ++
     [if 0 <? size (creation st) then ErrDepthMissing else ErrSizeMissing;
      Perror "mq_open(create)" e])%list.
Proof.
  intros H0 Hp Hv.
  assert (E : create queue (creation st) st =
              (e, mkProc (creation st) (queues st) (contents st) (priority st) e
                         (stderr st ++
                          [if 0 <? size (creation st)
                           then ErrDepthMissing else ErrSizeMissing;
                           Perror "mq_open(create)" e])
                         (stdout st)
                         (trace st ++ [MqOpen queue (open_flags (creation st)) None])
                         w')).
  { unfold create. cbv zeta. fold (open_flags (creation st)).
    unfold bind at 1. unfold mq_open at 1. cbv [bind syscall ret]. rewrite Hp.
    cbn [fst snd]. change (fail =? fail) with true.
    cbn [negb with_exists exists_].
    unfold validate_size, validate_depth. cbv [bind get ret]. cbn [creation].
    rewrite H0. cbn [orb].
    destruct (0 <? size (creation st)); cbn [andb creation] in Hv |- *.
    - rewrite H0, Hv. cbn. now rewrite <- app_assoc.
    - cbn. now rewrite <- app_assoc. }
  rewrite E. cbn. auto.
Qed.

(** The steps after the opens never look at the global configuration. *)
Lemma blind_ret {A : Type} (a : A) : blind (ret a).
Proof. intros st st' H. split; [reflexivity | exact H]. Qed.

Lemma blind_bind {A B : Type} (m : M A) (k : A -> M B) :
  blind m -> (forall a, blind (k a)) -> blind (bind m k).
Proof.
  intros Hm Hk st st' H. destruct (Hm st st' H) as [E R]. unfold bind.
  destruct (m st) as [a s1], (m st') as [a' s1']. cbn [fst snd] in E, R.
  subst a'. now apply Hk.
Qed.

Lemma blind_syscall {A : Type} c (os : World -> Reply A * World) :
  blind (syscall c os).
Proof.
  intros st st' (Hq & Hc & Hp & He & Hse & Hso & Ht & Hw).
  unfold syscall, same_but_global. rewrite Hw.
  destruct (os (world st)) as [[a|e] w]; cbn; rewrite ?Hq, ?Hc, ?Hp, ?He, ?Hse, ?Hso, ?Ht;
    repeat split.
Qed.

Lemma blind_errno : blind (get errno).
Proof.
  intros st st' H. split; [|exact H].
  destruct H as (_ & _ & _ & He & _). exact He.
Qed.

Lemma blind_perror what : blind (perror what).
Proof.
  intros st st' (Hq & Hc & Hp & He & Hse & Hso & Ht & Hw).
  unfold perror, eprintf, same_but_global. cbn.
  rewrite ?Hq, ?Hc, ?Hp, ?He, ?Hse, ?Hso, ?Ht, ?Hw. repeat split.
Qed.

Ltac blindly :=
  repeat first
    [ apply blind_ret | apply blind_syscall | apply blind_errno
    | apply blind_perror
    | apply blind_bind; [|intros]
    | match goal with
      | |- blind (if ?b then _ else _) => destruct b
      | |- blind (match ?x with _ => _ end) => destruct x
      end ].

Lemma blind_mq_close h : blind (mq_close h).
Proof. unfold mq_close. blindly. Qed.

Lemma blind_abandon what h : blind (abandon what h).
Proof. unfold abandon, mq_close. blindly. Qed.

Lemma blind_create_mode h fd c s : blind (create_mode h fd c s).
Proof.
  unfold create_mode, fchmod. pose proof blind_abandon. pose proof blind_mq_close.
  blindly; auto.
Qed.

Lemma blind_reconcile h c : blind (reconcile h c).
Proof.
  unfold reconcile, create_owner, mq_getfd_np, fstat, fchown.
  pose proof blind_abandon. pose proof blind_mq_close.
  pose proof blind_create_mode.
  blindly; auto.
Qed.

(** A queue the probing open finds: the outcome is that of the
    reconciliation, and the sizes and depths of the argument and of the
    global configuration have no part in it. *)
Lemma create_present_any queue c st n w' s d s' d' :
  os_mq_open queue (open_flags c) None (world st) = (Ok n, w') ->
  let other :=
    mkProc (with_size (with_depth (creation st) d') s') (queues st) (contents st)
           (priority st) (errno st) (stderr st) (stdout st) (trace st) (world st) in
  let run := create queue (with_size (with_depth c d) s) other in
  fst run = fst (create queue c st) /\
  same_but_global (snd (create queue c st)) (snd run).
Proof.
  intros Hp other run. subst run.
  rewrite (create_present queue c st n w' Hp).
  rewrite (create_present queue (with_size (with_depth c d) s) other n w' Hp).
  change (reconcile (Z.of_nat n) (with_exists (with_size (with_depth c d) s) true))
    with (reconcile (Z.of_nat n) (with_exists c true)).
  apply blind_reconcile.
  unfold mq_open. cbv [bind syscall ret]. subst other. cbn [world].
  change (open_flags (with_size (with_depth c d) s)) with (open_flags c).
  rewrite Hp. cbn. repeat split.
Qed.

(** C2 (amended): a queue the probing open finds is reconciled and the size
    and depth have no part in it: [create] is then the reconciliation of the
    handle from the state after the probe, where no validator runs, and its
    result, both output streams, its calls, [errno] and the service are the
    same whatever the size and depth of its argument and of the global
    configuration are.  When the probe fails, the creating open is issued if
    both are positive in the global configuration, and otherwise nothing is
    issued after the probe: the failing validator's message is printed and
    the result is the probe's error code. *)
Theorem create_size_depth_check queue st :
  exists_ (creation st) = false ->
  let c := creation st in
  let probe := MqOpen queue (open_flags c) None in
  (forall n w',
      os_mq_open queue (open_flags c) None (world st) = (Ok n, w') ->
      create queue c st =
        reconcile (Z.of_nat n) (with_exists c true)
                  (mkProc c (queues st) (contents st) (priority st) (errno st)
                          (stderr st) (stdout st) (trace st ++ [probe]) w') /\
      (forall s d, create queue (with_size (with_depth c d) s) st = create queue c st) /\
      (forall s d s' d',
          let other :=
            mkProc (with_size (with_depth c d') s') (queues st) (contents st)
                   (priority st) (errno st) (stderr st) (stdout st) (trace st)
                   (world st) in
          let run := create queue (with_size (with_depth c d) s) other in
          fst run = fst (create queue c st) /\
          stderr (snd run) = stderr (snd (create queue c st)) /\
          stdout (snd run) = stdout (snd (create queue c st)) /\
          trace (snd run) = trace (snd (create queue c st)) /\
          errno (snd run) = errno (snd (create queue c st)) /\
          world (snd run) = world (snd (create queue c st)))) /\
  (forall e w',
      os_mq_open queue (open_flags c) None (world st) = (Err e, w') ->
      (0 <? size c) && (0 <? depth c) = true ->
      exists rest,
        trace (snd (create queue c st)) =
        (trace st ++
         probe :: MqOpen queue (Z.lor (open_flags c) O_CREAT)
                         (Some (mode c, open_attr c)) :: rest)%list) /\
  (forall e w',
      os_mq_open queue (open_flags c) None (world st) = (Err e, w') ->
      (0 <? size c) && (0 <? depth c) = false ->
      fst (create queue c st) = e /\
      trace (snd (create queue c st)) = (trace st ++ [probe])%list /\
      world (snd (create queue c st)) = w' /\
      stderr (snd (create queue c st)) =
        (stderr st ++
         [if 0 <? size c then ErrDepthMissing else ErrSizeMissing;
          Perror "mq_open(create)" e])%list).
Proof.
  intros H0 c probe. subst c probe. split; [|split].
  - intros n w' Hp. split; [|split].
    + rewrite (create_present queue (creation st) st n w' Hp).
      unfold mq_open. cbv [bind syscall ret]. rewrite Hp. reflexivity.
    + intros s d.
      rewrite (create_present queue (creation st) st n w' Hp).
      rewrite (create_present queue (with_size (with_depth (creation st) d) s) st n w' Hp).
      reflexivity.
    + intros s d s' d' other run.
      destruct (create_present_any queue (creation st) st n w' s d s' d' Hp)
        as (Hr & _ & _ & _ & He & Hse & Hso & Ht & Hw).
      subst run other. now repeat split.
  - intros e w'. now apply create_absent_valid.
  - intros e w'. now apply create_absent_invalid.
Qed.

End Reconcile.

(** ** Batches *)

Section Batch.

Context {OS : MqService}.

Lemma probes_app l1 l2 : probes (l1 ++ l2) = (probes l1 ++ probes l2)%list.
Proof.
  induction l1 as [|c l1 IH]; simpl; [reflexivity|].
  destruct (probed c); simpl; now rewrite IH.
Qed.

Lemma probing_ret {A : Type} (a : A) : probing [] (ret a).
Proof. intros st. exists []. simpl. now rewrite app_nil_r. Qed.

Lemma probing_bind {A B : Type} n1 n2 (m : M A) (k : A -> M B) :
  probing n1 m -> (forall a, probing n2 (k a)) -> probing (n1 ++ n2) (bind m k).
Proof.
  intros Hm Hk st. unfold bind. destruct (Hm st) as (l1 & H1 & P1).
  destruct (m st) as [a st1]. simpl in H1. destruct (Hk a st1) as (l2 & H2 & P2).
  exists (l1 ++ l2)%list. rewrite H2, H1, app_assoc, probes_app, P1, P2. auto.
Qed.

Lemma silent_bind {A B : Type} (m : M A) (k : A -> M B) :
  probing [] m -> (forall a, probing [] (k a)) -> probing [] (bind m k).
Proof. apply (probing_bind [] []). Qed.

Lemma silent_get {A : Type} (g : Proc -> A) : probing [] (get g).
Proof. intros st. exists []. simpl. now rewrite app_nil_r. Qed.

Lemma silent_eprintf d : probing [] (eprintf d).
Proof. intros st. exists []. simpl. now rewrite app_nil_r. Qed.

Lemma silent_printf o : probing [] (printf o).
Proof. intros st. exists []. simpl. now rewrite app_nil_r. Qed.

Lemma silent_perror what : probing [] (perror what).
Proof. intros st. exists []. simpl. now rewrite app_nil_r. Qed.

Lemma probing_syscall {A : Type} c (os : World -> Reply A * World) :
  probing (probes [c]) (syscall c os).
Proof. intros st. exists [c]. unfold syscall. now destruct (os (world st)). Qed.

End Batch.

Create HintDb probe.
#[export] Hint Resolve probing_ret silent_get silent_eprintf silent_printf
  silent_perror : probe.

(** For a term that probes nothing. *)
Ltac hush :=
  repeat first
    [ solve [auto with probe]
    | apply silent_bind; [|intros]
    | match goal with
      | |- probing [] (if ?b then _ else _) => destruct b
      | |- probing [] (match ?x with _ => _ end) => destruct x
      end ].

Section BatchVerbs.

Context {OS : MqService}.

Lemma silent_close h : probing [] (mq_close h).
Proof. unfold mq_close. apply silent_bind; [apply (probing_syscall (MqClose h)) | hush]. Qed.

Lemma silent_abandon what h : probing [] (abandon what h).
Proof. unfold abandon. pose proof silent_close. hush. Qed.

#[local] Hint Resolve silent_close silent_abandon : probe.

Lemma silent_getattr h a : probing [] (mq_getattr h a).
Proof. unfold mq_getattr. apply silent_bind; [apply (probing_syscall (MqGetattr h)) | hush]. Qed.

Lemma silent_getfd h : probing [] (mq_getfd_np h).
Proof. unfold mq_getfd_np. apply silent_bind; [apply (probing_syscall (MqGetfd h)) | hush]. Qed.

Lemma silent_fstat fd s : probing [] (fstat fd s).
Proof. unfold fstat. apply silent_bind; [apply (probing_syscall (Fstat fd)) | hush]. Qed.

Lemma silent_fchown fd u g : probing [] (fchown fd u g).
Proof. unfold fchown. apply silent_bind; [apply (probing_syscall (Fchown fd u g)) | hush]. Qed.

Lemma silent_fchmod fd m : probing [] (fchmod fd m).
Proof. unfold fchmod. apply silent_bind; [apply (probing_syscall (Fchmod fd m)) | hush]. Qed.

Lemma silent_send h text len prio : probing [] (mq_send h text len prio).
Proof.
  unfold mq_send.
  apply silent_bind; [apply (probing_syscall (MqSend h text len prio)) | hush].
Qed.

Lemma silent_receive h len prio : probing [] (mq_receive h len prio).
Proof.
  unfold mq_receive.
  apply silent_bind; [apply (probing_syscall (MqReceive h len)) | hush].
Qed.

Lemma silent_creating_open name flags creat :
  probing [] (mq_open name flags (Some creat)).
Proof.
  unfold mq_open.
  apply silent_bind; [apply (probing_syscall (MqOpen name flags (Some creat))) | hush].
Qed.

Lemma probing_open name flags : probing [name] (mq_open name flags None).
Proof.
  unfold mq_open.
  apply (probing_bind [name] []); [apply (probing_syscall (MqOpen name flags None))|].
  intros. hush.
Qed.

Lemma probing_unlink name : probing [name] (mq_unlink name).
Proof.
  unfold mq_unlink.
  apply (probing_bind [name] []); [apply (probing_syscall (MqUnlink name))|].
  intros. hush.
Qed.

#[local] Hint Resolve silent_getattr silent_getfd silent_fstat silent_fchown
  silent_fchmod silent_send silent_receive silent_creating_open : probe.

Lemma silent_create_mode h fd c s : probing [] (create_mode h fd c s).
Proof. unfold create_mode. hush. Qed.

#[local] Hint Resolve silent_create_mode : probe.

Lemma silent_create_owner h c : probing [] (create_owner h c).
Proof. unfold create_owner. hush. Qed.

#[local] Hint Resolve silent_create_owner : probe.

Lemma silent_validate_size : probing [] validate_size.
Proof. unfold validate_size. hush. Qed.

Lemma silent_validate_depth : probing [] validate_depth.
Proof. unfold validate_depth. hush. Qed.

#[local] Hint Resolve silent_validate_size silent_validate_depth : probe.

(** Each per-target operation probes its target once, first. *)
Lemma probing_create queue c : probing [queue] (create queue c).
Proof.
  unfold create. cbv zeta.
  apply (probing_bind [queue] []); [apply probing_open | intros handle]. hush.
Qed.

Lemma probing_info queue : probing [queue] (info queue).
Proof.
  unfold info.
  apply (probing_bind [queue] []); [apply probing_open | intros handle]. hush.
Qed.

Lemma probing_send queue text prio : probing [queue] (send queue text prio).
Proof.
  unfold send. cbv zeta.
  apply (probing_bind [queue] []); [apply probing_open | intros handle]. hush.
Qed.

Lemma probing_rm queue : probing [queue] (rm queue).
Proof.
  unfold rm.
  apply (probing_bind [queue] []); [apply probing_unlink | intros handle]. hush.
Qed.

Lemma probing_attempt v t : probing [fst t] (attempt v t).
Proof.
  destruct v; simpl.
  - apply (probing_bind [] [fst t]); [apply silent_get | intros; apply probing_create].
  - apply probing_info.
  - apply (probing_bind [] [fst t]); [apply silent_get | intros; apply probing_send].
  - apply probing_rm.
Qed.

Lemma attempt_globals v t : preserves globals (attempt v t).
Proof.
  destruct v; simpl.
  - apply preserves_bind; [apply preserves_get | intros; apply create_globals].
  - apply info_globals.
  - apply preserves_bind; [apply preserves_get | intros; apply send_globals].
  - apply rm_globals.
Qed.

End BatchVerbs.

Section BatchResults.

Context {OS : MqService}.

Lemma last_cons {A : Type} (a d : A) l : last (a :: l) d = last l a.
Proof.
  revert a d. induction l as [|b l IH]; intros a d; [reflexivity|].
  change (last (a :: b :: l) d) with (last (b :: l) d).
  now rewrite (IH b d), (IH b a).
Qed.

Lemma last_app_default {A : Type} (d : A) l1 l2 :
  last (l1 ++ l2) d = last l2 (last l1 d).
Proof.
  revert d. induction l1 as [|a l1 IH]; intros d; [reflexivity|].
  rewrite <- app_comm_cons, !last_cons. apply IH.
Qed.

Lemma tally_cons worst r results :
  tally worst (r :: results) = tally (if negb (r =? 0) then r else worst) results.
Proof.
  unfold tally. simpl. destruct (negb (r =? 0)); [apply last_cons | reflexivity].
Qed.

Lemma tally_app worst r1 r2 : tally worst (r1 ++ r2) = tally (tally worst r1) r2.
Proof. unfold tally. rewrite filter_app. apply last_app_default. Qed.

(** A loop of tracked operations against the plain run of every operation. *)
Lemma foreach_track {A B : Type} (op : B -> M Z) (f : A -> B) it :
  forall worst st,
    foreach (fun x => track (op (f x))) it worst st =
    (tally worst (fst (run_each op (map f it) st)),
     snd (run_each op (map f it) st)).
Proof.
  induction it as [|x next IH]; intros worst st; simpl; [reflexivity|].
  cbv [bind track ret] in *. destruct (op (f x) st) as [r st1].
  rewrite IH. destruct (run_each op (map f next) st1) as [rs st2].
  cbn [fst snd]. now rewrite tally_cons.
Qed.

Lemma run_each_app {A : Type} (op : A -> M Z) l1 l2 : forall st,
  run_each op (l1 ++ l2) st =
  ((fst (run_each op l1 st) ++ fst (run_each op l2 (snd (run_each op l1 st))))%list,
   snd (run_each op l2 (snd (run_each op l1 st)))).
Proof.
  induction l1 as [|x l1 IH]; intros st; simpl.
  - cbv [ret]. simpl. now destruct (run_each op l2 st).
  - cbv [bind ret] in *. destruct (op x st) as [r st1]. rewrite IH.
    destruct (run_each op l1 st1) as [r1 s1]. simpl.
    now destruct (run_each op l2 s1).
Qed.

Lemma run_each_length {A : Type} (op : A -> M Z) l : forall st,
  List.length (fst (run_each op l st)) = List.length l.
Proof.
  induction l as [|x l IH]; intros st; simpl; [reflexivity|].
  cbv [bind ret]. destruct (op x st) as [r st1]. specialize (IH st1).
  destruct (run_each op l st1). simpl in *. now rewrite IH.
Qed.

Lemma run_each_preserves {A B : Type} (f : Proc -> B) (op : A -> M Z) l :
  (forall x, preserves f (op x)) -> preserves f (run_each op l).
Proof.
  intros Hop. induction l as [|x l IH]; simpl.
  - apply preserves_ret.
  - apply preserves_bind; [apply Hop | intros r].
    apply preserves_bind; [exact IH | intros; apply preserves_ret].
Qed.

Lemma run_each_probing {A : Type} (op : A -> M Z) (name : A -> string) l :
  (forall x, probing [name x] (op x)) -> probing (map name l) (run_each op l).
Proof.
  intros Hop. induction l as [|x l IH]; simpl.
  - apply probing_ret.
  - apply (probing_bind [name x] (map name l)); [apply Hop | intros r].
    rewrite <- (app_nil_r (map name l)).
    apply probing_bind; [exact IH | intros; apply probing_ret].
Qed.

(** The nested loop of send, over the product of the two lists. *)
Lemma send_loop cs itq : forall worst st,
  contents st = cs ->
  foreach (fun queue worst =>
             itc <- get contents ;;
             foreach (fun content =>
                        track (p <- get priority ;;
                               send queue content (to_unsigned p)))
                     itc worst)
          itq worst st =
  (tally worst (fst (run_each (attempt VSend) (list_prod itq cs) st)),
   snd (run_each (attempt VSend) (list_prod itq cs) st)).
Proof.
  induction itq as [|queue next IH]; intros worst st Hc; [reflexivity|].
  cbn [foreach list_prod]. unfold bind at 1. unfold bind at 1. unfold get at 1.
  rewrite Hc.
  pose proof (foreach_track (attempt VSend) (fun content => (queue, content))
                            cs worst st) as Hinner.
  cbn [attempt fst snd] in Hinner. rewrite Hinner. clear Hinner.
  rewrite run_each_app.
  set (r1 := run_each (attempt VSend) (map (fun y => (queue, y)) cs) st).
  assert (H1 : contents (snd r1) = cs).
  { pose proof (run_each_preserves globals (attempt VSend)
                  (map (fun y => (queue, y)) cs) (attempt_globals VSend) st) as Hg.
    fold r1 in Hg. unfold globals in Hg. congruence. }
  rewrite (IH _ _ H1). cbn [fst snd]. now rewrite tally_app.
Qed.

(** The loop of each batch verb is the plain run of every target. *)
Lemma batch_run v st :
  batch v st =
  (last_failure (fst (run_each (attempt v) (targets v st) st)),
   snd (run_each (attempt v) (targets v st) st)).
Proof.
  destruct v; unfold batch, targets, last_failure.
  - unfold create_all. unfold bind at 1. unfold get at 1.
    apply (foreach_track (attempt VCreate) (fun queue => (queue, ""))).
  - unfold info_all. unfold bind at 1. unfold get at 1.
    apply (foreach_track (attempt VInfo) (fun queue => (queue, ""))).
  - unfold send_all. unfold bind at 1. unfold get at 1.
    now apply send_loop.
  - unfold rm_all. unfold bind at 1. unfold get at 1.
    apply (foreach_track (attempt VUnlink) (fun queue => (queue, ""))).
Qed.

Lemma tally_zeros results : forall worst,
  (forall j, nth j results 0 = 0) -> tally worst results = worst.
Proof.
  induction results as [|r l IH]; intros worst Hz; [reflexivity|].
  rewrite tally_cons. rewrite (Hz 0%nat : r = 0). simpl.
  apply IH. intros j. apply (Hz (S j)).
Qed.

Lemma tally_last results : forall m worst,
  (m < List.length results)%nat ->
  nth m results 0 <> 0 ->
  (forall j, (m < j)%nat -> nth j results 0 = 0) ->
  tally worst results = nth m results 0.
Proof.
  induction results as [|r l IH]; intros m worst Hm Hnz Hz; [simpl in Hm; lia|].
  rewrite tally_cons. destruct m as [|m]; simpl in *.
  - destruct (Z.eqb_spec r 0) as [E|_]; [contradiction|]. simpl.
    apply tally_zeros. intros j. apply (Hz (S j)). lia.
  - apply IH; [lia | exact Hnz |]. intros j Hj. apply (Hz (S j)). lia.
Qed.

(** With failures at [k] and at [m] only, [k < m], the last one counts. *)
Lemma last_failure_of_two results k m :
  (k < m < List.length results)%nat ->
  nth m results 0 <> 0 ->
  (forall j, j <> k -> j <> m -> nth j results 0 = 0) ->
  last_failure results = nth m results 0.
Proof.
  intros Hkm Hm Hothers. apply (tally_last results m 0); [lia | exact Hm |].
  intros j Hj. apply Hothers; lia.
Qed.

(** Once the options of a batch verb are valid, [main] returns what the
    loop of the verb returns. *)
Lemma main_runs_batch argv w v :
  (1 < List.length argv)%nat ->
  verb_batch (argv_at argv 1) = Some v ->
  let parsed := snd (parse_options 2 argv (batch_table v) (initial w)) in
  fst (validate_options (batch_table v) parsed) = true ->
  main argv (initial w) = batch v (snd (validate_options (batch_table v) parsed)).
Proof.
  intros Hlen Hv parsed Hvalid.
  assert (E : forall k : M Z,
             (set_queues [] ;;; set_contents [] ;;; k) (initial w) = k (initial w))
    by reflexivity.
  assert (Hrun : forall body,
             run_verb argv (batch_table v) body (initial w) =
             body (snd (validate_options (batch_table v) parsed))).
  { intros body. unfold run_verb. cbv [bind]. subst parsed.
    destruct (parse_options 2 argv (batch_table v) (initial w)) as [[] st1].
    cbn [snd] in *.
    destruct (validate_options (batch_table v) st1) as [valid st2].
    cbn [fst snd] in *. now subst valid. }
  unfold main. rewrite E. cbv zeta.
  destruct (Nat.ltb_spec 1 (List.length argv)) as [_|]; [|lia].
  unfold verb_batch in Hv.
  repeat match type of Hv with
         | (if ?b then _ else _) = _ => destruct b
         end;
    try discriminate; injection Hv as <-; apply Hrun.
Qed.

(** C4: the loop of each batch verb runs its per-target operation on every
    target, one after the other whatever the earlier results were: the calls
    it adds to the trace probe exactly the targets, in order; and the value
    it returns is the last non-zero result, or zero when there is none.  With
    failures at positions [k < m] only, that is the result at [m].  It is the
    value [main] returns once the options of the verb are valid. *)
Theorem batch_last_failure v st :
  let results := fst (run_each (attempt v) (targets v st) st) in
  let final := snd (run_each (attempt v) (targets v st) st) in
  batch v st = (last_failure results, final) /\
  List.length results = List.length (targets v st) /\
  (exists calls, trace final = (trace st ++ calls)%list /\
                 probes calls = map fst (targets v st)) /\
  ((forall r, In r results -> r = 0) -> last_failure results = 0) /\
  (forall k m,
      (k < m < List.length results)%nat ->
      nth k results 0 <> 0 ->
      nth m results 0 <> 0 ->
      (forall j, j <> k -> j <> m -> nth j results 0 = 0) ->
      last_failure results = nth m results 0) /\
  (forall argv w,
      (1 < List.length argv)%nat ->
      verb_batch (argv_at argv 1) = Some v ->
      fst (validate_options (batch_table v)
             (snd (parse_options 2 argv (batch_table v) (initial w)))) = true ->
      st = snd (validate_options (batch_table v)
                  (snd (parse_options 2 argv (batch_table v) (initial w)))) ->
      main argv (initial w) = batch v st).
Proof.
  intros results final.
  assert (Hmain : forall argv w,
             (1 < List.length argv)%nat ->
             verb_batch (argv_at argv 1) = Some v ->
             fst (validate_options (batch_table v)
                    (snd (parse_options 2 argv (batch_table v) (initial w)))) = true ->
             st = snd (validate_options (batch_table v)
                         (snd (parse_options 2 argv (batch_table v) (initial w)))) ->
             main argv (initial w) = batch v st).
  { intros argv w Hlen Hv Hvalid ->. now apply main_runs_batch. }
  repeat split; [| | | | | exact Hmain].
  - apply batch_run.
  - apply run_each_length.
  - apply (run_each_probing (attempt v) fst). apply probing_attempt.
  - intros Hz. unfold last_failure.
    replace (filter (fun r => negb (r =? 0)) results) with (@nil Z); [reflexivity|].
    symmetry. induction results as [|r l IH]; [reflexivity|].
    simpl. rewrite (Hz r) by now left. simpl. apply IH.
    intros r' Hr'. apply Hz. now right.
  - intros k m Hkm _ Hm Ho. now apply last_failure_of_two with (k := k).
Qed.

End BatchResults.

(** ** Sending *)

Section Sending.

Context {OS : MqService}.

Lemma to_int_small z : - 2 ^ 31 <= z <= INT_MAX -> to_int z = z.
Proof.
  unfold to_int, INT_MAX. intros H. rewrite Z.mod_small by lia. lia.
Qed.

Lemma substring_length text : forall n,
  (n <= String.length text)%nat -> String.length (substring 0 n text) = n.
Proof.
  induction text as [|c rest IH]; intros n Hn; destruct n as [|n]; simpl in *;
    try reflexivity; try lia.
  rewrite IH; [reflexivity | lia].
Qed.

(** [send] on a queue that opens and answers [mq_getattr], with a text
    longer than the queue's message size. *)
Lemma send_long queue text prio st n w1 actual w2 :
  os_mq_open queue O_WRONLY None (world st) = (Ok n, w1) ->
  os_mq_getattr (Z.of_nat n) w1 = (Ok actual, w2) ->
  0 <= mq_msgsize actual < strlen text ->
  strlen text <= INT_MAX ->
  send queue text prio st =
  (let h := Z.of_nat n in
   let cap := mq_msgsize actual in
   let warned :=
     mkProc (creation st) (queues st) (contents st) (priority st) (errno st)
            (stderr st ++ [WarnTruncating cap]) (stdout st)
            (trace st ++ [MqOpen queue O_WRONLY None; MqGetattr h]) w2 in
   (result <- mq_send h text cap prio ;;
    if negb (result =? 0) then abandon "mq_send" (Some h) else mq_close h) warned).
Proof.
  intros Hopen Hattr Hcap Hlen.
  unfold send. cbv zeta. unfold bind at 1. unfold mq_open. cbv [bind syscall ret].
  rewrite Hopen. cbn [fst snd]. rewrite handle_not_fail.
  unfold mq_getattr. cbv [bind syscall ret]. cbn [world]. rewrite Hattr.
  cbn [fst snd status]. change (negb (0 =? 0)) with false. cbv iota.
  rewrite (to_int_small (strlen text)) by (unfold strlen in *; unfold INT_MAX in *; lia).
  destruct (Z.ltb_spec (mq_msgsize actual) (strlen text)) as [_|Hge]; [|lia].
  rewrite (to_int_small (mq_msgsize actual)) by (unfold INT_MAX in *; lia).
  cbv [eprintf]. cbn. rewrite <- app_assoc. reflexivity.
Qed.

(** C8: a text longer than the queue's message size is sent as its first
    [mq_msgsize] bytes, after a warning: [send] issues one [mq_send], with
    exactly that length, and what it returns is what the service answers to
    that call and to the closing one, so it is zero when both succeed. *)
Theorem send_truncates queue text prio st n w1 actual w2 :
  os_mq_open queue O_WRONLY None (world st) = (Ok n, w1) ->
  os_mq_getattr (Z.of_nat n) w1 = (Ok actual, w2) ->
  0 <= mq_msgsize actual < strlen text ->
  strlen text <= INT_MAX ->
  let h := Z.of_nat n in
  let cap := mq_msgsize actual in
  let final := snd (send queue text prio st) in
  trace final =
    (trace st ++ [MqOpen queue O_WRONLY None; MqGetattr h;
                  MqSend h text cap prio; MqClose h])%list /\
  payload (MqSend h text cap prio) = Some (substring 0 (Z.to_nat cap) text) /\
  strlen (substring 0 (Z.to_nat cap) text) = cap /\
  (exists more, stderr final = (stderr st ++ WarnTruncating cap :: more)%list) /\
  fst (send queue text prio st) =
    match os_mq_send h text cap prio w2 with
    | (Ok _, w3) => status (fst (os_mq_close h w3))
    | (Err e, _) => e
    end /\
  (forall w3 w4,
      os_mq_send h text cap prio w2 = (Ok tt, w3) ->
      os_mq_close h w3 = (Ok tt, w4) ->
      fst (send queue text prio st) = 0 /\
      stderr final = (stderr st ++ [WarnTruncating cap])%list).
Proof.
  intros Hopen Hattr Hcap Hlen h cap final.
  assert (Hrun : forall R : Z * Proc -> Prop,
             (forall r w3,
                 os_mq_send h text cap prio w2 = (r, w3) ->
                 R (let warned :=
                      mkProc (creation st) (queues st) (contents st) (priority st)
                             (match r with Ok _ => errno st | Err e => e end)
                             (stderr st ++ [WarnTruncating cap]) (stdout st)
                             (trace st ++ [MqOpen queue O_WRONLY None; MqGetattr h] ++
                                    [MqSend h text cap prio]) w3 in
                    (if negb (status r =? 0) then abandon "mq_send" (Some h)
                     else mq_close h) warned)) ->
             R (send queue text prio st)).
  { intros R HR. rewrite (send_long queue text prio st n w1 actual w2) by assumption.
    cbv zeta. fold h cap. unfold bind at 1. unfold mq_send. cbv [bind syscall ret].
    cbn [world]. destruct (os_mq_send h text cap prio w2) as [r w3] eqn:Es.
    specialize (HR r w3 eq_refl). cbv zeta in HR. cbn [fst snd trace].
    cbn [errno creation queues contents priority stderr stdout].
    rewrite <- app_assoc. exact HR. }
  assert (Hsub : strlen (substring 0 (Z.to_nat cap) text) = cap).
  { unfold strlen in *. rewrite substring_length; lia. }
  split; [|split; [reflexivity | split; [exact Hsub|]]].
  - subst final. apply Hrun. intros r w3 Es. cbv zeta.
    destruct r as [[]|e]; cbn [status negb Z.eqb];
      unfold abandon, mq_close; cbv [bind get perror eprintf syscall ret];
      cbn [world trace errno];
      destruct (os_mq_close h w3) as [rc w4]; cbn [snd trace];
      rewrite <- !app_assoc; reflexivity.
  - split; [|split].
    + subst final. apply Hrun. intros r w3 Es. cbv zeta.
      destruct r as [[]|e]; cbn [status negb Z.eqb];
        unfold abandon, mq_close; cbv [bind get perror eprintf syscall ret];
        cbn [world trace errno stderr];
        destruct (os_mq_close h w3) as [rc w4]; cbn [snd stderr].
      * exists []. reflexivity.
      * eexists. rewrite <- app_assoc. reflexivity.
    + apply Hrun. intros r w3 Es. cbv zeta. rewrite Es.
      destruct r as [[]|e]; cbn [status negb Z.eqb];
        unfold abandon, mq_close; cbv [bind get perror eprintf syscall ret];
        cbn [world trace errno stderr];
        destruct (os_mq_close h w3) as [rc w4]; reflexivity.
    + intros w3 w4 Es Ec. subst final. apply Hrun. intros r w3' Es'.
      rewrite Es in Es'. injection Es' as <- <-. cbv zeta.
      cbn [status negb Z.eqb]. unfold mq_close. cbv [bind syscall ret].
      cbn [world]. rewrite Ec. cbn. auto.
Qed.

End Sending.

(** ** Numeric user and group identifiers *)

Section Identifiers.

Context {OS : MqService}.

Lemma nat_of_ascii_bound c : (nat_of_ascii c < 256)%nat.
Proof. apply nat_ascii_bounded. Qed.

(** The digits of base 8 are the bytes ['0'] to ['7']. *)
Lemma digit_in_octal c d :
  digit_in 8 c = Some d <->
  48 <= Z.of_nat (nat_of_ascii c) <= 55 /\ d = Z.of_nat (nat_of_ascii c) - 48.
Proof.
  unfold digit_in, digit_of. set (n := Z.of_nat (nat_of_ascii c)).
  repeat match goal with
         | |- context [Z.leb ?a ?b] => destruct (Z.leb_spec a b)
         end;
    cbn [andb];
    repeat match goal with
           | |- context [Z.ltb ?a ?b] => destruct (Z.ltb_spec a b)
           end;
    (split; [intros E | intros [Hr Hd]]);
    try discriminate; try (injection E as <-); try subst d; try lia;
    try (split; lia); try (f_equal; lia).
Qed.

Lemma accumulate_horner base s : forall acc,
  accumulate base s acc =
  fold_left (fun a d => a * base + d) (leading_digits base s) acc.
Proof.
  induction s as [|c rest IH]; intros acc; simpl; [reflexivity|].
  destruct (digit_in base c); simpl; [apply IH | reflexivity].
Qed.

Lemma starts_with_digit_leading base s :
  starts_with_digit base s = true <-> leading_digits base s <> [].
Proof.
  destruct s as [|c rest]; simpl.
  - split; [discriminate | congruence].
  - destruct (digit_in base c); split; congruence || discriminate.
Qed.

(** A text that begins with a digit of base 8 has no white space and no
    sign to skip. *)
Lemma octal_digit_first text :
  starts_with_digit 8 text = true -> skip_sign (skip_space text) = (false, text).
Proof.
  destruct text as [|c rest]; [discriminate|].
  destruct c as [[] [] [] [] [] [] [] []]; cbn; intros H;
    first [discriminate H | reflexivity].
Qed.

Lemma strtoul_octal text :
  strtoul text 8 =
  match leading_digits 8 (snd (skip_sign (skip_space text))) with
  | [] => (0, false)
  | ds =>
      let v := horner 8 ds in
      ((if ULONG_MAX <? v then ULONG_MAX
        else if fst (skip_sign (skip_space text)) then (- v) mod 2 ^ 64 else v),
       true)
  end.
Proof.
  unfold strtoul, horner. destruct (skip_sign (skip_space text)) as [neg body].
  cbn [fst snd]. rewrite accumulate_horner.
  destruct (starts_with_digit 8 body) eqn:E.
  - apply starts_with_digit_leading in E.
    destruct (leading_digits 8 body); [contradiction | reflexivity].
  - destruct (leading_digits 8 body) eqn:El; [reflexivity|].
    assert (H : starts_with_digit 8 body = true).
    { apply starts_with_digit_leading. rewrite El. discriminate. }
    congruence.
Qed.

Lemma parse_unsigned_octal text set capture knob name st :
  parse_unsigned text set capture knob name st =
  match leading_digits 8 (snd (skip_sign (skip_space text))) with
  | [] => eprintf (WarnUnsignedFormat knob name text) st
  | _ => (upd_creation (set true) ;;; upd_creation (capture (numeric_id text))) st
  end.
Proof.
  unfold parse_unsigned, numeric_id. rewrite strtoul_octal.
  destruct (leading_digits 8 (snd (skip_sign (skip_space text)))); reflexivity.
Qed.

(** C9 (amended): a [-g] or [-u] text that names no account goes through
    [strtoul] in base 8: white space and one sign are skipped, and the run
    of bytes ['0'] to ['7'] that follows is converted, so the conversion
    stops at the first 8 or 9.  If the run is empty the identifier and its
    flag stay as they are and a warning is printed; otherwise the flag is
    raised and the identifier is the value of the run, negated after a minus
    sign, saturated at [ULONG_MAX] and reduced modulo 2^32.  A text that
    begins with an octal digit has nothing to skip. *)
Theorem numeric_id_fallback text st :
  let digits := leading_digits 8 (snd (skip_sign (skip_space text))) in
  (forall c d,
      digit_in 8 c = Some d <->
      48 <= Z.of_nat (nat_of_ascii c) <= 55 /\ d = Z.of_nat (nat_of_ascii c) - 48) /\
  (starts_with_digit 8 text = true -> skip_sign (skip_space text) = (false, text)) /\
  (getgrnam text = None ->
   (digits = [] ->
    parse_group text st = eprintf (WarnUnsignedFormat "-g" "group" text) st) /\
   (digits <> [] ->
    parse_group text st =
    (upd_creation (fun c => with_set_group c true) ;;;
     upd_creation (fun c => with_group c (numeric_id text))) st)) /\
  (getpwnam text = None ->
   (digits = [] ->
    parse_user text st = eprintf (WarnUnsignedFormat "-u" "user" text) st) /\
   (digits <> [] ->
    parse_user text st =
    (upd_creation (fun c => with_set_user c true) ;;;
     upd_creation (fun c => with_user c (numeric_id text))) st)).
Proof.
  intros digits. split; [apply digit_in_octal|].
  split; [apply octal_digit_first|].
  split; intros Hn.
  - unfold parse_group. rewrite Hn, parse_unsigned_octal. fold digits.
    split; intros Hd; [now rewrite Hd|].
    destruct digits; [contradiction | reflexivity].
  - unfold parse_user. rewrite Hn, parse_unsigned_octal. fold digits.
    split; intros Hd; [now rewrite Hd|].
    destruct digits; [contradiction | reflexivity].
Qed.

End Identifiers.

(** ** What the subcommands call *)

Section Emitting.

Context {OS : MqService}.

Lemma emitting_ret {A : Type} P (a : A) : emitting P (ret a).
Proof. intros st. exists []. simpl. now rewrite app_nil_r. Qed.

Lemma emitting_bind {A B : Type} P (m : M A) (k : A -> M B) :
  emitting P m -> (forall a, emitting P (k a)) -> emitting P (bind m k).
Proof.
  intros Hm Hk st. unfold bind. destruct (Hm st) as (l1 & H1 & P1).
  destruct (m st) as [a st1]. simpl in H1. destruct (Hk a st1) as (l2 & H2 & P2).
  exists (l1 ++ l2)%list. rewrite H2, H1, app_assoc.
  split; [reflexivity | now apply Forall_app].
Qed.

Lemma emitting_get {A : Type} P (g : Proc -> A) : emitting P (get g).
Proof. intros st. exists []. simpl. now rewrite app_nil_r. Qed.

Lemma emitting_eprintf P d : emitting P (eprintf d).
Proof. intros st. exists []. simpl. now rewrite app_nil_r. Qed.

Lemma emitting_printf P o : emitting P (printf o).
Proof. intros st. exists []. simpl. now rewrite app_nil_r. Qed.

Lemma emitting_perror P what : emitting P (perror what).
Proof. intros st. exists []. simpl. now rewrite app_nil_r. Qed.

Lemma emitting_syscall {A : Type} (P : Call -> Prop) c (os : World -> Reply A * World) :
  P c -> emitting P (syscall c os).
Proof.
  intros Hc st. exists [c]. unfold syscall. destruct (os (world st)).
  split; [reflexivity | now constructor].
Qed.

Lemma emitting_weaken {A : Type} (P Q : Call -> Prop) (m : M A) :
  (forall c, P c -> Q c) -> emitting P m -> emitting Q m.
Proof.
  intros HPQ Hm st. destruct (Hm st) as (l & H & HP). exists l.
  split; [exact H | eapply Forall_impl; eauto].
Qed.

(** A term that leaves the trace alone emits whatever is asked. *)
Lemma emitting_outside {A : Type} P (m : M A) : preserves outside m -> emitting P m.
Proof.
  intros Hm st. exists []. specialize (Hm st). unfold outside in Hm.
  rewrite app_nil_r. split; [congruence | constructor].
Qed.

Lemma emitting_foreach {A : Type} P (body : A -> Z -> M Z) it :
  (forall x worst, emitting P (body x worst)) ->
  forall worst, emitting P (foreach body it worst).
Proof.
  intros Hb. induction it as [|x next IH]; intros worst; simpl.
  - apply emitting_ret.
  - apply emitting_bind; [apply Hb | exact IH].
Qed.

End Emitting.

Create HintDb emit.
#[export] Hint Resolve emitting_ret emitting_get emitting_eprintf emitting_printf
  emitting_perror : emit.

(** Walks a subcommand down to its calls; what is left is that each call
    satisfies the predicate. *)
Ltac emit :=
  repeat first
    [ solve [auto with emit]
    | apply emitting_bind; [|intros]
    | apply emitting_syscall
    | match goal with
      | |- emitting _ (if ?b then _ else _) => destruct b eqn:?
      | |- emitting _ (match ?x with _ => _ end) => destruct x eqn:?
      end ].

Section Calls.

Context {OS : MqService}.

Lemma emitting_close P h : P (MqClose h) -> emitting P (mq_close h).
Proof. intros H. unfold mq_close. emit. Qed.

Lemma emitting_abandon P what h :
  (forall x, h = Some x -> P (MqClose x)) -> emitting P (abandon what h).
Proof.
  intros H. unfold abandon, mq_close. emit; now apply H.
Qed.

(** [info], [recv] and [send] open their queue without creating it, and
    then only query, receive or send, and close; [rm] issues one call. *)
Lemma emitting_info queue : emitting (info_call queue) (info queue).
Proof.
  unfold info, mq_open, mq_getattr, mq_getfd_np, fstat, mq_close, abandon.
  emit; simpl; auto.
Qed.

Lemma emitting_recv queue : emitting (recv_call queue) (recv queue).
Proof.
  unfold recv, mq_open, mq_getattr, mq_receive, mq_close, abandon.
  emit; simpl; auto.
Qed.

Lemma emitting_send queue text prio :
  emitting (send_call queue text prio) (send queue text prio).
Proof.
  unfold send, mq_open, mq_getattr, mq_send, mq_close, abandon. cbv zeta.
  emit; simpl; auto.
Qed.

Lemma rm_trace queue st :
  trace (snd (rm queue st)) = (trace st ++ [MqUnlink queue])%list.
Proof.
  unfold rm, mq_unlink, abandon. cbv [bind syscall ret get perror eprintf].
  destruct (os_mq_unlink queue (world st)) as [[[]|e] w1]; reflexivity.
Qed.

(** X1: [info] and [recv] only read: they open their queue read-only and
    without creating it, and then only query, receive and close; [send]
    opens write-only and sends only the text and the priority it was given;
    [rm] issues the one unlink.  None of them creates a queue or changes an
    owner or a mode. *)
Theorem subcommand_calls queue text prio :
  emitting (info_call queue) (info queue) /\
  emitting (recv_call queue) (recv queue) /\
  emitting (send_call queue text prio) (send queue text prio) /\
  (forall st, trace (snd (rm queue st)) = (trace st ++ [MqUnlink queue])%list).
Proof.
  split; [apply emitting_info|].
  split; [apply emitting_recv|].
  split; [apply emitting_send | apply rm_trace].
Qed.

End Calls.

(** ** The calls of [create] *)

Section CreateCalls.

Context {OS : MqService}.

Lemma emitting_create_mode queue c0 h fd c s :
  set_mode c = set_mode c0 \/ set_mode c = false ->
  mode c = mode c0 ->
  emitting (create_call queue c0) (create_mode h fd c s).
Proof.
  intros Hs Hm. unfold create_mode, fchmod, mq_close, abandon.
  emit; simpl; auto.
  match goal with
  | H : _ && _ && _ = true |- _ =>
      apply andb_prop in H; destruct H as [H _]; apply andb_prop in H; destruct H as [_ H]
  end.
  split; [|exact Hm]. destruct Hs as [Hs|Hs]; congruence.
Qed.

Lemma emitting_create_owner queue c0 h c :
  set_mode c = set_mode c0 \/ set_mode c = false ->
  mode c = mode c0 ->
  set_user c = set_user c0 -> user c = user c0 ->
  set_group c = set_group c0 -> group c = group c0 ->
  emitting (create_call queue c0) (create_owner h c).
Proof.
  intros Hs Hm Hsu Hu Hsg Hg.
  unfold create_owner, mq_getfd_np, fstat, fchown, mq_close, abandon.
  emit; simpl; auto; try (apply emitting_create_mode; simpl; auto).
  rewrite <- Hsu, <- Hsg, <- Hu, <- Hg.
  repeat split; auto.
  - intros ->. reflexivity.
  - intros ->. reflexivity.
Qed.

Lemma emitting_bind_with {A B : Type} P (R : A -> Prop) (m : M A) (k : A -> M B) :
  emitting P m -> (forall st, R (fst (m st))) ->
  (forall a, R a -> emitting P (k a)) -> emitting P (bind m k).
Proof.
  intros Hm HR Hk st. unfold bind. destruct (Hm st) as (l1 & H1 & P1).
  specialize (HR st). destruct (m st) as [a st1]. simpl in H1, HR.
  destruct (Hk a HR st1) as (l2 & H2 & P2).
  exists (l1 ++ l2)%list. rewrite H2, H1, app_assoc.
  split; [reflexivity | now apply Forall_app].
Qed.

Lemma emitting_create queue c : emitting (create_call queue c) (create queue c).
Proof.
  unfold create. cbv zeta. fold (open_flags c).
  apply emitting_bind; [unfold mq_open; emit; simpl; auto | intros handle].
  apply (emitting_bind_with _
           (fun r => (set_mode (snd r) = set_mode c \/ set_mode (snd r) = false) /\
                     mode (snd r) = mode c /\
                     set_user (snd r) = set_user c /\ user (snd r) = user c /\
                     set_group (snd r) = set_group c /\ group (snd r) = group c)).
  - unfold validate_size, validate_depth, mq_open. emit; simpl; auto.
  - intros st. cbv [bind ret].
    destruct (negb (exists_ (with_exists c (negb (handle =? fail))))); simpl; auto 10.
    destruct (validate_size st) as [size_ok st1].
    destruct size_ok.
    + destruct (validate_depth st1) as [depth_ok st2]. destruct depth_ok; simpl.
      * destruct (mq_open queue _ _ st2). simpl. auto 10.
      * auto 10.
    + simpl. auto 10.
  - intros [h q] (Hs & Hm & Hsu & Hu & Hsg & Hg). simpl in *.
    destruct (h =? fail); [apply emitting_abandon; discriminate|].
    destruct BSD_VISIBLE; [now apply emitting_create_owner|].
    now apply emitting_close.
Qed.

(** X2: [create] probes its queue with the flags of the configuration,
    creates it only with the requested mode and attributes, changes the
    owner only when a user or a group was given, and then to the given
    values, changes the mode only when a mode was given, and to it; it never
    sends, receives, queries attributes or unlinks. *)
Theorem create_calls queue c : emitting (create_call queue c) (create queue c).
Proof. apply emitting_create. Qed.

End CreateCalls.

(** ** Mode and owner of a queue *)

Section ModeAndOwner.

Context {OS : MqService}.

Lemma mode_changes_none calls :
  Forall (fun c => is_fchmod c = false) calls -> mode_changes calls = [].
Proof.
  unfold mode_changes. induction 1 as [|c l Hc _ IH]; simpl; [reflexivity|].
  now rewrite Hc.
Qed.

Lemma create_mode_new h fd c s :
  exists_ c = false ->
  emitting (fun call => is_fchmod call = false) (create_mode h fd c s).
Proof.
  intros He. unfold create_mode. rewrite He. cbn [andb].
  now apply emitting_close.
Qed.

Lemma create_owner_new h c :
  exists_ c = false ->
  emitting (fun call => is_fchmod call = false) (create_owner h c).
Proof.
  intros He. unfold create_owner, mq_getfd_np, fstat, fchown, mq_close, abandon.
  emit; simpl; auto; now apply create_mode_new.
Qed.

(** X3: when the probing open fails, [create] issues no mode change at all,
    whatever the service answers afterwards: the mode of a queue that
    [create] has just created is never set by [fchmod], so that it is the
    one the creating open gave it, with the process mask applied. *)
Theorem new_queue_no_chmod queue c st e w' :
  os_mq_open queue (open_flags c) None (world st) = (Err e, w') ->
  mode_changes (trace (snd (create queue c st))) = mode_changes (trace st).
Proof.
  intros Hp.
  set (rest :=
         bind (size_ok <- validate_size ;;
               depth_ok <- (if size_ok then validate_depth else ret false) ;;
               if size_ok && depth_ok then
                 handle <- mq_open queue (Z.lor (open_flags c) O_CREAT)
                                   (Some (mode c, open_attr c)) ;;
                 ret (handle, with_set_mode (with_exists c false) false)
               else ret (fail, with_exists c false))
              (fun r : Z * Creation =>
                 let '(handle, q_creation) := r in
                 if handle =? fail then abandon "mq_open(create)" None
                 else if BSD_VISIBLE then create_owner handle q_creation
                      else mq_close handle)).
  assert (Hcreate : create queue c st = rest (snd (mq_open queue (open_flags c) None st))).
  { unfold create. cbv zeta. fold (open_flags c).
    unfold bind at 1. unfold mq_open at 1 3. cbv [bind syscall ret]. rewrite Hp.
    cbn [fst snd]. change (fail =? fail) with true. cbn [negb with_exists exists_].
    reflexivity. }
  assert (Hrest : emitting (fun call => is_fchmod call = false) rest).
  { subst rest.
    apply (emitting_bind_with _ (fun r => exists_ (snd r) = false)).
    - unfold validate_size, validate_depth, mq_open. emit; simpl; auto.
    - intros s0. cbv [bind ret].
      destruct (validate_size s0) as [size_ok s1]. destruct size_ok; simpl; auto.
      destruct (validate_depth s1) as [depth_ok s2]. destruct depth_ok; simpl; auto.
      now destruct (mq_open queue _ _ s2).
    - intros [h q] Hq. simpl in Hq.
      destruct (h =? fail); [apply emitting_abandon; discriminate|].
      destruct BSD_VISIBLE; [now apply create_owner_new | now apply emitting_close]. }
  rewrite Hcreate.
  destruct (Hrest (snd (mq_open queue (open_flags c) None st))) as (calls & Ht & Hc).
  rewrite Ht. unfold mq_open. cbv [bind syscall ret]. rewrite Hp. cbn [snd trace].
  unfold mode_changes. rewrite !filter_app. cbn [filter is_fchmod].
  fold (mode_changes calls). rewrite (mode_changes_none calls Hc).
  now rewrite !app_nil_r.
Qed.

(** X4: when the change of owner fails, [create] returns its error code
    after closing the handle, and the mode is not touched: the calls are the
    probe, the descriptor, the status, the change of owner and the close.
    The owner passed is the one given, or else the observed one; likewise
    the group. *)
Theorem fchown_failure_stops queue c st n w1 fd w2 s w3 e w4 :
  BSD_VISIBLE = true ->
  set_group c || set_user c = true ->
  os_mq_open queue (open_flags c) None (world st) = (Ok n, w1) ->
  os_mq_getfd_np (Z.of_nat n) w1 = (Ok fd, w2) ->
  os_fstat (Z.of_nat fd) w2 = (Ok s, w3) ->
  let uid := if set_user c then user c else st_uid s in
  let gid := if set_group c then group c else st_gid s in
  os_fchown (Z.of_nat fd) uid gid w3 = (Err e, w4) ->
  fst (create queue c st) = e /\
  trace (snd (create queue c st)) =
    (trace st ++ [MqOpen queue (open_flags c) None; MqGetfd (Z.of_nat n);
                  Fstat (Z.of_nat fd); Fchown (Z.of_nat fd) uid gid;
                  MqClose (Z.of_nat n)])%list.
Proof.
  intros Hbsd Hreq Hopen Hfd Hstat uid gid Hchown.
  assert (E : create queue c st =
              abandon "fchown(create)" (Some (Z.of_nat n))
                      (mkProc (creation st) (queues st) (contents st) (priority st) e
                              (stderr st) (stdout st)
                              (trace st ++
                               [MqOpen queue (open_flags c) None; MqGetfd (Z.of_nat n);
                                Fstat (Z.of_nat fd); Fchown (Z.of_nat fd) uid gid])
                              w4)).
  { rewrite (create_present queue c st n w1 Hopen).
    unfold reconcile. rewrite Hbsd.
    unfold mq_open. cbv [bind syscall ret]. rewrite Hopen. cbn [snd].
    unfold create_owner, mq_getfd_np. cbv [bind syscall ret]. cbn [world].
    rewrite Hfd. cbn [fst snd].
    assert (Hpos : (Z.of_nat fd <? 0) = false) by (apply Z.ltb_ge; lia).
    rewrite Hpos. unfold fstat. cbv [bind syscall ret]. cbn [world]. rewrite Hstat.
    cbn [fst snd status]. change (negb (0 =? 0)) with false. cbv iota.
    cbn [set_group set_user user group with_exists with_user with_group].
    rewrite Hreq. fold uid gid.
    unfold fchown. cbv [bind syscall ret]. cbn [world]. rewrite Hchown.
    cbn [fst snd status]. change (negb (-1 =? 0)) with true. cbv iota.
    cbn [creation queues contents priority errno stderr stdout trace world].
    now rewrite <- !app_assoc. }
  rewrite E. unfold abandon, mq_close. cbv [bind get perror eprintf syscall ret].
  cbn [errno world trace].
  destruct (os_mq_close (Z.of_nat n) w4) as [r w5]. cbn [fst snd trace].
  split; [reflexivity|]. now rewrite <- !app_assoc.
Qed.

End ModeAndOwner.

(** ** Handles *)

Section Handles.

Context {OS : MqService}.

Lemma closing_close h : closing h (mq_close h).
Proof.
  intros st. exists []. unfold mq_close. cbv [bind syscall ret].
  destruct (os_mq_close h (world st)). split; [reflexivity | constructor].
Qed.

Lemma closing_abandon what h : closing h (abandon what (Some h)).
Proof.
  intros st. exists []. unfold abandon, mq_close.
  cbv [bind get perror eprintf syscall ret]. cbn [world trace].
  destruct (os_mq_close h (world st)). split; [reflexivity | constructor].
Qed.

Lemma closing_bind {A B : Type} h (m : M A) (k : A -> M B) :
  emitting (fun c => is_close c = false) m ->
  (forall a, closing h (k a)) -> closing h (bind m k).
Proof.
  intros Hm Hk st. unfold bind. destruct (Hm st) as (l1 & H1 & P1).
  destruct (m st) as [a st1]. simpl in H1. destruct (Hk a st1) as (l2 & H2 & P2).
  exists (l1 ++ l2)%list. rewrite H2, H1, <- !app_assoc.
  split; [reflexivity | now apply Forall_app].
Qed.

End Handles.

(** Walks a term down to the close that ends it. *)
Ltac shut :=
  repeat first
    [ apply closing_close
    | apply closing_abandon
    | apply closing_bind; [emit; reflexivity | intros]
    | match goal with
      | |- closing _ (if ?b then _ else _) => destruct b
      | |- closing _ (match ?x with _ => _ end) => destruct x
      end ].

Section HandlesOfSubcommands.

Context {OS : MqService}.

Lemma closing_create_mode h fd c s : closing h (create_mode h fd c s).
Proof. unfold create_mode, fchmod. shut. Qed.

Lemma closing_create_owner h c : closing h (create_owner h c).
Proof.
  pose proof closing_create_mode.
  unfold create_owner, mq_getfd_np, fstat, fchown. shut; auto.
Qed.

Lemma closing_reconcile h c : closing h (reconcile h c).
Proof.
  unfold reconcile. destruct BSD_VISIBLE; [apply closing_create_owner | apply closing_close].
Qed.

(** What follows a successful open in [send] and in [recv]. *)
Lemma closing_send_rest h text prio :
  closing h
    ('(result, actual) <- mq_getattr h (mkAttr 0 0 0 0) ;;
     if negb (result =? 0) then abandon "mq_attr(send)" (Some h)
     else
       let size := to_int (strlen text) in
       size <- (if mq_msgsize actual <? size then
                  eprintf (WarnTruncating (mq_msgsize actual)) ;;;
                  ret (to_int (mq_msgsize actual))
                else ret size) ;;
       result <- mq_send h text size prio ;;
       if negb (result =? 0) then abandon "mq_send" (Some h)
       else mq_close h).
Proof. unfold mq_getattr, mq_send. cbv zeta. shut. Qed.

Lemma closing_recv_rest h :
  closing h
    ('(result, actual) <- mq_getattr h (mkAttr 0 0 0 0) ;;
     if negb (result =? 0) then abandon "mq_attr(recv)" (Some h)
     else
       '(received, text, priority) <- mq_receive h (mq_msgsize actual) 0 ;;
       let result := to_int received in
       if result <? 0 then abandon "mq_receive" (Some h)
       else
         printf (OutMessage priority result text) ;;;
         mq_close h).
Proof. unfold mq_getattr, mq_receive. cbv zeta. shut. Qed.

Lemma mq_open_trace name flags creat st :
  trace (snd (mq_open name flags creat st)) = (trace st ++ [MqOpen name flags creat])%list.
Proof.
  unfold mq_open. cbv [bind syscall ret].
  now destruct (os_mq_open name flags creat (world st)).
Qed.

Lemma bind_open_ok {B : Type} name flags creat (k : Z -> M B) st n w1 :
  os_mq_open name flags creat (world st) = (Ok n, w1) ->
  bind (mq_open name flags creat) k st =
  k (Z.of_nat n) (snd (mq_open name flags creat st)).
Proof.
  intros H. unfold bind at 1. unfold mq_open. cbv [bind syscall ret]. now rewrite H.
Qed.

Lemma open_ok_state name flags creat st n w1 :
  os_mq_open name flags creat (world st) = (Ok n, w1) ->
  snd (mq_open name flags creat st) =
  mkProc (creation st) (queues st) (contents st) (priority st) (errno st)
         (stderr st) (stdout st) (trace st ++ [MqOpen name flags creat]) w1.
Proof.
  intros H. unfold mq_open. cbv [bind syscall ret]. now rewrite H.
Qed.

Lemma bind_open_err {B : Type} name flags creat (k : Z -> M B) st e w1 :
  os_mq_open name flags creat (world st) = (Err e, w1) ->
  bind (mq_open name flags creat) k st =
  k fail (mkProc (creation st) (queues st) (contents st) (priority st) e
                 (stderr st) (stdout st)
                 (trace st ++ [MqOpen name flags creat]) w1).
Proof.
  intros H. unfold bind at 1. unfold mq_open. cbv [bind syscall ret]. now rewrite H.
Qed.

Lemma bind_getattr {B : Type} h a0 (k : Z * mq_attr -> M B) st r w1 :
  os_mq_getattr h (world st) = (r, w1) ->
  bind (mq_getattr h a0) k st =
  k (status r, match r with Ok a => a | Err _ => a0 end)
    (mkProc (creation st) (queues st) (contents st) (priority st)
            (match r with Ok _ => errno st | Err e => e end)
            (stderr st) (stdout st) (trace st ++ [MqGetattr h]) w1).
Proof.
  intros H. unfold bind at 1. unfold mq_getattr. cbv [bind syscall ret]. now rewrite H.
Qed.

(** The queue is not there and both validators pass: [create] goes on with
    the creating open, from the state the probe left. *)
Lemma create_made queue c st e w1 :
  os_mq_open queue (open_flags c) None (world st) = (Err e, w1) ->
  exists_ (creation st) || (0 <? size (creation st)) = true ->
  exists_ (creation st) || (0 <? depth (creation st)) = true ->
  create queue c st =
  bind (mq_open queue (Z.lor (open_flags c) O_CREAT) (Some (mode c, open_attr c)))
       (fun handle =>
          if handle =? fail then abandon "mq_open(create)" None
          else reconcile handle (with_set_mode (with_exists c false) false))
       (mkProc (creation st) (queues st) (contents st) (priority st) e
               (stderr st) (stdout st)
               (trace st ++ [MqOpen queue (open_flags c) None]) w1).
Proof.
  intros Hp Hs Hd. unfold create. cbv zeta. fold (open_flags c).
  rewrite (bind_open_err _ _ _ _ _ _ _ Hp).
  change (fail =? fail) with true. cbn [negb with_exists exists_].
  unfold validate_size, validate_depth. cbv [bind get ret]. cbn [creation].
  rewrite Hs. cbn [creation]. rewrite Hd. cbn [andb fst snd].
  unfold reconcile, open_attr, open_flags. cbn [mode with_set_mode with_exists].
  destruct (block c); cbn [mq_flags mq_maxmsg mq_msgsize mq_curmsgs];
    match goal with
    | |- context [mq_open ?a ?b ?c ?d] => destruct (mq_open a b c d) as [h s2]
    end; reflexivity.
Qed.

(** X5: [send], [recv] and [create] close the handle they obtained, once
    and as their last call, on every path: after each failure as after
    success.  For [create] the handle is the one of the probing open when the
    queue is there, and the one of the creating open when it is not; a
    [create] that obtains no handle closes nothing.  When the open fails,
    [send] and [recv] issue nothing else. *)
Theorem handles_closed queue text prio c st :
  (forall n w1,
      os_mq_open queue O_WRONLY None (world st) = (Ok n, w1) ->
      exists calls,
        trace (snd (send queue text prio st)) =
        (trace st ++ MqOpen queue O_WRONLY None :: calls ++ [MqClose (Z.of_nat n)])%list /\
        Forall (fun call => is_close call = false) calls) /\
  (forall n w1,
      os_mq_open queue O_RDONLY None (world st) = (Ok n, w1) ->
      exists calls,
        trace (snd (recv queue st)) =
        (trace st ++ MqOpen queue O_RDONLY None :: calls ++ [MqClose (Z.of_nat n)])%list /\
        Forall (fun call => is_close call = false) calls) /\
  (forall n w1,
      os_mq_open queue (open_flags c) None (world st) = (Ok n, w1) ->
      exists calls,
        trace (snd (create queue c st)) =
        (trace st ++ MqOpen queue (open_flags c) None ::
                calls ++ [MqClose (Z.of_nat n)])%list /\
        Forall (fun call => is_close call = false) calls) /\
  (forall e w1,
      os_mq_open queue O_WRONLY None (world st) = (Err e, w1) ->
      fst (send queue text prio st) = e /\
      trace (snd (send queue text prio st)) =
      (trace st ++ [MqOpen queue O_WRONLY None])%list) /\
  (forall e w1,
      os_mq_open queue O_RDONLY None (world st) = (Err e, w1) ->
      fst (recv queue st) = e /\
      trace (snd (recv queue st)) = (trace st ++ [MqOpen queue O_RDONLY None])%list) /\
  (forall e w1,
      os_mq_open queue (open_flags c) None (world st) = (Err e, w1) ->
      let probe := MqOpen queue (open_flags c) None in
      let creating :=
        MqOpen queue (Z.lor (open_flags c) O_CREAT) (Some (mode c, open_attr c)) in
      let valid :=
        (exists_ (creation st) || (0 <? size (creation st)))
        && (exists_ (creation st) || (0 <? depth (creation st))) in
      (forall n w2,
          valid = true ->
          os_mq_open queue (Z.lor (open_flags c) O_CREAT)
                     (Some (mode c, open_attr c)) w1 = (Ok n, w2) ->
          exists calls,
            trace (snd (create queue c st)) =
            (trace st ++ probe :: creating :: calls ++ [MqClose (Z.of_nat n)])%list /\
            Forall (fun call => is_close call = false) calls) /\
      (forall e2 w2,
          valid = true ->
          os_mq_open queue (Z.lor (open_flags c) O_CREAT)
                     (Some (mode c, open_attr c)) w1 = (Err e2, w2) ->
          fst (create queue c st) = e2 /\
          trace (snd (create queue c st)) = (trace st ++ [probe; creating])%list) /\
      (valid = false ->
       fst (create queue c st) = e /\
       trace (snd (create queue c st)) = (trace st ++ [probe])%list)).
Proof.
  split; [|split; [|split; [|split; [|split]]]].
  - intros n w1 Hopen. unfold send. cbv zeta.
    rewrite (bind_open_ok _ _ _ _ _ _ _ Hopen). rewrite handle_not_fail.
    destruct (closing_send_rest (Z.of_nat n) text prio
                                (snd (mq_open queue O_WRONLY None st)))
      as (calls & Ht & Hc).
    exists calls. split; [|exact Hc]. etransitivity; [exact Ht|].
    rewrite mq_open_trace. now rewrite <- app_assoc.
  - intros n w1 Hopen. unfold recv.
    rewrite (bind_open_ok _ _ _ _ _ _ _ Hopen). rewrite handle_not_fail.
    destruct (closing_recv_rest (Z.of_nat n) (snd (mq_open queue O_RDONLY None st)))
      as (calls & Ht & Hc).
    exists calls. split; [|exact Hc]. etransitivity; [exact Ht|].
    rewrite mq_open_trace. now rewrite <- app_assoc.
  - intros n w1 Hopen. rewrite (create_present queue c st n w1 Hopen).
    destruct (closing_reconcile (Z.of_nat n) (with_exists c true)
                                (snd (mq_open queue (open_flags c) None st)))
      as (calls & Ht & Hc).
    exists calls. split; [|exact Hc]. rewrite Ht.
    rewrite mq_open_trace. now rewrite <- app_assoc.
  - intros e w1 Hopen. unfold send. cbv zeta.
    rewrite (bind_open_err _ _ _ _ _ _ _ Hopen). split; reflexivity.
  - intros e w1 Hopen. unfold recv.
    rewrite (bind_open_err _ _ _ _ _ _ _ Hopen). split; reflexivity.
  - intros e w1 Hopen probe creating valid. split; [|split].
    + intros n w2 Hv Hmake. apply andb_prop in Hv. destruct Hv as [Hs Hd].
      rewrite (create_made queue c st e w1 Hopen Hs Hd).
      match goal with |- context [bind _ _ ?s] => set (s1 := s) end.
      change w1 with (world s1) in Hmake.
      rewrite (bind_open_ok _ _ _ _ _ _ _ Hmake). rewrite handle_not_fail.
      match goal with
      | |- context [reconcile ?h ?q ?s] =>
          destruct (closing_reconcile h q s) as (calls & Ht & Hc)
      end.
      exists calls. split; [|exact Hc]. etransitivity; [exact Ht|].
      rewrite mq_open_trace. subst s1. cbn [trace]. now rewrite <- !app_assoc.
    + intros e2 w2 Hv Hmake. apply andb_prop in Hv. destruct Hv as [Hs Hd].
      rewrite (create_made queue c st e w1 Hopen Hs Hd).
      match goal with |- context [bind _ _ ?s] => set (s1 := s) end.
      change w1 with (world s1) in Hmake.
      rewrite (bind_open_err _ _ _ _ _ _ _ Hmake). subst s1.
      change (fail =? fail) with true. cbv iota.
      unfold abandon. cbv [bind get perror eprintf ret]. cbn [errno trace fst snd].
      split; [reflexivity | now rewrite <- app_assoc].
    + intros Hv.
      assert (E : exists se,
                 create queue c st =
                 (e, mkProc (creation st) (queues st) (contents st) (priority st) e
                            se (stdout st) (trace st ++ [probe]) w1)).
      { unfold create. cbv zeta. fold (open_flags c).
        rewrite (bind_open_err _ _ _ _ _ _ _ Hopen).
        change (fail =? fail) with true. cbn [negb with_exists exists_].
        unfold validate_size, validate_depth. cbv [bind get ret]. cbn [creation].
        subst valid.
        destruct (exists_ (creation st) || (0 <? size (creation st)));
          cbn [andb creation] in Hv |- *.
        - rewrite Hv. cbn. eexists. reflexivity.
        - cbn. eexists. reflexivity. }
      destruct E as (se & E). rewrite E. split; reflexivity.
Qed.

(** X6: [info] is the exception: when [mq_getattr] fails it returns the
    error code without closing the handle it opened; otherwise it closes
    it as its last call. *)
Theorem info_leaves_handle_open queue st n w1 :
  os_mq_open queue O_RDONLY None (world st) = (Ok n, w1) ->
  (forall e w2,
      os_mq_getattr (Z.of_nat n) w1 = (Err e, w2) ->
      fst (info queue st) = e /\
      trace (snd (info queue st)) =
      (trace st ++ [MqOpen queue O_RDONLY None; MqGetattr (Z.of_nat n)])%list) /\
  (forall actual w2,
      os_mq_getattr (Z.of_nat n) w1 = (Ok actual, w2) ->
      exists calls,
        trace (snd (info queue st)) =
        (trace st ++ [MqOpen queue O_RDONLY None; MqGetattr (Z.of_nat n)] ++
                calls ++ [MqClose (Z.of_nat n)])%list /\
        Forall (fun call => is_close call = false) calls).
Proof.
  intros Hopen.
  assert (Hw : world (snd (mq_open queue O_RDONLY None st)) = w1).
  { unfold mq_open. cbv [bind syscall ret]. now rewrite Hopen. }
  split.
  - intros e w2 Hattr. unfold info.
    rewrite (bind_open_ok _ _ _ _ _ _ _ Hopen). rewrite handle_not_fail.
    rewrite <- Hw in Hattr. rewrite (bind_getattr _ _ _ _ _ _ Hattr).
    cbn [status]. change (negb (-1 =? 0)) with true. cbv iota.
    unfold abandon. cbv [bind get perror eprintf ret]. cbn [errno trace fst snd].
    rewrite mq_open_trace. split; [reflexivity | now rewrite <- app_assoc].
  - intros actual w2 Hattr. unfold info.
    rewrite (bind_open_ok _ _ _ _ _ _ _ Hopen). rewrite handle_not_fail.
    rewrite <- Hw in Hattr. rewrite (bind_getattr _ _ _ _ _ _ Hattr).
    cbn [status]. change (negb (0 =? 0)) with false. cbv iota.
    lazymatch goal with
    | |- exists _, trace (snd (?m ?s)) = _ /\ _ =>
        assert (Hc : closing (Z.of_nat n) m)
          by (unfold mq_getfd_np, fstat; shut);
        destruct (Hc s) as (calls & Ht & Hf)
    end.
    exists calls. split; [|exact Hf]. etransitivity; [exact Ht|].
    cbn [trace]. rewrite mq_open_trace. now rewrite <- !app_assoc.
Qed.

End HandlesOfSubcommands.

(** ** Sending a payload that fits *)

Section SendingWhole.

Context {OS : MqService}.

Lemma substring_all text : substring 0 (String.length text) text = text.
Proof. induction text as [|c rest IH]; simpl; [reflexivity | now rewrite IH]. Qed.

Lemma bind_send {B : Type} h text len prio (k : Z -> M B) st r w1 :
  os_mq_send h text len prio (world st) = (r, w1) ->
  bind (mq_send h text len prio) k st =
  k (status r)
    (mkProc (creation st) (queues st) (contents st) (priority st)
            (match r with Ok _ => errno st | Err e => e end)
            (stderr st) (stdout st) (trace st ++ [MqSend h text len prio]) w1).
Proof.
  intros H. unfold bind at 1. unfold mq_send. cbv [bind syscall ret]. now rewrite H.
Qed.

(** X7: a text no longer than the queue's message size is handed to
    [mq_send] whole, with its own length and without a warning; the calls
    are the open, the attribute query, the send and the close, and the
    result is zero when the send and the close succeed. *)
Theorem send_fits queue text prio st n w1 actual w2 :
  os_mq_open queue O_WRONLY None (world st) = (Ok n, w1) ->
  os_mq_getattr (Z.of_nat n) w1 = (Ok actual, w2) ->
  strlen text <= mq_msgsize actual ->
  strlen text <= INT_MAX ->
  let h := Z.of_nat n in
  trace (snd (send queue text prio st)) =
    (trace st ++ [MqOpen queue O_WRONLY None; MqGetattr h;
                  MqSend h text (strlen text) prio; MqClose h])%list /\
  payload (MqSend h text (strlen text) prio) = Some text /\
  (forall w3 w4,
      os_mq_send h text (strlen text) prio w2 = (Ok tt, w3) ->
      os_mq_close h w3 = (Ok tt, w4) ->
      fst (send queue text prio st) = 0 /\
      stderr (snd (send queue text prio st)) = stderr st).
Proof.
  intros Hopen Hattr Hfit Hlen h.
  assert (Hsize : to_int (strlen text) = strlen text).
  { apply to_int_small. unfold strlen, INT_MAX in *. lia. }
  assert (Hrun : forall r w3,
             os_mq_send h text (strlen text) prio w2 = (r, w3) ->
             send queue text prio st =
             (if negb (status r =? 0) then abandon "mq_send" (Some h) else mq_close h)
               (mkProc (creation st) (queues st) (contents st) (priority st)
                       (match r with Ok _ => errno st | Err e => e end)
                       (stderr st) (stdout st)
                       (trace st ++ [MqOpen queue O_WRONLY None; MqGetattr h;
                                     MqSend h text (strlen text) prio]) w3)).
  { intros r w3 Hsend. unfold send. cbv zeta.
    rewrite (bind_open_ok _ _ _ _ _ _ _ Hopen). rewrite handle_not_fail.
    rewrite (open_ok_state _ _ _ _ _ _ Hopen).
    erewrite bind_getattr by (cbn [world]; exact Hattr).
    cbn [status]. change (negb (0 =? 0)) with false. cbv iota.
    rewrite Hsize.
    destruct (Z.ltb_spec (mq_msgsize actual) (strlen text)) as [Hlt|_]; [lia|].
    unfold bind at 1. unfold ret at 1.
    fold h. erewrite bind_send by (cbn [world]; exact Hsend).
    cbn [creation queues contents priority errno stderr stdout trace].
    now rewrite <- !app_assoc. }
  split; [|split].
  - destruct (os_mq_send h text (strlen text) prio w2) as [r w3] eqn:Hsend.
    rewrite (Hrun r w3 eq_refl).
    destruct r as [[]|e]; cbn [status negb Z.eqb];
      unfold abandon, mq_close; cbv [bind get perror eprintf syscall ret];
      cbn [world trace]; destruct (os_mq_close h w3) as [rc w4]; cbn [snd trace];
      now rewrite <- !app_assoc.
  - unfold payload, strlen. now rewrite Nat2Z.id, substring_all.
  - intros w3 w4 Hsend Hclose. rewrite (Hrun _ _ Hsend).
    cbn [status negb Z.eqb]. unfold mq_close. cbv [bind syscall ret]. cbn [world].
    rewrite Hclose. split; reflexivity.
Qed.

End SendingWhole.

(** ** What the parsers write *)

Section ParsersWrite.

Context {OS : MqService}.

(** Unfolds a parser on a state given by its fields. *)
Ltac run_parser :=
  cbv [parse_depth parse_size parse_long parse_block parse_mode parse_group
       parse_user parse_unsigned parse_priority parse_content
       bind ret get upd_creation set_contents set_priority eprintf];
  repeat match goal with
         | |- context [let '(_, _) := ?x in _] => destruct x
         | |- context [match ?x with _ => _ end] => destruct x eqn:?
         end;
  cbn.

Lemma parse_depth_writes text st :
  creation (snd (parse_depth text st)) =
    with_depth (creation st) (depth (creation (snd (parse_depth text st)))) /\
  same_but_creation st (snd (parse_depth text st)).
Proof.
  unfold same_but_creation. destruct st as [[] q ct p e se so t w].
  run_parser; repeat split.
Qed.

Lemma parse_size_writes text st :
  creation (snd (parse_size text st)) =
    with_size (creation st) (size (creation (snd (parse_size text st)))) /\
  same_but_creation st (snd (parse_size text st)).
Proof.
  unfold same_but_creation. destruct st as [[] q ct p e se so t w].
  run_parser; repeat split.
Qed.

Lemma parse_block_writes text st :
  creation (snd (parse_block text st)) =
    with_block (creation st) (block (creation (snd (parse_block text st)))) /\
  same_but_creation st (snd (parse_block text st)).
Proof.
  unfold same_but_creation. destruct st as [[] q ct p e se so t w].
  run_parser; repeat split.
Qed.

Lemma parse_mode_writes text st :
  creation (snd (parse_mode text st)) =
    with_mode (with_set_mode (creation st)
                             (set_mode (creation (snd (parse_mode text st)))))
              (mode (creation (snd (parse_mode text st)))) /\
  same_but_creation st (snd (parse_mode text st)).
Proof.
  unfold same_but_creation. destruct st as [[] q ct p e se so t w].
  run_parser; repeat split.
Qed.

Lemma parse_group_writes text st :
  creation (snd (parse_group text st)) =
    with_group (with_set_group (creation st)
                               (set_group (creation (snd (parse_group text st)))))
               (group (creation (snd (parse_group text st)))) /\
  same_but_creation st (snd (parse_group text st)).
Proof.
  unfold same_but_creation. destruct st as [[] q ct p e se so t w].
  run_parser; repeat split.
Qed.

Lemma parse_user_writes text st :
  creation (snd (parse_user text st)) =
    with_user (with_set_user (creation st)
                             (set_user (creation (snd (parse_user text st)))))
              (user (creation (snd (parse_user text st)))) /\
  same_but_creation st (snd (parse_user text st)).
Proof.
  unfold same_but_creation. destruct st as [[] q ct p e se so t w].
  run_parser; repeat split.
Qed.

Lemma parse_priority_writes text st :
  creation (snd (parse_priority text st)) = creation st /\
  queues (snd (parse_priority text st)) = queues st /\
  contents (snd (parse_priority text st)) = contents st /\
  trace (snd (parse_priority text st)) = trace st /\
   world (snd (parse_priority text st)) = world st.
Proof.
  destruct st as [c q ct p e se so t w].
  run_parser; repeat split.
Qed.

Lemma parse_content_writes text st :
  contents (snd (parse_content text st)) = (contents st ++ [text])%list /\
  creation (snd (parse_content text st)) = creation st /\
  queues (snd (parse_content text st)) = queues st /\
  priority (snd (parse_content text st)) = priority st /\
  trace (snd (parse_content text st)) = trace st /\
   world (snd (parse_content text st)) = world st.
Proof. repeat split. Qed.

Lemma parse_queue_writes text st :
  queues (snd (parse_queue text st)) =
    (if fst (sane_queue text st) then queues st ++ [text] else queues st)%list /\
  creation (snd (parse_queue text st)) = creation st /\
  contents (snd (parse_queue text st)) = contents st /\
  priority (snd (parse_queue text st)) = priority st /\
  trace (snd (parse_queue text st)) = trace st /\
   world (snd (parse_queue text st)) = world st.
Proof.
  unfold parse_queue, sane_queue.
  destruct (sane_queue_check text); cbv [bind ret get set_queues eprintf]; cbn;
    repeat split.
Qed.

(** X8: each option parser writes its own part of the state and calls
    nothing of the service: the depth, size, block, mode, group and user
    parsers change at most their own field of the configuration (with its
    flag, for the last three) and leave the queue list, the contents, the
    priority, the calls made and the service as they were; the priority
    parser leaves the configuration, the queue list and the contents; the
    content parser appends its text to the contents, whatever it is; the
    queue parser appends a sane name to the queue list and drops any other.
    What the parsers leave in [errno] and on the error stream is not part of
    the statement. *)
Theorem parsers_write_own_field text st :
  (creation (snd (parse_depth text st)) =
     with_depth (creation st) (depth (creation (snd (parse_depth text st)))) /\
   same_but_creation st (snd (parse_depth text st))) /\
  (creation (snd (parse_size text st)) =
     with_size (creation st) (size (creation (snd (parse_size text st)))) /\
   same_but_creation st (snd (parse_size text st))) /\
  (creation (snd (parse_block text st)) =
     with_block (creation st) (block (creation (snd (parse_block text st)))) /\
   same_but_creation st (snd (parse_block text st))) /\
  (creation (snd (parse_mode text st)) =
     with_mode (with_set_mode (creation st)
                              (set_mode (creation (snd (parse_mode text st)))))
               (mode (creation (snd (parse_mode text st)))) /\
   same_but_creation st (snd (parse_mode text st))) /\
  (creation (snd (parse_group text st)) =
     with_group (with_set_group (creation st)
                                (set_group (creation (snd (parse_group text st)))))
                (group (creation (snd (parse_group text st)))) /\
   same_but_creation st (snd (parse_group text st))) /\
  (creation (snd (parse_user text st)) =
     with_user (with_set_user (creation st)
                              (set_user (creation (snd (parse_user text st)))))
               (user (creation (snd (parse_user text st)))) /\
   same_but_creation st (snd (parse_user text st))) /\
  (creation (snd (parse_priority text st)) = creation st /\
   queues (snd (parse_priority text st)) = queues st /\
   contents (snd (parse_priority text st)) = contents st /\
   trace (snd (parse_priority text st)) = trace st /\
   world (snd (parse_priority text st)) = world st) /\
  (contents (snd (parse_content text st)) = (contents st ++ [text])%list /\
   creation (snd (parse_content text st)) = creation st /\
   queues (snd (parse_content text st)) = queues st /\
   priority (snd (parse_content text st)) = priority st /\
   trace (snd (parse_content text st)) = trace st /\
   world (snd (parse_content text st)) = world st) /\
  (queues (snd (parse_queue text st)) =
     (if fst (sane_queue text st) then queues st ++ [text] else queues st)%list /\
   creation (snd (parse_queue text st)) = creation st /\
   contents (snd (parse_queue text st)) = contents st /\
   priority (snd (parse_queue text st)) = priority st /\
   trace (snd (parse_queue text st)) = trace st /\
   world (snd (parse_queue text st)) = world st).
Proof.
  split; [apply parse_depth_writes|].
  split; [apply parse_size_writes|].
  split; [apply parse_block_writes|].
  split; [apply parse_mode_writes|].
  split; [apply parse_group_writes|].
  split; [apply parse_user_writes|].
  split; [apply parse_priority_writes|].
  split; [apply parse_content_writes | apply parse_queue_writes].
Qed.

End ParsersWrite.

(** ** The configuration through a run *)

Section Configuration.

Context {OS : MqService}.

Lemma well_formed_globals st st' :
  globals st' = globals st -> well_formed st -> well_formed st'.
Proof.
  unfold globals, well_formed. intros H. injection H as Hc _ _ Hp.
  now rewrite Hc, Hp.
Qed.

Lemma well_formed_initial w : well_formed (initial w).
Proof.
  unfold well_formed, initial, MQ_PRIO_MAX. cbn. repeat split; try lia; try reflexivity.
Qed.

Lemma well_formed_creation st st' :
  exists_ (creation st') = exists_ (creation st) ->
  mode (creation st') = mode (creation st) ->
  set_mode (creation st') = set_mode (creation st) ->
  priority st' = priority st ->
  well_formed st -> well_formed st'.
Proof.
  unfold well_formed. intros -> -> -> ->. auto.
Qed.

Lemma parse_mode_well_formed text st :
  well_formed st -> well_formed (snd (parse_mode text st)).
Proof.
  unfold well_formed, parse_mode. destruct (strtol text 8) as [value moved].
  destruct (moved && (0 <? value) && (value <? 4096)) eqn:E; [|auto].
  apply andb_prop in E. destruct E as [E E2]. apply andb_prop in E.
  destruct E as [_ E1]. apply Z.ltb_lt in E1, E2.
  cbn. intros (H1 & _ & _ & H4). repeat split; try assumption; try lia.
Qed.

Lemma parse_priority_well_formed text st :
  well_formed st -> well_formed (snd (parse_priority text st)).
Proof.
  unfold well_formed, parse_priority. destruct (strtol text 10) as [value moved].
  destruct moved; [|auto].
  destruct ((0 <=? value) && (value <? MQ_PRIO_MAX)) eqn:E; [|auto].
  apply andb_prop in E. destruct E as [E1 E2].
  apply Z.leb_le in E1. apply Z.ltb_lt in E2.
  cbn. intros (H1 & H2 & H3 & _). repeat split; try assumption; lia.
Qed.

Lemma parse_single_queue_keeps text st :
  creation (snd (parse_single_queue text st)) = creation st /\
  priority (snd (parse_single_queue text st)) = priority st.
Proof.
  unfold parse_single_queue, sane_queue.
  destruct (sane_queue_check text); cbv [bind ret get set_queues eprintf]; cbn;
    try (split; reflexivity).
  destruct (queues st); split; reflexivity.
Qed.

(** The parsers that write neither the mode nor the priority. *)
Lemma other_parsers_well_formed text st :
  well_formed st ->
  well_formed (snd (parse_depth text st)) /\ well_formed (snd (parse_size text st)) /\
  well_formed (snd (parse_block text st)) /\ well_formed (snd (parse_group text st)) /\
  well_formed (snd (parse_user text st)) /\ well_formed (snd (parse_content text st)) /\
  well_formed (snd (parse_queue text st)) /\
  well_formed (snd (parse_single_queue text st)).
Proof.
  intros H.
  destruct (parse_depth_writes text st) as (D & _ & _ & Dp & _).
  destruct (parse_size_writes text st) as (S & _ & _ & Sp & _).
  destruct (parse_block_writes text st) as (B & _ & _ & Bp & _).
  destruct (parse_group_writes text st) as (G & _ & _ & Gp & _).
  destruct (parse_user_writes text st) as (U & _ & _ & Up & _).
  destruct (parse_queue_writes text st) as (_ & Q & _ & Qp & _).
  destruct (parse_single_queue_keeps text st) as (Q1 & Q1p).
  assert (A1 : well_formed (snd (parse_depth text st)))
    by (apply (well_formed_creation st); try exact Dp; try exact H; now rewrite D).
  assert (A2 : well_formed (snd (parse_size text st)))
    by (apply (well_formed_creation st); try exact Sp; try exact H; now rewrite S).
  assert (A3 : well_formed (snd (parse_block text st)))
    by (apply (well_formed_creation st); try exact Bp; try exact H; now rewrite B).
  assert (A4 : well_formed (snd (parse_group text st)))
    by (apply (well_formed_creation st); try exact Gp; try exact H; now rewrite G).
  assert (A5 : well_formed (snd (parse_user text st)))
    by (apply (well_formed_creation st); try exact Up; try exact H; now rewrite U).
  assert (A7 : well_formed (snd (parse_queue text st)))
    by (apply (well_formed_creation st); try exact Qp; try exact H; now rewrite Q).
  assert (A8 : well_formed (snd (parse_single_queue text st)))
    by (apply (well_formed_creation st); try exact Q1p; try exact H; now rewrite Q1).
  exact (conj A1 (conj A2 (conj A3 (conj A4 (conj A5 (conj H (conj A7 A8))))))).
Qed.

Lemma verb_table_well_formed verb options :
  verb_table verb = Some options ->
  Forall (fun o => forall text st, well_formed st -> well_formed (snd (parse o text st)))
         options.
Proof.
  unfold verb_table, create_options, info_options, send_options, recv_options,
    unlink_options.
  intros H.
  repeat match type of H with
         | (if ?b then _ else _) = _ => destruct b
         end;
    try discriminate; injection H as <-;
    try destruct BSD_VISIBLE;
    repeat (apply Forall_cons || apply Forall_nil);
    unfold option_queue, option_single_queue, option_depth, option_size,
      option_block, option_content, option_priority, option_mode, option_group,
      option_user;
    cbn [parse]; intros text st Hst;
    first [ now apply parse_mode_well_formed
          | now apply parse_priority_well_formed
          | apply (other_parsers_well_formed text st Hst) ].
Qed.

Lemma parse_options_well_formed verb options argv index st :
  verb_table verb = Some options ->
  well_formed st -> well_formed (snd (parse_options index argv options st)).
Proof.
  intros Ht. apply parse_options_invariant; [intros; assumption|].
  intros o text s Hin. pose proof (verb_table_well_formed _ _ Ht) as H.
  rewrite Forall_forall in H. now apply H.
Qed.

(** [main], by the table and the loop of its verb. *)
Lemma main_unfold argv w :
  main argv (initial w) =
  (if (1 <? List.length argv)%nat then
     match verb_table (argv_at argv 1), verb_body (argv_at argv 1) with
     | Some options, Some body => run_verb argv options body
     | _, _ =>
         if streq "help" (argv_at argv 1) then usage ;;; ret 0
         else eprintf (ErrUnknownVerb (argv_at argv 1)) ;;; ret EINVAL
     end
   else usage ;;; ret 0) (initial w).
Proof.
  assert (E : forall k : M Z,
             (set_queues [] ;;; set_contents [] ;;; k) (initial w) = k (initial w))
    by reflexivity.
  unfold main. rewrite E. cbv zeta. unfold verb_table, verb_body.
  destruct (1 <? List.length argv)%nat; [|reflexivity].
  repeat match goal with
         | |- context [if ?b then run_verb _ _ _ else _] => destruct b
         end; reflexivity.
Qed.

(** [run_verb], by what it leaves and what it runs. *)
Lemma run_verb_spec argv verb options body st :
  verb_table verb = Some options ->
  exists st2,
    outside st2 = outside st /\
    globals st2 = globals (snd (parse_options 2 argv options st)) /\
    (run_verb argv options body st = body st2 /\
     fst (validate_options options (snd (parse_options 2 argv options st))) = true \/
     run_verb argv options body st = (EINVAL, st2) /\
     fst (validate_options options (snd (parse_options 2 argv options st))) = false).
Proof.
  intros Ht.
  pose proof (verb_table_quiet _ _ Ht) as Hq.
  pose proof (verb_table_sane _ _ Ht) as Hs.
  pose proof (parse_options_outside argv options 2 st Hq) as Hp.
  unfold run_verb. cbv [bind].
  destruct (parse_options 2 argv options st) as [[] st1]. cbn [snd] in *.
  assert (Hg : preserves globals (validate_options options)).
  { apply validate_loop_globals. eapply Forall_impl; [|exact Hs]. now intros o [_ H]. }
  specialize (Hg st1).
  pose proof (run_validators_outside options st1 Hq) as Ho.
  unfold validate_options in *. rewrite validate_loop_run in *. cbn [fst snd] in *.
  exists (snd (run_validators options st1)).
  split; [congruence|]. split; [exact Hg|].
  destruct (forallb id (fst (run_validators options st1))); cbn; auto.
Qed.

(** The loops of the verbs write none of the globals. *)
Lemma verb_body_globals verb body :
  verb_body verb = Some body -> preserves globals body.
Proof.
  pose proof bodies_globals as (B1 & B2 & B3 & B4 & B5).
  unfold verb_body. intros H.
  repeat match type of H with
         | (if ?b then _ else _) = _ => destruct b
         end;
    try discriminate; injection H as <-; assumption.
Qed.

Lemma main_well_formed argv w : well_formed (snd (main argv (initial w))).
Proof.
  rewrite main_unfold. pose proof (well_formed_initial w) as H0.
  destruct (1 <? List.length argv)%nat; [|exact H0].
  destruct (verb_table (argv_at argv 1)) as [options|] eqn:Ht;
    [destruct (verb_body (argv_at argv 1)) as [body|] eqn:Hb|].
  - destruct (run_verb_spec argv _ options body (initial w) Ht)
      as (st2 & _ & Hg & [[-> _]|[-> _]]).
    + apply (well_formed_globals st2); [apply (verb_body_globals _ _ Hb)|].
      apply (well_formed_globals _ _ Hg).
      now apply (parse_options_well_formed (argv_at argv 1)).
    + apply (well_formed_globals _ _ Hg).
      now apply (parse_options_well_formed (argv_at argv 1)).
  - destruct (streq "help" (argv_at argv 1)); exact H0.
  - destruct (streq "help" (argv_at argv 1)); exact H0.
Qed.

(** X9: through every run the shared configuration stays well formed: the
    global [exists] is never set, the mode stays within 1..07777, so that
    the validator of the mode never fails, it is the default 0755 as long as
    no mode was accepted, and the priority stays below [MQ_PRIO_MAX].  This
    holds after the scan of any command line and at the end of [main]. *)
Theorem configuration_invariant argv w :
  (forall verb options index,
      verb_table verb = Some options ->
      well_formed (snd (parse_options index argv options (initial w))) /\
      fst (validate_mode (snd (parse_options index argv options (initial w)))) = true) /\
  well_formed (snd (main argv (initial w))).
Proof.
  split; [|apply main_well_formed].
  intros verb options index Ht.
  pose proof (parse_options_well_formed verb options argv index (initial w) Ht
                                        (well_formed_initial w)) as H.
  split; [exact H|]. destruct H as (_ & Hm & _).
  unfold validate_mode. cbv [bind get ret]. cbn. apply Z.ltb_lt. lia.
Qed.

End Configuration.

(** ** Runs of [main] as a whole *)

Section WholeRuns.

Context {OS : MqService}.

Lemma emitting_rm P queue : P (MqUnlink queue) -> emitting P (rm queue).
Proof.
  intros H st. exists [MqUnlink queue]. rewrite rm_trace.
  split; [reflexivity | now constructor].
Qed.

Lemma emitting_track P op worst : emitting P op -> emitting P (track op worst).
Proof. intros H. unfold track. emit. Qed.

(** The loops that never send. *)
Lemma quiet_bodies_prio :
  emitting prio_ok create_all /\ emitting prio_ok info_all /\
  emitting prio_ok recv_first /\ emitting prio_ok rm_all.
Proof.
  unfold create_all, info_all, recv_first, rm_all. repeat split.
  - apply emitting_bind; [apply emitting_get | intros it].
    apply emitting_foreach. intros queue worst. apply emitting_track.
    apply emitting_bind; [apply emitting_get | intros c].
    apply (emitting_weaken (create_call queue c)); [|apply emitting_create].
    intros [] Hc; simpl in *; auto; contradiction.
  - apply emitting_bind; [apply emitting_get | intros it].
    apply emitting_foreach. intros queue worst. apply emitting_track.
    apply (emitting_weaken (info_call queue)); [|apply emitting_info].
    intros [] Hc; simpl in *; auto; contradiction.
  - apply emitting_bind; [apply emitting_get | intros it].
    apply (emitting_weaken (recv_call (hd "" it))); [|apply emitting_recv].
    intros [] Hc; simpl in *; auto; contradiction.
  - apply emitting_bind; [apply emitting_get | intros it].
    apply emitting_foreach. intros queue worst. apply emitting_track.
    now apply emitting_rm.
Qed.

Lemma run_each_emitting_inv {A : Type} (I : Proc -> Prop) P (op : A -> M Z) l :
  (forall x st, I st ->
     I (snd (op x st)) /\
     exists calls, trace (snd (op x st)) = (trace st ++ calls)%list /\ Forall P calls) ->
  forall st, I st ->
    exists calls,
      trace (snd (run_each op l st)) = (trace st ++ calls)%list /\ Forall P calls.
Proof.
  intros Hop. induction l as [|x l IH]; intros st HI; simpl.
  - exists []. cbn. rewrite app_nil_r. auto.
  - cbv [bind ret]. destruct (Hop x st HI) as (HI1 & l1 & H1 & P1).
    destruct (op x st) as [r st1]. cbn [snd] in *.
    destruct (IH st1 HI1) as (l2 & H2 & P2).
    destruct (run_each op l st1) as [rs st2]. cbn [snd] in *.
    exists (l1 ++ l2)%list. rewrite H2, H1, app_assoc.
    split; [reflexivity | now apply Forall_app].
Qed.

Lemma send_all_prio st :
  0 <= priority st < MQ_PRIO_MAX ->
  exists calls,
    trace (snd (send_all st)) = (trace st ++ calls)%list /\ Forall prio_ok calls.
Proof.
  intros Hp. change send_all with (batch VSend). rewrite batch_run. cbn [snd].
  apply (run_each_emitting_inv (fun s => 0 <= priority s < MQ_PRIO_MAX)); [|exact Hp].
  intros [queue text] s Hs. split.
  - assert (Hpr : priority (snd (attempt VSend (queue, text) s)) = priority s).
    { pose proof (attempt_globals VSend (queue, text) s) as Hg.
      unfold globals in Hg. congruence. }
    change (0 <= priority (snd (attempt VSend (queue, text) s)) < MQ_PRIO_MAX).
    rewrite Hpr. exact Hs.
  - cbn [attempt fst snd]. cbv [bind get].
    destruct (emitting_send queue text (to_unsigned (priority s)) s) as (calls & Ht & Hc).
    exists calls. split; [exact Ht|]. eapply Forall_impl; [|exact Hc].
    intros [] Hcall; simpl in *; auto. destruct Hcall as [_ ->].
    unfold to_unsigned. rewrite Z.mod_small; [exact Hs|].
    unfold MQ_PRIO_MAX in Hs. lia.
Qed.

Lemma verb_body_prio verb body st :
  verb_body verb = Some body ->
  0 <= priority st < MQ_PRIO_MAX ->
  exists calls,
    trace (snd (body st)) = (trace st ++ calls)%list /\ Forall prio_ok calls.
Proof.
  pose proof quiet_bodies_prio as (B1 & B2 & B4 & B5).
  unfold verb_body. intros H Hp.
  repeat match type of H with
         | (if ?b then _ else _) = _ => destruct b
         end;
    try discriminate; injection H as <-;
    first [ now apply send_all_prio | apply B1 | apply B2 | apply B4 | apply B5 ].
Qed.

(** The loops that never send issue no [mq_send]. *)
Lemma quiet_bodies_no_send :
  let P := fun c => is_send c = false in
  emitting P create_all /\ emitting P info_all /\
  emitting P recv_first /\ emitting P rm_all.
Proof.
  unfold create_all, info_all, recv_first, rm_all. repeat split.
  - apply emitting_bind; [apply emitting_get | intros it].
    apply emitting_foreach. intros queue worst. apply emitting_track.
    apply emitting_bind; [apply emitting_get | intros c].
    apply (emitting_weaken (create_call queue c)); [|apply emitting_create].
    intros [] Hc; simpl in *; auto; contradiction.
  - apply emitting_bind; [apply emitting_get | intros it].
    apply emitting_foreach. intros queue worst. apply emitting_track.
    apply (emitting_weaken (info_call queue)); [|apply emitting_info].
    intros [] Hc; simpl in *; auto; contradiction.
  - apply emitting_bind; [apply emitting_get | intros it].
    apply (emitting_weaken (recv_call (hd "" it))); [|apply emitting_recv].
    intros [] Hc; simpl in *; auto; contradiction.
  - apply emitting_bind; [apply emitting_get | intros it].
    apply emitting_foreach. intros queue worst. apply emitting_track.
    now apply emitting_rm.
Qed.

Lemma verb_body_no_send verb body :
  verb_body verb = Some body ->
  streq "send" verb = false ->
  emitting (fun c => is_send c = false) body.
Proof.
  pose proof quiet_bodies_no_send as (B1 & B2 & B4 & B5).
  unfold verb_body. intros H Hs. rewrite Hs in H.
  repeat match type of H with
         | (if ?b then _ else _) = _ => destruct b
         end;
    try discriminate; injection H as <-;
    first [ apply B1 | apply B2 | apply B4 | apply B5 ].
Qed.

(** X10: in every run of [main], whatever the command line and whatever
    the service answers, each [mq_send] that is issued carries a priority
    within 0..[MQ_PRIO_MAX]-1; and when the verb is not [send], no
    [mq_send] is issued at all. *)
Theorem send_priorities_in_range argv w :
  Forall prio_ok (trace (snd (main argv (initial w)))) /\
  (streq "send" (argv_at argv 1) = false ->
   Forall (fun c => is_send c = false) (trace (snd (main argv (initial w))))).
Proof.
  rewrite main_unfold.
  destruct (1 <? List.length argv)%nat; [|split; constructor].
  destruct (verb_table (argv_at argv 1)) as [options|] eqn:Ht;
    [destruct (verb_body (argv_at argv 1)) as [body|] eqn:Hb|];
    try (destruct (streq "help" (argv_at argv 1)); split; constructor).
  destruct (run_verb_spec argv _ options body (initial w) Ht)
    as (st2 & Ho & Hg & [[-> _]|[-> _]]).
  - assert (Hw : well_formed st2).
    { apply (well_formed_globals _ _ Hg).
      now apply (parse_options_well_formed (argv_at argv 1)). }
    destruct Hw as (_ & _ & _ & Hp).
    unfold outside in Ho. injection Ho as Ht2 _ _. cbn [trace initial] in Ht2.
    split.
    + destruct (verb_body_prio _ body st2 Hb Hp) as (calls & Hc & Hf).
      rewrite Hc, Ht2. exact Hf.
    + intros Hs.
      destruct (verb_body_no_send _ body Hb Hs st2) as (calls & Hc & Hf).
      rewrite Hc, Ht2. exact Hf.
  - cbn [snd]. unfold outside in Ho. injection Ho as -> _ _. split; constructor.
Qed.

(** X11: without a verb [main] prints the usage and returns 0; with [help]
    likewise; with a word that is no verb it reports the word and returns
    [EINVAL].  In none of these cases is the service called. *)
Theorem main_without_verb argv w :
  ((List.length argv <= 1)%nat ->
   main argv (initial w) = (0, snd (usage (initial w)))) /\
  ((1 < List.length argv)%nat ->
   verb_table (argv_at argv 1) = None ->
   main argv (initial w) =
   (if streq "help" (argv_at argv 1) then (0, snd (usage (initial w)))
    else (EINVAL, snd (eprintf (ErrUnknownVerb (argv_at argv 1)) (initial w)))) /\
   trace (snd (main argv (initial w))) = [] /\
   world (snd (main argv (initial w))) = w).
Proof.
  split.
  - intros Hlen. rewrite main_unfold.
    destruct (Nat.ltb_spec 1 (List.length argv)); [lia | reflexivity].
  - intros Hlen Ht. rewrite main_unfold, Ht.
    destruct (Nat.ltb_spec 1 (List.length argv)); [|lia].
    destruct (streq "help" (argv_at argv 1)); repeat split.
Qed.

(** The table of every verb begins with a queue option. *)
Lemma verb_table_head verb options :
  verb_table verb = Some options ->
  exists rest, options = option_queue :: rest \/ options = option_single_queue :: rest.
Proof.
  unfold verb_table, create_options, info_options, send_options, recv_options,
    unlink_options.
  intros H.
  repeat match type of H with
         | (if ?b then _ else _) = _ => destruct b
         end;
    try discriminate; injection H as <-;
    try destruct BSD_VISIBLE; eexists; auto.
Qed.

(** X12: for every verb, a command line that leaves the queue list empty
    (no queue option, or none with a sane name) makes [main] return [EINVAL]
    without calling the service. *)
Theorem missing_queue_rejected argv w options :
  (1 < List.length argv)%nat ->
  verb_table (argv_at argv 1) = Some options ->
  queues (snd (parse_options 2 argv options (initial w))) = [] ->
  fst (main argv (initial w)) = EINVAL /\
  trace (snd (main argv (initial w))) = [] /\
  world (snd (main argv (initial w))) = w.
Proof.
  intros Hlen Ht Hq.
  destruct (main_verb argv w options Hlen Ht) as [body ->].
  destruct (run_verb_spec argv _ options body (initial w) Ht)
    as (st2 & Ho & _ & [[_ Hv]|[-> _]]).
  - exfalso. unfold validate_options in Hv. rewrite validate_loop_run in Hv.
    cbn [fst andb] in Hv.
    destruct (verb_table_head _ _ Ht) as (rest & [->| ->]);
      cbn [run_validators] in Hv; cbv [bind ret] in Hv;
      cbn [validate option_queue option_single_queue] in Hv;
      unfold validate_queue, validate_single_queue in Hv;
      cbv [bind get ret] in Hv; rewrite Hq in Hv; cbn [eprintf] in Hv;
      match type of Hv with
      | context [run_validators ?r ?s] => destruct (run_validators r s)
      end; discriminate Hv.
  - cbn [fst snd]. unfold outside in Ho. injection Ho as -> -> _. auto.
Qed.

End WholeRuns.

(** ** Well-formed command lines *)

Section CommandLines.

Context {OS : MqService}.

Lemma scan_pairs options pairs : forall pre st,
  Forall (fun p => find_option options (fst p) <> None) pairs ->
  parse_options (List.length pre) (pre ++ flat_map (fun p => [fst p; snd p]) pairs)
                options st =
  (tt, fold_left (apply_pair options) pairs st).
Proof.
  induction pairs as [|[flag value] rest IH]; intros pre st Hok.
  - simpl. rewrite parse_options_done; [reflexivity|].
    rewrite app_nil_r. lia.
  - inversion Hok as [|? ? Hflag Hrest]; subst. cbn [fst] in Hflag.
    cbn [flat_map fst snd app fold_left].
    set (tail := flat_map (fun p => [fst p; snd p]) rest).
    assert (H0 : argv_at (pre ++ flag :: value :: tail) (List.length pre) = flag).
    { unfold argv_at. apply nth_middle. }
    assert (H1 : argv_at (pre ++ flag :: value :: tail) (List.length pre + 1) = value).
    { unfold argv_at.
      change (pre ++ flag :: value :: tail)%list
        with (pre ++ [flag] ++ value :: tail)%list.
      rewrite app_assoc.
      replace (List.length pre + 1)%nat with (List.length (pre ++ [flag]))
        by (rewrite length_app; reflexivity).
      apply nth_middle. }
    destruct (find_option options flag) as [o|] eqn:Hf; [|contradiction].
    rewrite (parse_options_match _ _ _ _ o).
    + rewrite H1.
      change (pre ++ flag :: value :: tail)%list
        with (pre ++ [flag; value] ++ tail)%list.
      rewrite app_assoc.
      replace (List.length pre + 2)%nat with (List.length (pre ++ [flag; value]))
        by (rewrite length_app; reflexivity).
      rewrite (IH _ _ Hrest).
      assert (Hap : apply_pair options st (flag, value) = snd (parse o value st))
        by (unfold apply_pair; cbn [fst snd]; now rewrite Hf).
      now rewrite Hap.
    + rewrite length_app. simpl. lia.
    + now rewrite H0.
Qed.

(** X13: on a command line made of options the table knows, each with its
    value, the scan applies the parsers to the values from left to right:
    the state it leaves is the fold of the options over the state it
    found, and nothing is skipped. *)
Theorem parse_options_pairs verb options pairs st :
  Forall (fun p => find_option options (fst p) <> None) pairs ->
  parse_options 2 (command verb pairs) options st =
  (tt, fold_left (apply_pair options) pairs st).
Proof.
  intros Hok. unfold command.
  change ("posixmqcontrol" :: verb :: flat_map (fun p => [fst p; snd p]) pairs)
    with (["posixmqcontrol"; verb] ++ flat_map (fun p => [fst p; snd p]) pairs)%list.
  change 2%nat with (List.length ["posixmqcontrol"; verb]).
  now apply scan_pairs.
Qed.

Lemma find_option_spelled options tok o :
  find_option options tok = Some o -> In o options /\ spelled tok o.
Proof.
  intros H. apply find_option_first in H. destruct H as (b & a & -> & Hs & _).
  split; [apply in_or_app; right; now left | exact Hs].
Qed.

Lemma parse_depth_invalid text st :
  snd (strtol text 10) = false ->
  depth (creation (snd (parse_depth text st))) = depth (creation st).
Proof.
  unfold parse_depth, parse_long. destruct (strtol text 10) as [v moved].
  cbn [snd]. now intros ->.
Qed.

Lemma parse_depth_valid text st :
  snd (strtol text 10) = true ->
  depth (creation (snd (parse_depth text st))) = fst (strtol text 10).
Proof.
  unfold parse_depth, parse_long. destruct (strtol text 10) as [v moved].
  cbn [snd fst]. now intros ->.
Qed.

(** An option of the create table that is not a depth option, or whose
    value is no number, leaves the depth alone. *)
Lemma apply_pair_keeps_depth p st :
  ~ In (fst p) names_depth \/ snd (strtol (snd p) 10) = false ->
  depth (creation (apply_pair create_options st p)) = depth (creation st).
Proof.
  intros Hp. unfold apply_pair.
  destruct (find_option create_options (fst p)) as [o|] eqn:Hf; [|reflexivity].
  apply find_option_spelled in Hf. destruct Hf as [Hin Hs].
  destruct (parse_size_writes (snd p) st) as (S & _).
  destruct (parse_block_writes (snd p) st) as (B & _).
  destruct (parse_mode_writes (snd p) st) as (Mo & _).
  destruct (parse_group_writes (snd p) st) as (G & _).
  destruct (parse_user_writes (snd p) st) as (U & _).
  destruct (parse_queue_writes (snd p) st) as (_ & Q & _).
  unfold create_options in Hin.
  assert (Hcases : o = option_queue \/ o = option_depth \/ o = option_size \/
                   o = option_block \/ o = option_mode \/ o = option_group \/
                   o = option_user).
  { destruct BSD_VISIBLE; simpl in Hin; intuition auto. }
  destruct Hcases as [->|[->|[->|[->|[->|[->| ->]]]]]]; cbn [parse option_queue
    option_depth option_size option_block option_mode option_group option_user].
  - now rewrite Q.
  - destruct Hp as [Hp|Hp]; [contradiction | now apply parse_depth_invalid].
  - now rewrite S.
  - now rewrite B.
  - now rewrite Mo.
  - now rewrite G.
  - now rewrite U.
Qed.

Lemma fold_keeps_depth pairs : forall st,
  Forall (fun p => ~ In (fst p) names_depth \/ snd (strtol (snd p) 10) = false) pairs ->
  depth (creation (fold_left (apply_pair create_options) pairs st)) =
  depth (creation st).
Proof.
  induction pairs as [|p rest IH]; intros st Hok; [reflexivity|].
  inversion Hok; subst. cbn [fold_left]. rewrite IH by assumption.
  now apply apply_pair_keeps_depth.
Qed.

Lemma find_depth_option flag :
  In flag names_depth -> find_option create_options flag = Some option_depth.
Proof.
  intros H. unfold create_options.
  destruct BSD_VISIBLE; repeat (destruct H as [<-|H]; [reflexivity|]); destruct H.
Qed.

(** X14: the last valid depth wins: on a create command line of known
    options, the depth after the scan is the number of the last depth option
    whose value is a number, whatever came before it and whatever other
    options follow. *)
Theorem last_depth_wins verb before flag text after st :
  Forall (fun p => find_option create_options (fst p) <> None)
         (before ++ (flag, text) :: after) ->
  In flag names_depth ->
  snd (strtol text 10) = true ->
  Forall (fun p => ~ In (fst p) names_depth \/ snd (strtol (snd p) 10) = false) after ->
  depth (creation (snd (parse_options 2 (command verb (before ++ (flag, text) :: after))
                                      create_options st))) =
  fst (strtol text 10).
Proof.
  intros Hknown Hflag Hvalid Hafter. unfold command.
  change ("posixmqcontrol" :: verb ::
          flat_map (fun p => [fst p; snd p]) (before ++ (flag, text) :: after))
    with (["posixmqcontrol"; verb] ++
          flat_map (fun p => [fst p; snd p]) (before ++ (flag, text) :: after))%list.
  change 2%nat with (List.length ["posixmqcontrol"; verb]).
  rewrite (scan_pairs _ _ _ _ Hknown). cbn [snd].
  rewrite fold_left_app. cbn [fold_left].
  rewrite (fold_keeps_depth after _ Hafter).
  unfold apply_pair. cbn [fst snd]. rewrite (find_depth_option flag Hflag).
  cbn [parse option_depth]. now apply parse_depth_valid.
Qed.

End CommandLines.

(** ** Receiving *)

Section Receiving.

Context {OS : MqService}.

Lemma bind_receive {B : Type} h len prio (k : Z * string * Z -> M B) st r w1 :
  os_mq_receive h len (world st) = (r, w1) ->
  bind (mq_receive h len prio) k st =
  k (match r with
     | Ok (text, p) => (strlen text, text, p)
     | Err _ => (-1, "", prio)
     end)
    (mkProc (creation st) (queues st) (contents st) (priority st)
            (match r with Ok _ => errno st | Err e => e end)
            (stderr st) (stdout st) (trace st ++ [MqReceive h len]) w1).
Proof.
  intros H. unfold bind at 1. unfold mq_receive. cbv [bind syscall ret]. now rewrite H.
Qed.

(** X15: [recv] asks the queue for its message size and receives with a
    buffer of exactly that length; the message it gets is printed once, with
    the priority and the length the service reported, and the result is that
    of the closing call.  When the receive fails, its error code is the
    result and nothing is printed. *)
Theorem recv_prints_message queue st n w1 actual w2 :
  os_mq_open queue O_RDONLY None (world st) = (Ok n, w1) ->
  os_mq_getattr (Z.of_nat n) w1 = (Ok actual, w2) ->
  let h := Z.of_nat n in
  trace (snd (recv queue st)) =
    (trace st ++ [MqOpen queue O_RDONLY None; MqGetattr h;
                  MqReceive h (mq_msgsize actual); MqClose h])%list /\
  (forall text p w3,
      os_mq_receive h (mq_msgsize actual) w2 = (Ok (text, p), w3) ->
      strlen text <= INT_MAX ->
      stdout (snd (recv queue st)) = (stdout st ++ [OutMessage p (strlen text) text])%list /\
      fst (recv queue st) = status (fst (os_mq_close h w3))) /\
  (forall e w3,
      os_mq_receive h (mq_msgsize actual) w2 = (Err e, w3) ->
      stdout (snd (recv queue st)) = stdout st /\
      fst (recv queue st) = e).
Proof.
  intros Hopen Hattr h.
  assert (Hrun : forall r w3,
             os_mq_receive h (mq_msgsize actual) w2 = (r, w3) ->
             recv queue st =
             (let '(received, text, priority) :=
                match r with
                | Ok (text, p) => (strlen text, text, p)
                | Err _ => (-1, "", 0)
                end in
              if to_int received <? 0 then abandon "mq_receive" (Some h)
              else printf (OutMessage priority (to_int received) text) ;;; mq_close h)
               (mkProc (creation st) (queues st) (contents st) (priority st)
                       (match r with Ok _ => errno st | Err e => e end)
                       (stderr st) (stdout st)
                       (trace st ++ [MqOpen queue O_RDONLY None; MqGetattr h;
                                     MqReceive h (mq_msgsize actual)]) w3)).
  { intros r w3 Hrecv. unfold recv.
    rewrite (bind_open_ok _ _ _ _ _ _ _ Hopen). rewrite handle_not_fail.
    rewrite (open_ok_state _ _ _ _ _ _ Hopen).
    erewrite bind_getattr by (cbn [world]; exact Hattr).
    cbn [status]. change (negb (0 =? 0)) with false. cbv iota.
    fold h. erewrite bind_receive by (cbn [world]; exact Hrecv).
    cbn [creation queues contents priority errno stderr stdout trace].
    rewrite <- !app_assoc. reflexivity. }
  assert (Hneg : (to_int (-1) <? 0) = true) by reflexivity.
  split; [|split].
  - destruct (os_mq_receive h (mq_msgsize actual) w2) as [r w3] eqn:Hrecv.
    rewrite (Hrun r w3 eq_refl).
    destruct r as [[text p]|e].
    + destruct (to_int (strlen text) <? 0);
        unfold abandon, mq_close; cbv [bind get perror eprintf printf syscall ret];
        cbn [world trace]; destruct (os_mq_close h w3) as [rc w4]; cbn [snd trace];
        now rewrite <- !app_assoc.
    + rewrite Hneg. unfold abandon, mq_close.
      cbv [bind get perror eprintf syscall ret].
      cbn [world trace]. destruct (os_mq_close h w3) as [rc w4]. cbn [snd trace].
      now rewrite <- !app_assoc.
  - intros text p w3 Hrecv Hlen. rewrite (Hrun _ _ Hrecv).
    rewrite to_int_small by (unfold strlen, INT_MAX in *; lia).
    destruct (Z.ltb_spec (strlen text) 0) as [Hlt|_]; [unfold strlen in Hlt; lia|].
    unfold mq_close. cbv [bind printf syscall ret]. cbn [world].
    destruct (os_mq_close h w3) as [rc w4]. split; reflexivity.
  - intros e w3 Hrecv. rewrite (Hrun _ _ Hrecv). rewrite Hneg.
    unfold abandon, mq_close. cbv [bind get perror eprintf syscall ret].
    cbn [world errno]. destruct (os_mq_close h w3) as [rc w4]. split; reflexivity.
Qed.

End Receiving.

(** * Runs on the in-memory service *)

#[local] Existing Instance Mqfs.service.

(** The entry state of [main] over a given file system of queues. *)
Abbreviation boot := (@initial Mqfs.service).

(** C1: on the queue [/app], whose permission bits are 0644, [create -m 644]
    issues a mode change although the requested mode is the observed one,
    and [create -m 444] issues none although it differs: the observed mode is
    masked with the hexadecimal [0x06777], which maps 0644 to 0444, and the
    queue keeps its mode 0644. *)
Theorem create_mode_mask_defect :
  let run mode_text :=
    snd (main ["posixmqcontrol"; "create"; "-q"; "/app"; "-m"; mode_text]
              (boot Mqfs.app)) in
  map Mqfs.n_mode (Mqfs.nodes Mqfs.app) = [420] /\
  Z.land (Z.lor S_IFIFO 420) 4095 = 420 /\
  Z.land (Z.lor S_IFIFO 420) 0x6777 = 292 /\
  mode (creation (run "644")) = 420 /\
  mode_changes (trace (run "644")) = [Fchmod 0 420] /\
  mode (creation (run "444")) = 292 /\
  mode_changes (trace (run "444")) = [] /\
  map Mqfs.n_mode (Mqfs.nodes (world (run "444"))) = [420].
Proof. vm_compute. repeat split. Qed.

(** C2, as stated, fails: creating [/new] without a size is rejected only
    after the probing open has been issued, and the result is that open's
    error code, not [EINVAL]. *)
Lemma create_rejection_follows_probe :
  let r := main ["posixmqcontrol"; "create"; "-q"; "/new"] (boot Mqfs.empty) in
  size (creation (snd r)) = -1 /\
  trace (snd r) = [MqOpen "/new" O_RDWR None] /\
  trace (snd r) <> [] /\
  fst r = ENOENT /\
  fst r <> EINVAL.
Proof. vm_compute. repeat split; discriminate. Qed.

Lemma create_size_depth_check_witness :
  let sized := with_size (with_depth creation_default 10) 100 in
  let ready (w : Mqfs.Fs) :=
    mkProc sized [] [] (MQ_PRIO_MAX / 2) 0 [] [] [] w in
  (fst (create "/app" sized (ready Mqfs.app)) =
     fst (create "/app" creation_default (boot Mqfs.app)) /\
   trace (snd (create "/app" sized (ready Mqfs.app))) =
     trace (snd (create "/app" creation_default (boot Mqfs.app))) /\
   fst (create "/app" creation_default (boot Mqfs.app)) = 0 /\
   stderr (snd (create "/app" creation_default (boot Mqfs.app))) = []) /\
  (exists rest,
      trace (snd (create "/new" sized (ready Mqfs.empty))) =
      MqOpen "/new" O_RDWR None ::
      MqOpen "/new" (Z.lor O_RDWR O_CREAT)
             (Some (mode creation_default, mkAttr 0 10 100 0)) :: rest) /\
  fst (create "/new" creation_default (boot Mqfs.empty)) = ENOENT /\
  trace (snd (create "/new" creation_default (boot Mqfs.empty))) =
    [MqOpen "/new" O_RDWR None] /\
  stderr (snd (create "/new" creation_default (boot Mqfs.empty))) =
    [ErrSizeMissing; Perror "mq_open(create)" ENOENT].
Proof.
  intros sized ready. split; [|split].
  - destruct (create_size_depth_check "/app" (boot Mqfs.app) eq_refl)
      as (H & _ & _).
    destruct (H 0%nat (Mqfs.mkFs (Mqfs.nodes Mqfs.app) ["/app"]) eq_refl)
      as (_ & _ & Hany).
    destruct (Hany 100 10 100 10) as (Hr & _ & _ & Ht & _).
    split; [exact Hr | split; [exact Ht | split; reflexivity]].
  - destruct (create_size_depth_check "/new" (ready Mqfs.empty) eq_refl)
      as (_ & H & _).
    exact (H ENOENT Mqfs.empty eq_refl eq_refl).
  - destruct (create_size_depth_check "/new" (boot Mqfs.empty) eq_refl)
      as (_ & _ & H).
    destruct (H ENOENT Mqfs.empty eq_refl eq_refl) as (H1 & H2 & _ & H4).
    split; [exact H1 | split; [exact H2 | exact H4]].
Defined.

Lemma parse_options_dispatch_witness :
  let argv := ["posixmqcontrol"; "info"; "-x"; "-q"; "/app"; "-y"] in
  let st := snd (parse_options 2 argv info_options (boot Mqfs.app)) in
  stderr st = [WarnSkipping "-x"; WarnSkipping "-y"] /\
  queues st = ["/app"] /\
  stdout st = [] /\ trace st = [] /\ world st = Mqfs.app /\
  creation st = creation (boot Mqfs.app).
Proof.
  intros argv st. subst st.
  destruct (parse_options_dispatch 2 argv info_options (boot Mqfs.app))
    as (_ & Hskip & _).
  rewrite Hskip;
    [| simpl; lia
     | repeat constructor; intros [E|[E|[E|[E|[]]]]]; discriminate E].
  match goal with
  | |- context [parse_options ?i _ _ ?s] =>
      destruct (parse_options_dispatch i argv info_options s) as (Hmatch & _)
  end.
  rewrite (Hmatch [] option_queue []);
    [| simpl; lia | reflexivity | left; reflexivity | constructor].
  match goal with
  | |- context [parse_options ?i _ _ ?s] =>
      destruct (parse_options_dispatch i argv info_options s)
        as (_ & _ & Hlast & _)
  end.
  rewrite Hlast by reflexivity.
  repeat split.
Defined.

Lemma batch_last_failure_witness :
  fst (batch VUnlink (snd (set_queues ["/x"; "/app"; "/y"] (boot Mqfs.app)))) =
  ENOENT.
Proof.
  destruct (batch_last_failure
              VUnlink (snd (set_queues ["/x"; "/app"; "/y"] (boot Mqfs.app))))
    as (H1 & _ & _ & _ & H5 & _).
  rewrite H1. cbn [fst]. rewrite (H5 0%nat 2%nat).
  - reflexivity.
  - vm_compute. lia.
  - vm_compute. discriminate.
  - vm_compute. discriminate.
  - intros [|[|[|j]]] Hk Hm; try reflexivity; try congruence.
    vm_compute. now destruct j.
Defined.

Lemma recv_keeps_first_queue_witness :
  let parsed :=
    snd (parse_options 2 (command "recv" [("-q", "/a"); ("--queue", "/b"); ("-t", "/c")])
                       recv_options (boot Mqfs.empty)) in
  queues parsed = ["/a"] /\
  stderr parsed = [WarnExtraQueue "/b"; WarnExtraQueue "/c"].
Proof.
  destruct (recv_keeps_first_queue (OS := Mqfs.service)
              "recv" [("-q", "/a"); ("--queue", "/b"); ("-t", "/c")] Mqfs.empty)
    as (_ & _ & H & _).
  apply H.
  repeat (apply Forall_cons; [split; [simpl; auto 6 | reflexivity]|]).
  apply Forall_nil.
Defined.


Lemma sane_queue_iff_witness :
  fst (sane_queue "/app" (boot Mqfs.empty)) = true.
Proof.
  apply (proj1 (sane_queue_iff "/app" (boot Mqfs.empty))).
  exists "app". repeat split.
  - intros [E|[E|[E|[]]]]; discriminate E.
  - unfold PATH_MAX. simpl. lia.
Defined.

Lemma send_truncates_witness :
  fst (send "/tiny" "hello world" 5 (boot Mqfs.tiny)) = 0 /\
  stderr (snd (send "/tiny" "hello world" 5 (boot Mqfs.tiny))) = [WarnTruncating 4].
Proof.
  destruct (send_truncates "/tiny" "hello world" 5 (boot Mqfs.tiny) 0
                           (Mqfs.mkFs (Mqfs.nodes Mqfs.tiny) ["/tiny"])
                           (mkAttr 0 10 4 0)
                           (Mqfs.mkFs (Mqfs.nodes Mqfs.tiny) ["/tiny"]))
    as (_ & _ & _ & _ & _ & H).
  - reflexivity.
  - reflexivity.
  - unfold strlen. simpl. lia.
  - unfold strlen, INT_MAX. simpl. lia.
  - eapply H; reflexivity.
Defined.

(** C9, as stated, fails: [+17] names no group and does not begin with an
    octal digit, yet the flag is raised and 15 is captured. *)
Lemma signed_id_is_captured :
  let st := snd (parse_group "+17" (boot Mqfs.empty)) in
  getgrnam "+17" = None /\
  starts_with_digit 8 "+17" = false /\
  group (creation (boot Mqfs.empty)) = 0 /\
  set_group (creation st) = true /\
  group (creation st) = 15 /\
  group (creation st) <> group (creation (boot Mqfs.empty)).
Proof. vm_compute. repeat split; discriminate. Qed.

Lemma numeric_id_fallback_witness :
  set_group (creation (snd (parse_group "1289" (boot Mqfs.empty)))) = true /\
  group (creation (snd (parse_group "1289" (boot Mqfs.empty)))) = 10.
Proof.
  destruct (numeric_id_fallback "1289" (boot Mqfs.empty)) as (_ & _ & H & _).
  destruct (H eq_refl) as [_ Hd]. rewrite Hd; [|discriminate].
  split; reflexivity.
Defined.

(** The example scenarios of the specification. *)

Example scenario_create_fresh :
  let r := main ["posixmqcontrol"; "create"; "-q"; "/app"; "-s"; "100"; "-d"; "10"]
                (boot Mqfs.empty) in
  fst r = 0 /\
  Mqfs.nodes (world (snd r)) = [Mqfs.mkNode "/app" 0 0 493 10 100 []].
Proof. vm_compute. split; reflexivity. Qed.

Example scenario_create_mode :
  let r := main ["posixmqcontrol"; "create"; "-q"; "/app"; "-m"; "700"]
                (boot Mqfs.app) in
  fst r = 0 /\
  Mqfs.nodes (world (snd r)) = [Mqfs.mkNode "/app" 1001 1001 448 10 100 []].
Proof. vm_compute. split; reflexivity. Qed.

Example scenario_send :
  let r := main ["posixmqcontrol"; "send"; "-q"; "/app"; "-c"; "hello"; "-p"; "5"]
                (boot Mqfs.app) in
  fst r = 0 /\
  map Mqfs.n_msgs (Mqfs.nodes (world (snd r))) = [[("hello", 5)]].
Proof. vm_compute. split; reflexivity. Qed.

Example scenario_send_truncated :
  let r := main ["posixmqcontrol"; "send"; "-q"; "/tiny"; "-c"; "hello world"]
                (boot Mqfs.tiny) in
  fst r = 0 /\
  stderr (snd r) = [WarnTruncating 4] /\
  map Mqfs.n_msgs (Mqfs.nodes (world (snd r))) = [[("hell", 32)]].
Proof. vm_compute. repeat split; reflexivity. Qed.

Example scenario_unlink :
  let r := main ["posixmqcontrol"; "unlink"; "-q"; "/app"; "-q"; "/missing"]
                (boot Mqfs.app) in
  fst r = ENOENT /\
  Mqfs.nodes (world (snd r)) = [] /\
  trace (snd r) = [MqUnlink "/app"; MqUnlink "/missing"].
Proof. vm_compute. repeat split; reflexivity. Qed.

Example scenario_unknown_verb :
  let r := main ["posixmqcontrol"; "foo"] (boot Mqfs.app) in
  fst r = EINVAL /\ trace (snd r) = [] /\ stderr (snd r) = [ErrUnknownVerb "foo"].
Proof. vm_compute. repeat split; reflexivity. Qed.

Example scenario_recv :
  let sent := snd (main ["posixmqcontrol"; "send"; "-q"; "/app"; "-c"; "hello"]
                        (boot Mqfs.app)) in
  let r := main ["posixmqcontrol"; "recv"; "-q"; "/app"; "-q"; "/other"]
                (boot (world sent)) in
  fst r = 0 /\
  stdout (snd r) = [OutMessage 32 5 "hello"] /\
  stderr (snd r) = [WarnExtraQueue "/other"].
Proof. vm_compute. repeat split; reflexivity. Qed.

(** Runs for the properties beyond the command line. *)

Lemma new_queue_no_chmod_witness :
  let c := mkCreation false true 438 10 100 true false 0 false 0 in
  let st := mkProc c [] [] (MQ_PRIO_MAX / 2) 0 [] [] [] Mqfs.empty in
  let run := create "/new" c st in
  mode_changes (trace (snd run)) = [] /\
  fst run = 0 /\
  In (MqOpen "/new" (Z.lor O_RDWR O_CREAT) (Some (438, mkAttr 0 10 100 0)))
     (trace (snd run)) /\
  option_map Mqfs.n_mode (Mqfs.lookup "/new" (world (snd run))) = Some 420.
Proof.
  intros c st run. split.
  - exact (new_queue_no_chmod "/new" c st ENOENT Mqfs.empty eq_refl).
  - vm_compute. repeat split. right. left. reflexivity.
Defined.

Lemma fchown_failure_stops_witness :
  fst (create (OS := Mqfs.faulty) "/app"
              (mkCreation false true 448 (-1) (-1) true false 0 true 5)
              (@initial Mqfs.faulty Mqfs.app)) = Mqfs.EPERM.
Proof.
  apply (fchown_failure_stops
           (OS := Mqfs.faulty) "/app"
           (mkCreation false true 448 (-1) (-1) true false 0 true 5)
           (@initial Mqfs.faulty Mqfs.app)
           0 (Mqfs.mkFs (Mqfs.nodes Mqfs.app) ["/app"])
           0 (Mqfs.mkFs (Mqfs.nodes Mqfs.app) ["/app"])
           (mkStat 1001 1001 4516) (Mqfs.mkFs (Mqfs.nodes Mqfs.app) ["/app"])
           Mqfs.EPERM (Mqfs.mkFs (Mqfs.nodes Mqfs.app) ["/app"]));
    reflexivity.
Defined.

Lemma handles_closed_witness :
  let c := mkCreation false false 493 10 100 true false 0 false 0 in
  let st := mkProc c [] [] (MQ_PRIO_MAX / 2) 0 [] [] [] Mqfs.empty in
  (exists calls,
      trace (snd (create "/new" c st)) =
      MqOpen "/new" O_RDWR None ::
      MqOpen "/new" (Z.lor O_RDWR O_CREAT) (Some (493, mkAttr 0 10 100 0)) ::
      (calls ++ [MqClose 0])%list /\
      Forall (fun call => is_close call = false) calls) /\
  last (trace (snd (create "/new" c st))) (MqClose (-1)) = MqClose 0 /\
  List.length (filter is_close (trace (snd (create "/new" c st)))) = 1%nat.
Proof.
  intros c st. split; [|split; reflexivity].
  destruct (handles_closed "/new" "" 0 c st) as (_ & _ & _ & _ & _ & H).
  destruct (H ENOENT Mqfs.empty eq_refl) as (Hmade & _).
  exact (Hmade 0%nat
               (Mqfs.mkFs [Mqfs.mkNode "/new" 0 0 493 10 100 []] ["/new"])
               eq_refl eq_refl).
Defined.

Lemma info_leaves_handle_open_witness :
  trace (snd (info (OS := Mqfs.faulty) "/app" (@initial Mqfs.faulty Mqfs.app))) =
  [MqOpen "/app" O_RDONLY None; MqGetattr 0].
Proof.
  destruct (info_leaves_handle_open
              (OS := Mqfs.faulty) "/app" (@initial Mqfs.faulty Mqfs.app)
              0 (Mqfs.mkFs (Mqfs.nodes Mqfs.app) ["/app"]) eq_refl) as [H _].
  destruct (H EBADF (Mqfs.mkFs (Mqfs.nodes Mqfs.app) ["/app"]) eq_refl) as [_ Ht].
  exact Ht.
Defined.

Lemma send_fits_witness :
  trace (snd (send "/app" "hello" 5 (boot Mqfs.app))) =
  [MqOpen "/app" O_WRONLY None; MqGetattr 0; MqSend 0 "hello" 5 5; MqClose 0].
Proof.
  destruct (send_fits "/app" "hello" 5 (boot Mqfs.app) 0
                      (Mqfs.mkFs (Mqfs.nodes Mqfs.app) ["/app"])
                      (mkAttr 0 10 100 0)
                      (Mqfs.mkFs (Mqfs.nodes Mqfs.app) ["/app"]))
    as (H & _).
  - reflexivity.
  - reflexivity.
  - unfold strlen. simpl. lia.
  - unfold strlen, INT_MAX. simpl. lia.
  - exact H.
Defined.

Lemma recv_prints_message_witness :
  let run := recv "/app" (boot Mqfs.holding) in
  trace (snd run) =
    [MqOpen "/app" O_RDONLY None; MqGetattr 0; MqReceive 0 100; MqClose 0] /\
  stdout (snd run) = [OutMessage 5 5 "hello"] /\
  fst run = 0 /\
  option_map Mqfs.n_msgs (Mqfs.lookup "/app" (world (snd run))) = Some [].
Proof.
  intros run. subst run.
  destruct (recv_prints_message "/app" (boot Mqfs.holding) 0
                                (Mqfs.mkFs (Mqfs.nodes Mqfs.holding) ["/app"])
                                (mkAttr 0 10 100 1)
                                (Mqfs.mkFs (Mqfs.nodes Mqfs.holding) ["/app"])
                                eq_refl eq_refl)
    as (Ht & Hok & _).
  assert (Hlen : strlen "hello" <= INT_MAX) by (vm_compute; discriminate).
  destruct (Hok "hello" 5
                (Mqfs.mkFs [Mqfs.mkNode "/app" 1001 1001 420 10 100 []] ["/app"])
                eq_refl Hlen) as (Hout & Hres).
  split; [exact Ht | split; [exact Hout | split; [exact Hres | reflexivity]]].
Defined.

Lemma send_priorities_in_range_witness :
  let sending :=
    main ["posixmqcontrol"; "send"; "-q"; "/app"; "-c"; "hi"; "-p"; "7"]
         (boot Mqfs.app) in
  let receiving := main ["posixmqcontrol"; "recv"; "-q"; "/app"] (boot Mqfs.holding) in
  Forall prio_ok (trace (snd sending)) /\
  In (MqSend 0 "hi" 2 7) (trace (snd sending)) /\
  Forall (fun c => is_send c = false) (trace (snd receiving)) /\
  trace (snd receiving) <> [].
Proof.
  intros sending receiving. split; [|split; [|split]].
  - exact (proj1 (send_priorities_in_range
                    ["posixmqcontrol"; "send"; "-q"; "/app"; "-c"; "hi"; "-p"; "7"]
                    Mqfs.app)).
  - vm_compute. right. right. left. reflexivity.
  - exact (proj2 (send_priorities_in_range
                    ["posixmqcontrol"; "recv"; "-q"; "/app"] Mqfs.holding) eq_refl).
  - vm_compute. discriminate.
Defined.

Lemma missing_queue_rejected_witness :
  fst (main ["posixmqcontrol"; "info"; "-q"; "app"] (boot Mqfs.app)) = EINVAL.
Proof.
  destruct (missing_queue_rejected
              (OS := Mqfs.service) ["posixmqcontrol"; "info"; "-q"; "app"] Mqfs.app
              info_options) as (H & _).
  - simpl. lia.
  - reflexivity.
  - reflexivity.
  - exact H.
Defined.

Lemma parse_options_pairs_witness :
  contents (snd (parse_options 2 (command "send" [("-c", "a"); ("-q", "/app");
                                                  ("--data", "b"); ("-c", "a")])
                               send_options (boot Mqfs.app))) = ["a"; "b"; "a"].
Proof.
  rewrite (parse_options_pairs
             (OS := Mqfs.service) "send"
             send_options [("-c", "a"); ("-q", "/app"); ("--data", "b"); ("-c", "a")]).
  - reflexivity.
  - repeat (apply Forall_cons; [discriminate|]). apply Forall_nil.
Defined.

Lemma last_depth_wins_witness :
  depth (creation
           (snd (parse_options 2 (command "create" ([("-d", "5"); ("-q", "/app")] ++
                                                    ("--depth", "7") ::
                                                    [("-s", "9"); ("-d", "x")]))
                               create_options (boot Mqfs.app)))) = 7.
Proof.
  apply (last_depth_wins (OS := Mqfs.service) "create" [("-d", "5"); ("-q", "/app")]
                         "--depth" "7" [("-s", "9"); ("-d", "x")] (boot Mqfs.app)).
  - repeat (apply Forall_cons; [discriminate|]). apply Forall_nil.
  - simpl. auto.
  - reflexivity.
  - apply Forall_cons; [left; intros [E|[E|[E|[]]]]; discriminate E|].
    apply Forall_cons; [right; reflexivity | apply Forall_nil].
Defined.
